(** * csfutil: the CSF string-table codec and its label/value store

    A shallow embedding of the Go package [csfutil] (files [csfutil.go],
    [types.go], [encoding.go]) and the properties of its binary codec and
    entry store.

    Conventions of the embedding:
    - a Go [byte] is an [ascii] (eight bits), a [[]byte] is a [list ascii],
      a Go [string] (an immutable byte sequence) is a [string];
    - a Go [uint] / [uint32] / [uint16] / [rune] is a [Z], with every
      narrowing conversion written out as a [mod];
    - a Go [map[string]T] is a [gmap string T]; a nil map reads like the
      empty map;
    - a Go [[]string] is a slice header into a backing array that lives in
      an explicit store of arrays, so that two slices of one array alias;
    - the open file is the list of its unread bytes and the read offset. *)

From Stdlib Require Import ZArith NArith Ascii String List Lia Bool.
From coqutil Require Import Z.bitblast.
From stdpp Require Import base option list gmap strings.

Open Scope Z_scope.

(** ** Bytes and fixed-width integers *)

Abbreviation byte := ascii (only parsing).
Abbreviation bytes := (list ascii) (only parsing).

Definition byte_to_Z (b : byte) : Z := Z.of_N (N_of_ascii b).
Definition byte_of_Z (z : Z) : byte := ascii_of_N (Z.to_N (z mod 256)).

(** [uint32(x)], [uint16(x)] on a non-negative integer. *)
Definition uint32 (x : Z) : Z := x mod 2 ^ 32.
Definition uint16 (x : Z) : Z := x mod 2 ^ 16.

(** [string(b)] and [[]byte(s)]. *)
Definition string_of_bytes (b : bytes) : string := string_of_list_ascii b.
Definition bytes_of_string (s : string) : bytes := list_ascii_of_string s.

(** [len(b)] as a Go integer. *)
Definition len {A} (l : list A) : Z := Z.of_nat (length l).

(** [binary.LittleEndian.PutUint32(dword, v)]: the four bytes written. *)
Definition PutUint32 (v : Z) : bytes :=
  [ byte_of_Z v; byte_of_Z (Z.shiftr v 8);
    byte_of_Z (Z.shiftr v 16); byte_of_Z (Z.shiftr v 24) ].

(** [binary.LittleEndian.Uint32(b)] on a four-byte buffer. *)
Definition Uint32 (b : bytes) : Z :=
  match b with
  | [b0; b1; b2; b3] =>
      Z.lor (Z.lor (Z.lor (byte_to_Z b0) (Z.shiftl (byte_to_Z b1) 8))
                   (Z.shiftl (byte_to_Z b2) 16))
            (Z.shiftl (byte_to_Z b3) 24)
  | _ => 0
  end.

(** [^b] on one byte. *)
Definition not_byte (b : byte) : byte :=
  let 'Ascii b0 b1 b2 b3 b4 b5 b6 b7 := b in
  Ascii (negb b0) (negb b1) (negb b2) (negb b3)
        (negb b4) (negb b5) (negb b6) (negb b7).

(** The loop [for i := range b { b[i] = ^b[i] }]. *)
Definition complement (b : bytes) : bytes := map not_byte b.

(** ** types.go: identifiers *)

Definition CSFFileIdentifier : string := " FSC".
Definition LabelIdentifier : string := " LBL".
Definition ValueIdentifier : string := " RTS".
Definition ValueWithExtraIdentifier : string := "WRTS".

Definition Languages : list string :=
  [ "US (English)"; "UK (English)"; "German"; "French"; "Spanish"; "Italian";
    "Japanese"; "Jabberwockie"; "Korean"; "Chinese"; "Unknown" ]%string.

(** ** Errors

    [fmt.Errorf] values are kept structured: what the message is built
    from rather than the text. [ErrWrap] is a [%w] wrapping. *)

Inductive error : Type :=
| EOF                                                (* io.EOF *)
| ErrNotEnoughData (want got : Z)                    (* read *)
| ErrNotDword                                        (* readDWORD *)
| ErrIdentifier (want : list string) (got : bytes)   (* checkIdentifier *)
| ErrWrap (context : string) (cause : error) (offset : Z)
| ErrTooManyStrings                                  (* readContent *)
| ErrOddLength (n : Z).                              (* DecodeUTF16 *)

(** [errors.Is(err, io.EOF)]: follows the [%w] chain. *)
Fixpoint isEOF (e : error) : bool :=
  match e with
  | EOF => true
  | ErrWrap _ e' _ => isEOF e'
  | _ => false
  end.

Inductive result (A : Type) : Type :=
| Ok (a : A)
| Err (e : error).
Arguments Ok {A} a.
Arguments Err {A} e.

(** ** The file being read *)

Record file : Type := mkFile {
  unread : bytes;   (* the bytes from the current offset to the end *)
  offset : Z        (* the current offset *)
}.

(** A computation that reads from the file and may fail. The file is
    returned in both cases: a failed read may have consumed bytes. *)
Definition reading (A : Type) : Type := file -> result A * file.

Definition ret {A} (a : A) : reading A := fun f => (Ok a, f).
Definition fail {A} (e : error) : reading A := fun f => (Err e, f).
Definition bind {A B} (m : reading A) (k : A -> reading B) : reading B :=
  fun f => match m f with
           | (Ok a, f') => k a f'
           | (Err e, f') => (Err e, f')
           end.

Declare Scope reading_scope.
Delimit Scope reading_scope with reading.
Notation "x <- m ;; k" := (bind m (fun x => k))
  (at level 100, m at next level, right associativity) : reading_scope.

(** [maxRW] of Go's [internal/poll]: the most that one [Read] call
    transfers. *)
Definition maxRW : Z := 2 ^ 30.

(** [r.file.Read(b)] with [len(b) = n] on a regular file: a buffer of
    length zero reads nothing and reports no error; at the end of the file
    the read reports [io.EOF]; otherwise it delivers the bytes that are
    there, up to [n] and up to [maxRW], with no error. *)
Definition fileRead (n : Z) (f : file) : (bytes * option error) * file :=
  if n =? 0 then (([], None), f)
  else
    match unread f with
    | [] => (([], Some EOF), f)
    | _ =>
        let k := Z.to_nat (Z.min n maxRW) in
        let got := take k (unread f) in
        ((got, None), mkFile (drop k (unread f)) (offset f + len got))
    end.

(** [pos]: the current reading position. *)
Definition pos (f : file) : Z := offset f.

(** [read]: the next [size] bytes. *)
Definition read (size : Z) : reading bytes := fun f =>
  match fileRead size f with
  | ((_, Some e), f') => (Err e, f')
  | ((got, None), f') =>
      if negb (len got =? size) then (Err (ErrNotEnoughData size (len got)), f')
      else (Ok got, f')
  end.

(** [readDWORD]: the next four bytes, through the shared buffer [r.dword].
    The buffer is only ever inspected after a read that filled it, so the
    embedding hands its contents back as the result. *)
Definition readDWORD : reading bytes := fun f =>
  match fileRead 4 f with
  | ((_, Some e), f') => (Err e, f')
  | ((got, None), f') =>
      if negb (len got =? 4) then (Err ErrNotDword, f') else (Ok got, f')
  end.

(** [readUInt]. *)
Definition readUInt : reading Z :=
  (d <- readDWORD ;; ret (Uint32 d))%reading.

(** [checkIdentifier]: the result is the content of [r.dword]. *)
Definition checkIdentifier (ids : list string) : reading bytes :=
  (d <- readDWORD ;;
   if existsb (fun id => bool_decide (d = bytes_of_string id)) ids
   then ret d
   else fail (ErrIdentifier ids d))%reading.

(** ** types.go: Label, Value, LabelValue *)

Record Label : Type := mkLabel {
  Label_Offset : Z;
  StringPairs : Z;
  Label_Value : bytes
}.

Record Value : Type := mkValue {
  Value_Offset : Z;
  HaveExtra : bool;
  Value_Value : bytes;
  ExtraValue : bytes
}.

Record LabelValue : Type := mkLabelValue {
  LV_Label : Label;
  LV_Value : Value
}.

(** Go zero values, which an absent map key reads as. *)
Definition zeroLabel : Label := mkLabel 0 0 [].
Definition zeroValue : Value := mkValue 0 false [] [].
Definition zeroLabelValue : LabelValue := mkLabelValue zeroLabel zeroValue.

Definition Label_ValueString (l : Label) : string :=
  string_of_bytes (Label_Value l).

Definition Label_Bytes (l : Label) : bytes :=
  bytes_of_string LabelIdentifier
  ++ PutUint32 (uint32 1)
  ++ PutUint32 (uint32 (len (Label_Value l)))
  ++ Label_Value l.

Definition Label_Write (l : Label) (s : string) : Label :=
  mkLabel (Label_Offset l) (StringPairs l) (bytes_of_string s).

Definition ExtraValueString (v : Value) : string :=
  if negb (HaveExtra v) then EmptyString else string_of_bytes (ExtraValue v).

Definition Value_Bytes (v : Value) : bytes :=
  bytes_of_string
    (if HaveExtra v then ValueWithExtraIdentifier else ValueIdentifier)
  ++ PutUint32 (uint32 (len (Value_Value v) / 2))
  ++ Value_Value v
  ++ (if HaveExtra v
      then PutUint32 (uint32 (len (ExtraValue v))) ++ ExtraValue v
      else []).

Definition WriteExtra (v : Value) (s : string) : Value :=
  mkValue (Value_Offset v) true (Value_Value v) (bytes_of_string s).

Definition ClearExtra (v : Value) : Value :=
  mkValue (Value_Offset v) false (Value_Value v) [].

Definition LabelValue_Bytes (lv : LabelValue) : bytes :=
  Label_Bytes (LV_Label lv) ++ Value_Bytes (LV_Value lv).

(** ** Go's text conversions used by encoding.go

    [EncodeUTF16] and [DecodeUTF16] call the Go library: the conversions
    between [string] and [[]rune] (UTF-8) and [unicode/utf16]. They are
    written out here after the library, bit operation by bit operation. *)

Module utf8.
Definition RuneError : Z := 65533.      (* U+FFFD *)
Definition MaxRune : Z := 1114111.      (* U+10FFFF *)
Definition RuneSelf : Z := 128.
Definition surrogateMin : Z := 55296.   (* 0xD800 *)
Definition surrogateMax : Z := 57343.   (* 0xDFFF *)
Definition t2 : Z := 192.
Definition t3 : Z := 224.
Definition t4 : Z := 240.
Definition t5 : Z := 248.
Definition tx : Z := 128.
Definition maskx : Z := 63.
Definition mask2 : Z := 31.
Definition mask3 : Z := 15.
Definition mask4 : Z := 7.
Definition rune1Max : Z := 127.
Definition rune2Max : Z := 2047.
Definition rune3Max : Z := 65535.
Definition locb : Z := 128.
Definition hicb : Z := 191.

Definition cont (b : Z) : bool := (locb <=? b) && (b <=? hicb).

(** [decoderune(s, k)] on the bytes from position [k] on, for a first
    byte that is not ASCII: the rune and the number of bytes it takes.
    Anything that is not a well-formed sequence is one byte of
    [RuneError]. *)
Definition decoderune (s : bytes) : Z * nat :=
  match map byte_to_Z s with
  | s0 :: rest =>
      if (t2 <=? s0) && (s0 <? t3) then
        match rest with
        | s1 :: _ =>
            if cont s1 then
              let r := Z.lor (Z.shiftl (Z.land s0 mask2) 6) (Z.land s1 maskx) in
              if rune1Max <? r then (r, 2%nat) else (RuneError, 1%nat)
            else (RuneError, 1%nat)
        | _ => (RuneError, 1%nat)
        end
      else if (t3 <=? s0) && (s0 <? t4) then
        match rest with
        | s1 :: s2 :: _ =>
            if cont s1 && cont s2 then
              let r := Z.lor (Z.lor (Z.shiftl (Z.land s0 mask3) 12)
                                    (Z.shiftl (Z.land s1 maskx) 6))
                             (Z.land s2 maskx) in
              if (rune2Max <? r)
                 && negb ((surrogateMin <=? r) && (r <=? surrogateMax))
              then (r, 3%nat) else (RuneError, 1%nat)
            else (RuneError, 1%nat)
        | _ => (RuneError, 1%nat)
        end
      else if (t4 <=? s0) && (s0 <? t5) then
        match rest with
        | s1 :: s2 :: s3 :: _ =>
            if cont s1 && cont s2 && cont s3 then
              let r := Z.lor (Z.lor (Z.lor (Z.shiftl (Z.land s0 mask4) 18)
                                           (Z.shiftl (Z.land s1 maskx) 12))
                                    (Z.shiftl (Z.land s2 maskx) 6))
                             (Z.land s3 maskx) in
              if (rune3Max <? r) && (r <=? MaxRune)
              then (r, 4%nat) else (RuneError, 1%nat)
            else (RuneError, 1%nat)
        | _ => (RuneError, 1%nat)
        end
      else (RuneError, 1%nat)
  | [] => (RuneError, 1%nat)
  end.

(** The loop [for _, r := range s]: [skip] counts the bytes still to be
    passed over of the sequence decoded last. *)
Fixpoint range_runes (skip : nat) (s : bytes) : list Z :=
  match s with
  | [] => []
  | c :: rest =>
      match skip with
      | S k => range_runes k rest
      | O =>
          if byte_to_Z c <? RuneSelf
          then byte_to_Z c :: range_runes 0 rest
          else let '(r, w) := decoderune s in r :: range_runes (w - 1) rest
      end
  end.

(** [[]rune(s)]. *)
Definition runes_of_string (s : string) : list Z :=
  range_runes 0 (bytes_of_string s).

(** [encoderune(p, r)]: the bytes written for a rune of [int32] range
    that is not negative. *)
Definition encoderune (r : Z) : bytes :=
  let three (r : Z) :=
    [ byte_of_Z (Z.lor t3 (Z.shiftr r 12 mod 256));
      byte_of_Z (Z.lor tx (Z.land (Z.shiftr r 6 mod 256) maskx));
      byte_of_Z (Z.lor tx (Z.land (r mod 256) maskx)) ] in
  if r <=? rune1Max then [ byte_of_Z r ]
  else if r <=? rune2Max then
    [ byte_of_Z (Z.lor t2 (Z.shiftr r 6 mod 256));
      byte_of_Z (Z.lor tx (Z.land (r mod 256) maskx)) ]
  else if (MaxRune <? r) || ((surrogateMin <=? r) && (r <=? surrogateMax))
  then three RuneError
  else if r <=? rune3Max then three r
  else
    [ byte_of_Z (Z.lor t4 (Z.shiftr r 18 mod 256));
      byte_of_Z (Z.lor tx (Z.land (Z.shiftr r 12 mod 256) maskx));
      byte_of_Z (Z.lor tx (Z.land (Z.shiftr r 6 mod 256) maskx));
      byte_of_Z (Z.lor tx (Z.land (r mod 256) maskx)) ].

(** [string(runes)]. *)
Definition string_of_runes (rs : list Z) : string :=
  string_of_bytes (concat (map encoderune rs)).

(** [utf8.ValidRune]: a code point that is not a surrogate. *)
Definition ValidRune (r : Z) : bool :=
  ((0 <=? r) && (r <? surrogateMin))
  || ((surrogateMax <? r) && (r <=? MaxRune)).

(** A string is valid UTF-8 when converting it to runes and back gives
    the same bytes: every ill-formed byte would come back as the three
    bytes of U+FFFD. *)
Definition ValidString (s : string) : Prop :=
  string_of_runes (runes_of_string s) = s.
End utf8.

Module utf16.
Definition replacementChar : Z := 65533.
Definition maxRune : Z := 1114111.
Definition surr1 : Z := 55296.      (* 0xd800 *)
Definition surr2 : Z := 56320.      (* 0xdc00 *)
Definition surr3 : Z := 57344.      (* 0xe000 *)
Definition surrSelf : Z := 65536.   (* 0x10000 *)

Definition DecodeRune (r1 r2 : Z) : Z :=
  if (surr1 <=? r1) && (r1 <? surr2) && (surr2 <=? r2) && (r2 <? surr3)
  then Z.lor (Z.shiftl (r1 - surr1) 10) (r2 - surr2) + surrSelf
  else replacementChar.

Definition EncodeRune (r : Z) : Z * Z :=
  if (r <? surrSelf) || (maxRune <? r)
  then (replacementChar, replacementChar)
  else let r' := r - surrSelf in
       (surr1 + Z.land (Z.shiftr r' 10) 1023, surr2 + Z.land r' 1023).

Definition RuneLen (r : Z) : Z :=
  if ((0 <=? r) && (r <? surr1)) || ((surr3 <=? r) && (r <? surrSelf)) then 1
  else if (surrSelf <=? r) && (r <=? maxRune) then 2
  else -1.

Fixpoint Encode (s : list Z) : list Z :=
  match s with
  | [] => []
  | v :: s' =>
      if RuneLen v =? 1 then uint16 v :: Encode s'
      else if RuneLen v =? 2 then
        let '(r1, r2) := EncodeRune v in uint16 r1 :: uint16 r2 :: Encode s'
      else uint16 replacementChar :: Encode s'
  end.

(** [Decode]: [skip] is set after a surrogate pair, whose second unit the
    loop steps over ([i++] inside the body). *)
Fixpoint Decode_from (skip : bool) (s : list Z) : list Z :=
  match s with
  | [] => []
  | r :: s' =>
      if skip then Decode_from false s'
      else if (r <? surr1) || (surr3 <=? r) then r :: Decode_from false s'
      else
        match s' with
        | r2 :: _ =>
            if (surr1 <=? r) && (r <? surr2) && (surr2 <=? r2) && (r2 <? surr3)
            then DecodeRune r r2 :: Decode_from true s'
            else replacementChar :: Decode_from false s'
        | [] => replacementChar :: Decode_from false s'
        end
  end.

Definition Decode (s : list Z) : list Z := Decode_from false s.
End utf16.

(** ** encoding.go *)

(** [binary.Read(bytes.NewReader(b), binary.LittleEndian, &ints)] for
    [ints] of length [len(b)/2]. *)
Fixpoint uint16s_of_bytes (b : bytes) : list Z :=
  match b with
  | lo :: hi :: b' =>
      Z.lor (byte_to_Z lo) (Z.shiftl (byte_to_Z hi) 8) :: uint16s_of_bytes b'
  | _ => []
  end.

Definition DecodeUTF16 (b : bytes) : result string :=
  if len b =? 0 then Ok EmptyString
  else if negb (len b mod 2 =? 0) then Err (ErrOddLength (len b))
  else Ok (utf8.string_of_runes (utf16.Decode (uint16s_of_bytes b))).

(** The loop that stores [byte(r)] and [byte(r >> 8)] for every code unit. *)
Definition bytes_of_uint16s (codes : list Z) : bytes :=
  flat_map (fun r => [ byte_of_Z r; byte_of_Z (Z.shiftr r 8) ]) codes.

Definition EncodeUTF16 (s : string) : bytes :=
  bytes_of_uint16s (utf16.Encode (utf8.runes_of_string s)).

(** ** types.go: the value text *)

(** [Value.ValueString]: the error of [DecodeUTF16] is dropped, and its
    string result is then the empty string. *)
Definition ValueString (v : Value) : string :=
  match DecodeUTF16 (complement (Value_Value v)) with
  | Ok s => s
  | Err _ => EmptyString
  end.

(** [Value.Write]: the complement runs over the buffer that [v.Value]
    refers to, so the field holds the complemented bytes. *)
Definition Value_Write (v : Value) (s : string) : Value :=
  mkValue (Value_Offset v) (HaveExtra v) (complement (EncodeUTF16 s))
          (ExtraValue v).

Definition NewLabelValueWithOffset (label : string) (labelOffset : Z)
    (value : string) (valueOffset : Z) (extra : list string) : LabelValue :=
  let l := Label_Write (mkLabel labelOffset 1 []) label in
  let v := Value_Write (mkValue valueOffset false [] []) value in
  let v := match extra with
           | e0 :: _ => WriteExtra v e0
           | [] => v
           end in
  mkLabelValue l v.

Definition NewLabelValue (label value : string) (extra : list string)
    : LabelValue :=
  NewLabelValueWithOffset label 0 value 0 extra.

(** [LabelValue.String]. *)
Definition LabelValue_String (lv : LabelValue) : string :=
  (Label_ValueString (LV_Label lv) ++ " -> " ++ ValueString (LV_Value lv)
   ++ (if HaveExtra (LV_Value lv)
       then " , " ++ ExtraValueString (LV_Value lv)
       else ""))%string.

(** ** utils/utils.go *)

Module utils.

(** [Contains]. *)
Fixpoint Contains (haystack : list string) (needle : string) : bool :=
  match haystack with
  | [] => false
  | v :: haystack' =>
      if bool_decide (v = needle) then true else Contains haystack' needle
  end.

(** [StringMapKeys], on the sequence [visits] in which [for s := range m]
    visits the entries of the map: the slice is made with one slot per
    entry and filled by index. *)
Definition StringMapKeys (visits : list (string * string)) : list string :=
  (foldl (fun '(keys, i) (kv : string * string) => (<[i := kv.1]> keys, S i))
         (replicate (length visits) EmptyString, 0%nat) visits).1.

End utils.

(** A [range] over a Go map visits every entry once, in an order that is
    not specified. *)
Definition ranges (m : gmap string string) (visits : list (string * string))
    : Prop :=
  visits ≡ₚ map_to_list m.

(** ** Slices of strings

    [CSFUtil.Order] is a [[]string]. A slice is a window on a backing
    array; [append] writes into the backing array when the capacity
    allows and moves to a new array when it does not, and a slice
    expression [s[i:j]] shares the array of [s]. The arrays live in a
    store indexed by allocation order. *)

Record slice : Type := mkSlice {
  array : nat;   (* which backing array *)
  first : nat;   (* index in the array of the slice's element 0 *)
  slen : nat     (* len(s) *)
}.

Abbreviation arrays := (list (list string)) (only parsing).

Definition array_of (m : arrays) (s : slice) : list string :=
  default [] (m !! array s).

(** [cap(s)]: the array from the slice's first element to its end. *)
Definition cap (m : arrays) (s : slice) : nat :=
  length (array_of m s) - first s.

(** The elements [s[0], ..., s[len(s)-1]]. *)
Definition elems (m : arrays) (s : slice) : list string :=
  take (slen s) (drop (first s) (array_of m s)).

(** [s[i:j]], for [i <= j <= cap(s)]. *)
Definition reslice (s : slice) (i j : nat) : slice :=
  mkSlice (array s) (first s + i) (j - i).

(** [copy] into an array from index [i] on. *)
Definition overwrite (i : nat) (src a : list string) : list string :=
  take i a ++ src ++ drop (i + length src) a.

(** [[]string{}]. *)
Definition empty_slice (m : arrays) : arrays * slice :=
  (m ++ [[]], mkSlice (length m) 0 0).

(** ** strings.ToUpper, strings.Contains, strings.Index *)

Definition is_ascii (c : byte) : bool := byte_to_Z c <? 128.
Definition is_lower (c : byte) : bool :=
  (byte_to_Z "a" <=? byte_to_Z c) && (byte_to_Z c <=? byte_to_Z "z").
Definition upper_byte (c : byte) : byte :=
  if is_lower c then byte_of_Z (byte_to_Z c - (byte_to_Z "a" - byte_to_Z "A"))
  else c.

(** [strings.Index(s, ":")], with [None] for -1. *)
Fixpoint Index_colon (s : string) : option nat :=
  match s with
  | EmptyString => None
  | String c s' =>
      if Ascii.eqb c ":" then Some 0%nat else S <$> Index_colon s'
  end.

(** [strings.Contains(s, ":")]. *)
Definition Contains_colon (s : string) : bool :=
  bool_decide (is_Some (Index_colon s)).

(** ** The wire format, as the specification words it

    Section 4.1 of the specification, kept apart from the encoder and the
    decoder above so that they can be compared with it: a header of the
    file magic and five little-endian 32-bit scalars, then the records,
    each a label section followed by a value section. *)

Module Wire.

(** A 32-bit scalar, little-endian. *)
Definition uint32_le (n : Z) : bytes :=
  [ byte_of_Z n; byte_of_Z (n / 256);
    byte_of_Z (n / 65536); byte_of_Z (n / 16777216) ].

Record header : Type := mkHeader {
  version : Z;
  numLabels : Z;
  numStrings : Z;
  unused : Z;
  language : Z
}.

(** One entry on the wire: the raw name, the obfuscated UTF-16LE text,
    and the extra bytes when the value is of the "WRTS" kind. *)
Record record : Type := mkRecord {
  name : bytes;
  text : bytes;
  extra : option bytes
}.

(** The fields of a record, in the order they are laid out. *)
Definition fields (r : record) : list bytes :=
  [ bytes_of_string " LBL";
    uint32_le 1;
    uint32_le (len (name r));
    name r;
    bytes_of_string (match extra r with Some _ => "WRTS" | None => " RTS" end);
    uint32_le (len (text r) / 2);
    text r ]
  ++ match extra r with
     | Some x => [ uint32_le (len x); x ]
     | None => []
     end.

Definition record_bytes (r : record) : bytes := concat (fields r).

Definition header_bytes (h : header) : bytes :=
  bytes_of_string " FSC"
  ++ uint32_le (version h) ++ uint32_le (numLabels h)
  ++ uint32_le (numStrings h) ++ uint32_le (unused h)
  ++ uint32_le (language h).

Definition stream (h : header) (rs : list record) : bytes :=
  header_bytes h ++ flat_map record_bytes rs.

Definition fits32 (n : Z) : bool := (0 <=? n) && (n <? 2 ^ 32).

(** A payload that one read call delivers whole. *)
Definition fits_read (n : Z) : bool := n <=? maxRW.

(** The text is a whole number of UTF-16 code units, and no payload is
    longer than what one read call delivers (so that every length prefix
    fits its 32 bits). *)
Definition wf_record (r : record) : bool :=
  fits_read (len (name r))
  && (len (text r) mod 2 =? 0) && fits_read (len (text r))
  && match extra r with
     | Some x => fits_read (len x)
     | None => true
     end.

Definition wf_header (h : header) : bool :=
  fits32 (version h) && fits32 (numLabels h) && fits32 (numStrings h)
  && fits32 (unused h) && fits32 (language h).

(** What a record that starts at offset [o] is decoded to. *)
Definition decoded (o : Z) (r : record) : LabelValue :=
  mkLabelValue
    (mkLabel o 1 (name r))
    (mkValue (o + 12 + len (name r)) (bool_decide (is_Some (extra r)))
             (text r) (default [] (extra r))).

(** The records with the offsets they start at, from offset [o] on. *)
Fixpoint placed (o : Z) (rs : list record) : list (Z * record) :=
  match rs with
  | [] => []
  | r :: rs' => (o, r) :: placed (o + len (record_bytes r)) rs'
  end.

(** A stream cut short inside record [r]: its first [k] fields and a
    part [p] of the next one. *)
Definition cut (r : record) (k : nat) (p : bytes) : bytes :=
  concat (take k (fields r)) ++ p.

End Wire.

Section Model.

(** Two things of the Go library and runtime stay open: what
    [strings.ToUpper] does to a string that is not pure ASCII (it maps
    [unicode.ToUpper] over the runes), and the capacity the runtime gives
    a slice that [append] has to move. *)
Variable MapUnicodeToUpper : string -> string.
Variable growslice_cap : nat -> nat -> nat.

(** [strings.ToUpper]: ASCII strings go through the byte loop. *)
Definition ToUpper (s : string) : string :=
  let b := bytes_of_string s in
  if forallb is_ascii b then
    if negb (existsb is_lower b) then s
    else string_of_bytes (map upper_byte b)
  else MapUnicodeToUpper s.

(** [append(s, x)]. *)
Definition append1 (m : arrays) (s : slice) (x : string) : arrays * slice :=
  if (slen s <? cap m s)%nat then
    (<[array s := <[(first s + slen s)%nat := x]> (array_of m s)]> m,
     mkSlice (array s) (first s) (slen s + 1))
  else
    let need := (slen s + 1)%nat in
    let newcap := Nat.max need (growslice_cap (cap m s) need) in
    (m ++ [elems m s ++ [x] ++ replicate (newcap - need) EmptyString],
     mkSlice (length m) 0 need).

(** [append(s, t...)]: the elements of [t] are those in the array when
    the call runs; the copy behaves like [memmove]. *)
Definition appendv (m : arrays) (s t : slice) : arrays * slice :=
  let src := elems m t in
  let need := (slen s + slen t)%nat in
  if (need <=? cap m s)%nat then
    (<[array s := overwrite (first s + slen s) src (array_of m s)]> m,
     mkSlice (array s) (first s) need)
  else
    let newcap := Nat.max need (growslice_cap (cap m s) need) in
    (m ++ [elems m s ++ src ++ replicate (newcap - need) EmptyString],
     mkSlice (length m) 0 need).

(** ** csfutil.go: the table *)

Record CSFUtil : Type := mkCSFUtil {
  filename : string;
  Version : Z;
  NumLabels : Z;
  NumStrings : Z;
  Unused : Z;
  Language : Z;
  Values : gmap string LabelValue;
  Categories : gmap string (list string);
  Order : slice;
  heap : arrays   (* the backing arrays that [Order] may refer to *)
}.

(** The names in [r.Order], as [for _, s := range r.Order] sees them. *)
Definition OrderList (r : CSFUtil) : list string := elems (heap r) (Order r).

Definition set_header (r : CSFUtil) (v nl ns u l : Z) : CSFUtil :=
  mkCSFUtil (filename r) v nl ns u l (Values r) (Categories r) (Order r) (heap r).

(** [readHeader]: the fields are assigned one by one, so a failure leaves
    the earlier ones set. *)
Definition readHeader (r : CSFUtil) : file -> (CSFUtil * option error) * file :=
  fun f =>
  match checkIdentifier [CSFFileIdentifier] f with
  | (Err e, f1) => ((r, Some (ErrWrap "not a valid CSF file" e (pos f1))), f1)
  | (Ok _, f1) =>
  match readUInt f1 with
  | (Err e, f2) => ((r, Some e), f2)
  | (Ok i, f2) =>
  let r := set_header r i (NumLabels r) (NumStrings r) (Unused r) (Language r) in
  match readUInt f2 with
  | (Err e, f3) => ((r, Some e), f3)
  | (Ok i, f3) =>
  let r := set_header r (Version r) i (NumStrings r) (Unused r) (Language r) in
  match readUInt f3 with
  | (Err e, f4) => ((r, Some e), f4)
  | (Ok i, f4) =>
  let r := set_header r (Version r) (NumLabels r) i (Unused r) (Language r) in
  match readUInt f4 with
  | (Err e, f5) => ((r, Some e), f5)
  | (Ok i, f5) =>
  let r := set_header r (Version r) (NumLabels r) (NumStrings r) i (Language r) in
  match readUInt f5 with
  | (Err e, f6) => ((r, Some e), f6)
  | (Ok i, f6) =>
  let r := set_header r (Version r) (NumLabels r) (NumStrings r) (Unused r) i in
  ((r, None), f6)
  end end end end end end.

(** [readLabel]. *)
Definition readLabel : reading Label := fun f =>
  let offset := pos f in
  match checkIdentifier [LabelIdentifier] f with
  | (Err e, f1) => (Err (ErrWrap "not a valid label start" e offset), f1)
  | (Ok _, f1) =>
      (pairs <- readUInt ;;
       length <- readUInt ;;
       value <- read length ;;
       ret (mkLabel offset pairs value))%reading f1
  end.

(** [readValue]. The error of the [readUInt] that reads the length of the
    extra value is overwritten by the [read] that follows it, and
    [readUInt] has returned 0 with it. *)
Definition readValue : reading Value := fun f =>
  let offset := pos f in
  match checkIdentifier [ValueIdentifier; ValueWithExtraIdentifier] f with
  | (Err e, f1) => (Err (ErrWrap "not a valid value start" e offset), f1)
  | (Ok dword, f1) =>
      let hasExtra := bool_decide (dword = bytes_of_string "WRTS") in
      (length <- readUInt ;;
       value <- read (length * 2) ;;
       if hasExtra then
         fun f3 =>
           let '(extraLength, f4) :=
             match readUInt f3 with
             | (Ok n, f4) => (n, f4)
             | (Err _, f4) => (0, f4)
             end in
           (extraVal <- read extraLength ;;
            ret (mkValue offset hasExtra value extraVal))%reading f4
       else ret (mkValue offset hasExtra value []))%reading f1
  end.

(** The locals of [readContent]. *)
Record content : Type := mkContent {
  mapLabelValue : gmap string LabelValue;
  mapCate : gmap string (list string);
  listOrder : slice;
  mem : arrays;
  counter : Z
}.

(** The body of the loop of [readContent] after a label and its value
    have been read. *)
Definition record_entry (c : content) (label : Label) (value : Value) : content :=
  let labelName := Label_ValueString label in
  let upperLabelName := ToUpper labelName in
  let '(cate, (m, order)) :=
    match mapLabelValue c !! upperLabelName with
    | Some _ => (mapCate c, (mem c, listOrder c))
    | None =>
        let categoryName :=
          if Contains_colon upperLabelName
          then substring 0 (default 0%nat (Index_colon upperLabelName))
                         upperLabelName
          else EmptyString in
        let cate :=
          match mapCate c !! categoryName with
          | Some list => <[categoryName := list ++ [labelName]]> (mapCate c)
          | None => <[categoryName := []]> (mapCate c)
          end in
        (cate, append1 (mem c) (listOrder c) upperLabelName)
    end in
  mkContent (<[upperLabelName := mkLabelValue label value]> (mapLabelValue c))
            cate order m (counter c + 1).

(** The loop of [readContent]. Every turn that goes on has read at least
    the four bytes of a label identifier, so a budget of one turn per
    unread byte, plus one, is never used up ([readContent_loop_total]);
    [None] stands for a budget that was too small. *)
Fixpoint readContent_loop (budget : nat) (c : content) (f : file)
    : option (result content * file) :=
  match budget with
  | O => None
  | S budget' =>
      match readLabel f with
      | (Err e, f1) => if isEOF e then Some (Ok c, f1) else Some (Err e, f1)
      | (Ok label, f1) =>
          match readValue f1 with
          | (Err e, f2) => if isEOF e then Some (Ok c, f2) else Some (Err e, f2)
          | (Ok value, f2) =>
              let c' := record_entry c label value in
              if 20000 <? counter c' then Some (Err ErrTooManyStrings, f2)
              else readContent_loop budget' c' f2
          end
      end
  end.

(** [readContent]: the table is assigned only when the loop ends without
    an error. *)
Definition readContent (r : CSFUtil) (f : file)
    : option ((CSFUtil * option error) * file) :=
  let '(m, order) := empty_slice (heap r) in
  match readContent_loop (S (length (unread f)))
                         (mkContent ∅ ∅ order m 0) f with
  | None => None
  | Some (Err e, f') => Some ((r, Some e), f')
  | Some (Ok c, f') =>
      Some ((mkCSFUtil (filename r) (Version r) (NumLabels r) (NumStrings r)
                       (Unused r) (Language r)
                       (mapLabelValue c) (mapCate c) (listOrder c) (mem c),
             None), f')
  end.

(** [openAndParse] on a file that exists and holds [data]. *)
Definition openAndParse (r : CSFUtil) (data : bytes)
    : option (CSFUtil * option error) :=
  match readHeader r (mkFile data 0) with
  | ((r, Some e), _) => Some (r, Some e)
  | ((r, None), f) =>
      match readContent r f with
      | None => None
      | Some (re, _) => Some re
      end
  end.

(** [Open]: the handle is returned together with the error. The zero
    [CSFUtil] it starts from has nil maps and a nil [Order]. *)
Definition Open (name : string) (data : bytes) : option (CSFUtil * option error) :=
  openAndParse (mkCSFUtil name 0 0 0 0 0 ∅ ∅ (mkSlice 0 0 0) []) data.

Definition New (name : string) (version unused language : Z) : CSFUtil :=
  let '(m, order) := empty_slice [] in
  mkCSFUtil name version 0 0 unused language ∅ ∅ order m.

Definition LanguageName (r : CSFUtil) : string :=
  if 9 <? Language r then default EmptyString (Languages !! 10%nat)
  else default EmptyString (Languages !! Z.to_nat (Language r)).

(** The position the loop of [WriteLabelValueBefore] leaves in [pos]:
    the last index whose element is [successorUpper], [len(r.Order)] when
    there is none. *)
Fixpoint last_match (successorUpper : string) (order : list string)
    (i pos : nat) : nat :=
  match order with
  | [] => pos
  | s :: order' =>
      last_match successorUpper order' (S i)
        (if bool_decide (s = successorUpper) then i else pos)
  end.

Definition set_entries (r : CSFUtil) (values : gmap string LabelValue)
    (order : slice) (m : arrays) : CSFUtil :=
  mkCSFUtil (filename r) (Version r) (Z.of_nat (size values))
            (Z.of_nat (size values)) (Unused r) (Language r)
            values (Categories r) order m.

Definition WriteLabelValueBefore (r : CSFUtil) (lv : LabelValue)
    (overwriteLabel : bool) (successor : string) : CSFUtil :=
  let successorUpper := ToUpper successor in
  let labelNameUpper := ToUpper (Label_ValueString (LV_Label lv)) in
  match Values r !! labelNameUpper with
  | Some old =>
      (* overwrite exist, preserve original order *)
      let lv :=
        if negb overwriteLabel
        then mkLabelValue
               (Label_Write (LV_Label lv) (Label_ValueString (LV_Label old)))
               (LV_Value lv)
        else lv in
      set_entries r (<[labelNameUpper := lv]> (Values r)) (Order r) (heap r)
  | None =>
      match Values r !! successorUpper with
      | Some _ =>
          (* new in the middle *)
          let l := slen (Order r) in
          let pos := last_match successorUpper (OrderList r) 0 l in
          let '(m1, head) :=
            append1 (heap r) (reslice (Order r) 0 pos) labelNameUpper in
          let '(m2, order) := appendv m1 head (reslice (Order r) pos l) in
          set_entries r (<[labelNameUpper := lv]> (Values r)) order m2
      | None =>
          (* new at the end *)
          let '(m1, order) := append1 (heap r) (Order r) labelNameUpper in
          set_entries r (<[labelNameUpper := lv]> (Values r)) order m1
      end
  end.

Definition WriteLabelValue (r : CSFUtil) (lv : LabelValue)
    (overwriteLabel : bool) : CSFUtil :=
  WriteLabelValueBefore r lv overwriteLabel EmptyString.

(** The index at which the loop of [RemoveLabelValue] breaks. *)
Fixpoint first_match (upperName : string) (order : list string) (i : nat)
    : option nat :=
  match order with
  | [] => None
  | s :: order' =>
      if bool_decide (s = upperName) then Some i
      else first_match upperName order' (S i)
  end.

Definition RemoveLabelValue (r : CSFUtil) (name : string) : CSFUtil :=
  if (slen (Order r) =? 0)%nat then r
  else
    let upperName := ToUpper name in
    let values := delete upperName (Values r) in
    match first_match upperName (OrderList r) 0 with
    | Some i =>
        if (1 <? slen (Order r))%nat then
          let '(m1, order) :=
            appendv (heap r) (reslice (Order r) 0 i)
                    (reslice (Order r) (i + 1) (slen (Order r))) in
          set_entries r values order m1
        else
          let '(m1, order) := empty_slice (heap r) in
          set_entries r values order m1
    | None => set_entries r values (Order r) (heap r)
    end.

(** [Save]: the bytes handed to [f.Write]. An absent key reads as the
    zero [LabelValue]. *)
Definition Save_bytes (r : CSFUtil) : bytes :=
  bytes_of_string CSFFileIdentifier
  ++ PutUint32 (uint32 (Version r))
  ++ PutUint32 (uint32 (NumLabels r))
  ++ PutUint32 (uint32 (NumStrings r))
  ++ PutUint32 (uint32 (Unused r))
  ++ PutUint32 (uint32 (Language r))
  ++ flat_map (fun s => LabelValue_Bytes (default zeroLabelValue (Values r !! s)))
              (OrderList r).

(** ** cmd/main.go: merge *)

(** The error that [merge] builds with [fmt.Errorf] and the format
    "%s: %w": the name of the file that did not open, and the cause. *)
Inductive merge_error : Type :=
| MergeOpen (file : string) (cause : error).

(** The loop [for _, s := range dstFile.Order] of [merge]. The slice is
    evaluated once, before the first turn; the element of turn [i] is read
    from its backing array when the turn starts, as the turns before have
    left the array. *)
Fixpoint merge_range (order : slice) (srcFile : CSFUtil) (todo i : nat)
    (dstFile : CSFUtil) : CSFUtil :=
  match todo with
  | O => dstFile
  | S todo' =>
      let s := default EmptyString (elems (heap dstFile) order !! i) in
      let dstFile :=
        match Values srcFile !! s with
        | Some v => WriteLabelValue dstFile v false
        | None => dstFile
        end in
      merge_range order srcFile todo' (S i) dstFile
  end.

(** [merge] on two files that exist and hold [srcData] and [dstData]:
    the error, or the bytes that [Save] writes to the destination. *)
Definition merge (src dst : string) (srcData dstData : bytes)
    : option (merge_error + bytes) :=
  match Open src srcData with
  | None => None
  | Some (_, Some err) => Some (inl (MergeOpen src err))
  | Some (srcFile, None) =>
      match Open dst dstData with
      | None => None
      | Some (_, Some err) => Some (inl (MergeOpen dst err))
      | Some (dstFile, None) =>
          Some (inr (Save_bytes
                       (merge_range (Order dstFile) srcFile
                                    (slen (Order dstFile)) 0 dstFile)))
      end
  end.

(** ** ImportExcel *)

Inductive import_error : Type :=
| ImportOpen (cause : error)          (* the error of [Open], as it is *)
| ErrNoData                           (* "no data to read" *)
| ErrColumnCount (got : Z) (row : Z). (* "wrong column count" *)

(** The loop [for i, row := range rows] of [ImportExcel]. *)
Fixpoint import_rows (i : Z) (rows : list (list string)) (csf : CSFUtil)
    : import_error + CSFUtil :=
  match rows with
  | [] => inr csf
  | row :: rows' =>
      match row with
      | [a] =>
          import_rows (i + 1) rows'
            (WriteLabelValue csf (NewLabelValue a EmptyString []) false)
      | [a; b] =>
          import_rows (i + 1) rows'
            (WriteLabelValue csf (NewLabelValue a b []) false)
      | [a; b; c] =>
          import_rows (i + 1) rows'
            (WriteLabelValue csf (NewLabelValue a b [c]) false)
      | _ => inl (ErrColumnCount (len row) i)
      end
  end.

(** [ImportExcel] on a spreadsheet whose first sheet [GetRows] returns as
    [rows], and a file [output] that exists and holds [data]: the error,
    or the bytes that [Save] writes to [output]. *)
Definition ImportExcel (rows : list (list string)) (output : string)
    (data : bytes) : option (import_error + bytes) :=
  match Open output data with
  | None => None
  | Some (_, Some err) => Some (inl (ImportOpen err))
  | Some (csf, None) =>
      if len rows <? 1 then Some (inl ErrNoData)
      else
        match import_rows 0 rows csf with
        | inl e => Some (inl e)
        | inr csf => Some (inr (Save_bytes csf))
        end
  end.

(** ** What decoding a sequence of records amounts to *)

(** The key a record is stored under. *)
Definition key (r : Wire.record) : string :=
  ToUpper (string_of_bytes (Wire.name r)).

(** One turn of the loop of [readContent], on a record read at an offset. *)
Definition decode_step (c : content) (p : Z * Wire.record) : content :=
  record_entry c (LV_Label (Wire.decoded p.1 p.2))
                 (LV_Value (Wire.decoded p.1 p.2)).

(** Names in the order of their first appearance. *)
Definition first_seen (acc ks : list string) : list string :=
  foldl (fun acc k => if bool_decide (k ∈ acc) then acc else acc ++ [k]) acc ks.

(** For every key, the entry of the last record that has it. *)
Definition last_wins (m : gmap string LabelValue) (prs : list (Z * Wire.record))
    : gmap string LabelValue :=
  foldl (fun m p => <[key p.2 := Wire.decoded p.1 p.2]> m) m prs.

(** The locals of [readContent] after the loop has taken in the records
    [rs], the first of which starts right after the header. *)
Definition decode_records (rs : list Wire.record) : content :=
  foldl decode_step (mkContent ∅ ∅ (mkSlice 0 0 0) [[]] 0) (Wire.placed 24 rs).

(** The table that [Open] returns for a header and these locals. *)
Definition table_of (name : string) (h : Wire.header) (c : content) : CSFUtil :=
  mkCSFUtil name (Wire.version h) (Wire.numLabels h) (Wire.numStrings h)
            (Wire.unused h) (Wire.language h)
            (mapLabelValue c) (mapCate c) (listOrder c) (mem c).

(** Reading moves the file forward: what was unread before is what was
    passed over followed by what is unread now. *)
Definition advance (f f' : file) : Prop :=
  exists got, unread f = got ++ unread f' /\ offset f' = offset f + len got.

(** A reading only moves forward. *)
Definition advancing {A} (m : reading A) : Prop :=
  forall f, advance f (m f).2.

(** An error that is neither a wrapping nor a wrong identifier, and the
    readings that fail with such errors only. *)
Definition plain_error (e : error) : bool :=
  match e with
  | ErrWrap _ _ _ | ErrIdentifier _ _ => false
  | _ => true
  end.

Definition plain_errors {A} (m : reading A) : Prop :=
  forall f e f', m f = (Err e, f') -> plain_error e = true.

(** The error of a read that finds [p], fewer bytes than it asked for. *)
Definition short_dword (p : bytes) : error :=
  if bool_decide (p = []) then EOF else ErrNotDword.



(** A slice lies within its backing array. *)
Definition slice_ok (m : arrays) (s : slice) : Prop :=
  (array s < length m)%nat /\ (first s + slen s <= length (array_of m s))%nat.

(** The order slice of the loop is in range and lists the keys of the map. *)
Definition content_ok (c : content) : Prop :=
  slice_ok (mem c) (listOrder c)
  /\ (forall k, k ∈ elems (mem c) (listOrder c) <-> is_Some (mapLabelValue c !! k)).

(** The invariant of the entry store: [Order] lists every key of [Values]
    once. *)
Definition store_ok (r : CSFUtil) : Prop :=
  slice_ok (heap r) (Order r)
  /\ NoDup (OrderList r)
  /\ (forall k, k ∈ OrderList r <-> is_Some (Values r !! k)).

(** Every entry is stored under the upper-cased form of its own label
    name. *)
Definition keyed (values : gmap string LabelValue) : Prop :=
  forall k lv,
    values !! k = Some lv -> k = ToUpper (Label_ValueString (LV_Label lv)).

(** The invariant of the loop of [readContent]. *)
Definition loop_inv (c : content) : Prop :=
  content_ok c
  /\ NoDup (elems (mem c) (listOrder c))
  /\ keyed (mapLabelValue c)
  /\ Z.of_nat (size (mapLabelValue c)) <= counter c.

(** The category a key belongs to: what is before its first colon, the
    empty string when it has none. *)
Definition category_of (upperLabelName : string) : string :=
  if Contains_colon upperLabelName
  then substring 0 (default 0%nat (Index_colon upperLabelName)) upperLabelName
  else EmptyString.

(** The records that are the first of their key. *)
Definition firsts (rs : list Wire.record) : list Wire.record :=
  foldl (fun acc r => if bool_decide (key r ∈ map key acc) then acc
                      else acc ++ [r]) [] rs.

(** What [merge] stores for a key of the destination: the value and the
    label record of the source with the label name of the destination,
    when the source has the key. *)
Definition merged_entry (srcValues : gmap string LabelValue) (k : string)
    (d : LabelValue) : LabelValue :=
  match srcValues !! k with
  | Some v =>
      mkLabelValue (Label_Write (LV_Label v) (Label_ValueString (LV_Label d)))
                   (LV_Value v)
  | None => d
  end.

(** The key and the entry that a row of a spreadsheet is written as. *)
Definition row_entry (row : list string) : LabelValue :=
  match row with
  | [a] => NewLabelValue a EmptyString []
  | [a; b] => NewLabelValue a b []
  | [a; b; c] => NewLabelValue a b [c]
  | _ => zeroLabelValue
  end.

Definition row_key (row : list string) : string :=
  ToUpper (Label_ValueString (LV_Label (row_entry row))).

(** The rows that the loop of [ImportExcel] takes: one to three columns. *)
Definition columns_ok (row : list string) : bool :=
  (1 <=? len row) && (len row <=? 3).

(** The table after the rows have been written, one after the other. *)
Definition rows_written (csf : CSFUtil) (rows : list (list string)) : CSFUtil :=
  foldl (fun csf row => WriteLabelValue csf (row_entry row) false) csf rows.

(** The label section and the value section of a record. *)
Definition label_section (r : Wire.record) : bytes :=
  concat (take 4 (Wire.fields r)).
Definition value_section (r : Wire.record) : bytes :=
  concat (drop 4 (Wire.fields r)).

End Model.

(** The record that an entry is written as. *)
Definition record_of_entry (lv : LabelValue) : Wire.record :=
  Wire.mkRecord (Label_Value (LV_Label lv)) (Value_Value (LV_Value lv))
                (if HaveExtra (LV_Value lv)
                 then Some (ExtraValue (LV_Value lv)) else None).

(** The header that a table is written with. *)
Definition header_of (r : CSFUtil) : Wire.header :=
  Wire.mkHeader (Version r) (NumLabels r) (NumStrings r) (Unused r)
                (Language r).

(** ** Concrete choices for the open parts of the model

    The scenarios below use label names of ASCII letters only, on which
    [ToUpper] never reaches [MapUnicodeToUpper]; and no result depends on
    the capacities that [growslice_cap] proposes. *)

Definition no_unicode (s : string) : string := s.
Definition double_cap (old need : nat) : nat := (2 * need)%nat.

(** The minimal table of the specification's scenario: a new table of
    version 3, language 0, with the single entry "TXT:Greeting" -> "Hello!",
    and the bytes [Save] writes for it. *)
Definition greeting_table : CSFUtil :=
  WriteLabelValue no_unicode double_cap (New "greeting.csf" 3 0 0)
    (NewLabelValue "TXT:Greeting" "Hello!" []) false.

Definition greeting_bytes : bytes := Save_bytes greeting_table.

(** A table with the entries "TXT:A" and "TXT:C", in this order. *)
Definition table_AC : CSFUtil :=
  WriteLabelValue no_unicode double_cap
    (WriteLabelValue no_unicode double_cap (New "ac.csf" 3 0 0)
       (NewLabelValue "TXT:A" "first" []) false)
    (NewLabelValue "TXT:C" "third" []) false.

(** Records and a header for the scenarios on streams. *)
Definition header3 : Wire.header := Wire.mkHeader 3 2 2 0 0.

Definition record_of (label value : string) (extra : option string)
    : Wire.record :=
  Wire.mkRecord (bytes_of_string label) (complement (EncodeUTF16 value))
                (bytes_of_string <$> extra).

Definition rec_greeting : Wire.record := record_of "TXT:Greeting" "Hello!" None.
Definition rec_bye : Wire.record := record_of "TXT:Bye" "Bye!" (Some "bye01").
Definition rec_foo_1 : Wire.record := record_of "TXT:Foo" "one" None.
Definition rec_foo_2 : Wire.record := record_of "TXT:Foo" "two" None.

(** The name of [rec_foo_1] in another spelling. *)
Definition rec_foo_3 : Wire.record := record_of "txt:FOO" "three" None.



(** A string of the single byte 0xFF, which is not valid UTF-8. *)
Definition byte_ff : string := String (ascii_of_N 255) EmptyString.

(** * Properties *)

(** ** Bytes and integers *)

Lemma byte_to_Z_range (b : byte) : 0 <= byte_to_Z b < 256.
Proof.
  unfold byte_to_Z. pose proof (N_ascii_bounded b). lia.
Qed.

Lemma byte_to_of_Z (z : Z) : byte_to_Z (byte_of_Z z) = z mod 256.
Proof.
  unfold byte_to_Z, byte_of_Z.
  pose proof (Z.mod_pos_bound z 256 ltac:(lia)).
  rewrite N_ascii_embedding by lia. lia.
Qed.

Lemma byte_of_to_Z (b : byte) : byte_of_Z (byte_to_Z b) = b.
Proof.
  unfold byte_of_Z. pose proof (byte_to_Z_range b).
  rewrite Z.mod_small by lia. unfold byte_to_Z.
  rewrite N2Z.id. apply ascii_N_embedding.
Qed.

Lemma testbit_high (x n i : Z) :
  0 <= x < 2 ^ n -> n <= i -> Z.testbit x i = false.
Proof.
  intros Hx Hi. destruct (Z.eq_dec x 0) as [->|Hne].
  - apply Z.bits_0.
  - apply Z.bits_above_log2; [lia|].
    assert (0 <= n) by (destruct (Z.le_gt_cases 0 n); [done|];
                        rewrite Z.pow_neg_r in Hx by lia; lia).
    enough (Z.log2 x < n) by lia. apply Z.log2_lt_pow2; lia.
Qed.

Lemma fits32_spec (n : Z) : Wire.fits32 n = true <-> 0 <= n < 2 ^ 32.
Proof. unfold Wire.fits32. lia. Qed.

Lemma uint32_le_length (n : Z) : length (Wire.uint32_le n) = 4%nat.
Proof. reflexivity. Qed.

Lemma uint32_le_len (n : Z) : len (Wire.uint32_le n) = 4.
Proof. reflexivity. Qed.

Lemma Uint32_uint32_le (n : Z) :
  0 <= n < 2 ^ 32 -> Uint32 (Wire.uint32_le n) = n.
Proof.
  intros Hn. unfold Uint32, Wire.uint32_le. rewrite !byte_to_of_Z.
  change 256 with (2 ^ 8). change 65536 with (2 ^ 16).
  change 16777216 with (2 ^ 24).
  Z.bitblast. symmetry. apply (testbit_high n 32); lia.
Qed.

Lemma PutUint32_uint32_le (n : Z) :
  0 <= n < 2 ^ 32 -> PutUint32 (uint32 n) = Wire.uint32_le n.
Proof.
  intros Hn. unfold PutUint32, uint32, Wire.uint32_le.
  rewrite Z.mod_small by lia. rewrite !Z.shiftr_div_pow2 by lia.
  reflexivity.
Qed.

Lemma not_byte_involutive (b : byte) : not_byte (not_byte b) = b.
Proof. destruct b; simpl; by rewrite !negb_involutive. Qed.

Lemma complement_involutive (b : bytes) : complement (complement b) = b.
Proof.
  unfold complement. induction b as [|c b IH]; simpl; [done|].
  by rewrite not_byte_involutive, IH.
Qed.

Lemma complement_length (b : bytes) : length (complement b) = length b.
Proof. unfold complement. apply length_map. Qed.

Lemma string_bytes_string (s : string) :
  string_of_bytes (bytes_of_string s) = s.
Proof. apply string_of_list_ascii_of_string. Qed.

Lemma bytes_string_bytes (b : bytes) :
  bytes_of_string (string_of_bytes b) = b.
Proof. apply list_ascii_of_string_of_list_ascii. Qed.

(** ** Reading from the file *)

Lemma len_app {A} (a b : list A) : len (a ++ b) = len a + len b.
Proof. unfold len. rewrite length_app. lia. Qed.

Lemma len_nonneg {A} (a : list A) : 0 <= len a.
Proof. unfold len. lia. Qed.

Lemma bind_ok {A B} (m : reading A) (k : A -> reading B) f a f' :
  m f = (Ok a, f') -> bind m k f = k a f'.
Proof. unfold bind. by intros ->. Qed.

Lemma bind_err {A B} (m : reading A) (k : A -> reading B) f e f' :
  m f = (Err e, f') -> bind m k f = (Err e, f').
Proof. unfold bind. by intros ->. Qed.

Lemma fileRead_app (a tail : bytes) (o : Z) :
  a <> [] -> len a <= 2 ^ 30 ->
  fileRead (len a) (mkFile (a ++ tail) o)
  = ((a, None), mkFile tail (o + len a)).
Proof.
  intros Ha Hm. destruct a as [|c a]; [done|].
  unfold fileRead, maxRW.
  destruct (Z.eqb_spec (len (c :: a)) 0) as [E|_]; [unfold len in E; simpl in E; lia|].
  cbn [unread offset app]. rewrite Z.min_l by lia.
  change (c :: a ++ tail) with ((c :: a) ++ tail).
  replace (Z.to_nat (len (c :: a))) with (length (c :: a))
    by (unfold len; lia).
  rewrite take_app_length, drop_app_length. reflexivity.
Qed.

Lemma read_app (a tail : bytes) (o : Z) :
  len a <= 2 ^ 30 ->
  read (len a) (mkFile (a ++ tail) o) = (Ok a, mkFile tail (o + len a)).
Proof.
  intros Hm. unfold read.
  destruct (decide (a = [])) as [->|Ha].
  - cbn. by rewrite Z.add_0_r.
  - rewrite fileRead_app by done. by rewrite Z.eqb_refl.
Qed.



Lemma readDWORD_app (a tail : bytes) (o : Z) :
  length a = 4%nat ->
  readDWORD (mkFile (a ++ tail) o) = (Ok a, mkFile tail (o + 4)).
Proof.
  intros Ha. unfold readDWORD.
  assert (Hl : len a = 4) by (unfold len; lia). rewrite <- Hl at 1.
  rewrite fileRead_app; [|by destruct a|lia].
  rewrite Hl. reflexivity.
Qed.

Lemma readDWORD_eof (o : Z) :
  readDWORD (mkFile [] o) = (Err EOF, mkFile [] o).
Proof. reflexivity. Qed.

Lemma readDWORD_short (p : bytes) (o : Z) :
  p <> [] -> (length p < 4)%nat ->
  readDWORD (mkFile p o) = (Err ErrNotDword, mkFile [] (o + len p)).
Proof.
  intros Hp Hn. unfold readDWORD, fileRead, maxRW.
  destruct p as [|c p]; [done|]. cbn [unread offset Z.eqb].
  change (Z.to_nat (Z.min 4 (2 ^ 30))) with 4%nat.
  rewrite take_ge, drop_ge by lia.
  destruct (Z.eqb_spec (len (c :: p)) 4) as [Heq|_]; [unfold len in Heq; lia|].
  reflexivity.
Qed.

Lemma readUInt_app (n : Z) (tail : bytes) (o : Z) :
  0 <= n < 2 ^ 32 ->
  readUInt (mkFile (Wire.uint32_le n ++ tail) o) = (Ok n, mkFile tail (o + 4)).
Proof.
  intros Hn. unfold readUInt.
  erewrite bind_ok by (by apply readDWORD_app).
  unfold ret. by rewrite Uint32_uint32_le.
Qed.

Lemma readUInt_eof (o : Z) : readUInt (mkFile [] o) = (Err EOF, mkFile [] o).
Proof. reflexivity. Qed.

Lemma readUInt_short (p : bytes) (o : Z) :
  p <> [] -> (length p < 4)%nat ->
  readUInt (mkFile p o) = (Err ErrNotDword, mkFile [] (o + len p)).
Proof.
  intros Hp Hn. unfold readUInt.
  erewrite bind_err by (by apply readDWORD_short). reflexivity.
Qed.

Lemma bytes_of_string_length (s : string) :
  length (bytes_of_string s) = String.length s.
Proof. induction s as [|c s IH]; simpl; [done|]. by rewrite IH. Qed.

Lemma checkIdentifier_app (ids : list string) (id : string) (tail : bytes) (o : Z) :
  String.length id = 4%nat -> id ∈ ids ->
  checkIdentifier ids (mkFile (bytes_of_string id ++ tail) o)
  = (Ok (bytes_of_string id), mkFile tail (o + 4)).
Proof.
  intros Hlen Hin. unfold checkIdentifier.
  erewrite bind_ok; cycle 1.
  { apply readDWORD_app. by rewrite bytes_of_string_length. }
  destruct (existsb _ ids) eqn:E; [done|].
  exfalso. apply not_true_iff_false in E. apply E.
  apply existsb_exists. exists id. split.
  - by apply list_elem_of_In.
  - by apply bool_decide_eq_true.
Qed.

Lemma checkIdentifier_eof (ids : list string) (o : Z) :
  checkIdentifier ids (mkFile [] o) = (Err EOF, mkFile [] o).
Proof. reflexivity. Qed.

Lemma checkIdentifier_short (ids : list string) (p : bytes) (o : Z) :
  p <> [] -> (length p < 4)%nat ->
  checkIdentifier ids (mkFile p o) = (Err ErrNotDword, mkFile [] (o + len p)).
Proof.
  intros Hp Hn. unfold checkIdentifier.
  erewrite bind_err by (by apply readDWORD_short). reflexivity.
Qed.

(** ** Reading one well-formed record *)

Lemma fits_read_spec (n : Z) : Wire.fits_read n = true <-> n <= 2 ^ 30.
Proof. unfold Wire.fits_read, maxRW. apply Z.leb_le. Qed.

Lemma wf_record_spec (r : Wire.record) :
  Wire.wf_record r = true ->
  0 <= len (Wire.name r) <= 2 ^ 30
  /\ len (Wire.text r) / 2 * 2 = len (Wire.text r)
  /\ (0 <= len (Wire.text r) / 2 < 2 ^ 32 /\ len (Wire.text r) <= 2 ^ 30)
  /\ (forall x, Wire.extra r = Some x -> 0 <= len x <= 2 ^ 30).
Proof.
  unfold Wire.wf_record. rewrite !andb_true_iff, !fits_read_spec.
  intros [[[Hn Hm] Ht] Hx].
  pose proof (len_nonneg (Wire.name r)). pose proof (len_nonneg (Wire.text r)).
  apply Z.eqb_eq in Hm.
  pose proof (Z.div_mod (len (Wire.text r)) 2 ltac:(lia)).
  split; [lia|]. split; [lia|]. split; [lia|].
  intros x Ex. rewrite Ex in Hx. apply fits_read_spec in Hx.
  pose proof (len_nonneg x). lia.
Qed.

Lemma record_bytes_sections (r : Wire.record) :
  Wire.record_bytes r = label_section r ++ value_section r.
Proof.
  unfold Wire.record_bytes, label_section, value_section.
  by rewrite <- concat_app, take_drop.
Qed.

Lemma label_section_len (r : Wire.record) :
  len (label_section r) = 12 + len (Wire.name r).
Proof.
  unfold label_section, Wire.fields. cbn [take app concat].
  rewrite app_nil_r, !len_app, !uint32_le_len.
  unfold len at 1. rewrite bytes_of_string_length. cbn [String.length]. lia.
Qed.

Lemma value_section_len (r : Wire.record) :
  len (value_section r)
  = 8 + len (Wire.text r)
    + match Wire.extra r with Some x => 4 + len x | None => 0 end.
Proof.
  unfold value_section, Wire.fields. cbn [drop app concat].
  destruct (Wire.extra r) as [x|]; cbn [app concat];
    rewrite app_nil_r, !len_app, !uint32_le_len;
    unfold len at 1; rewrite bytes_of_string_length;
    cbn [String.length]; lia.
Qed.

Lemma record_bytes_len (r : Wire.record) :
  len (Wire.record_bytes r)
  = 20 + len (Wire.name r) + len (Wire.text r)
    + match Wire.extra r with Some x => 4 + len x | None => 0 end.
Proof.
  rewrite record_bytes_sections, len_app, label_section_len, value_section_len.
  lia.
Qed.

Lemma readLabel_ok (r : Wire.record) (tail : bytes) (o : Z) :
  Wire.wf_record r = true ->
  readLabel (mkFile (label_section r ++ tail) o)
  = (Ok (mkLabel o 1 (Wire.name r)), mkFile tail (o + 12 + len (Wire.name r))).
Proof.
  intros Hwf. destruct (wf_record_spec r Hwf) as (Hn & _).
  unfold label_section, Wire.fields. cbn [take app concat].
  rewrite app_nil_r, <- !app_assoc.
  unfold readLabel. cbn [offset].
  rewrite (checkIdentifier_app [LabelIdentifier] " LBL")
    by (done || apply list_elem_of_here).
  erewrite bind_ok by (apply readUInt_app; lia).
  erewrite bind_ok by (apply readUInt_app; lia).
  erewrite bind_ok by (apply read_app; lia).
  unfold ret. do 2 f_equal. lia.
Qed.

Lemma readValue_ok (r : Wire.record) (tail : bytes) (o : Z) :
  Wire.wf_record r = true ->
  readValue (mkFile (value_section r ++ tail) o)
  = (Ok (mkValue o (bool_decide (is_Some (Wire.extra r))) (Wire.text r)
                 (default [] (Wire.extra r))),
     mkFile tail (o + len (value_section r))).
Proof.
  intros Hwf. destruct (wf_record_spec r Hwf) as (_ & Hev & Ht & Hx).
  rewrite value_section_len.
  unfold value_section, Wire.fields. cbn [drop app concat].
  unfold readValue. cbn [offset].
  destruct (Wire.extra r) as [x|] eqn:Ex; cbn [app concat];
    rewrite ?app_nil_r, <- !app_assoc.
  - rewrite (checkIdentifier_app [ValueIdentifier; ValueWithExtraIdentifier] "WRTS")
      by (done || apply list_elem_of_further, list_elem_of_here).
    rewrite bool_decide_eq_true_2 by done.
    erewrite bind_ok by (apply readUInt_app; lia).
    rewrite Hev. erewrite bind_ok by (apply read_app; lia).
    pose proof (Hx x eq_refl).
    rewrite readUInt_app by lia.
    erewrite bind_ok by (apply read_app; lia).
    unfold ret. rewrite bool_decide_eq_true_2 by eauto.
    do 2 f_equal. lia.
  - rewrite (checkIdentifier_app [ValueIdentifier; ValueWithExtraIdentifier] " RTS")
      by (done || apply list_elem_of_here).
    rewrite bool_decide_eq_false_2 by done.
    erewrite bind_ok by (apply readUInt_app; lia).
    rewrite Hev. erewrite bind_ok by (apply read_app; lia).
    unfold ret. rewrite bool_decide_eq_false_2 by (by intros [? ?]).
    do 2 f_equal. lia.
Qed.

(** ** Slices *)

Lemma elems_length (m : arrays) (s : slice) :
  slice_ok m s -> length (elems m s) = slen s.
Proof.
  intros [_ H]. unfold elems. rewrite length_take, length_drop. lia.
Qed.

Lemma array_of_insert (m : arrays) (i f n : nat) (a : list string) :
  (i < length m)%nat -> array_of (<[i := a]> m) (mkSlice i f n) = a.
Proof.
  intros H. unfold array_of. cbn [array]. by rewrite list_lookup_insert_eq.
Qed.

Lemma array_of_new (m : arrays) (a : list string) (i n : nat) :
  array_of (m ++ [a]) (mkSlice (length m) i n) = a.
Proof.
  unfold array_of. cbn [array]. by rewrite list_lookup_middle.
Qed.

Lemma elems_new (m : arrays) (l pad : list string) :
  elems (m ++ [l ++ pad]) (mkSlice (length m) 0 (length l)) = l.
Proof.
  unfold elems. rewrite array_of_new. cbn [first slen].
  by rewrite drop_0, take_app_length.
Qed.

Lemma slice_ok_new (m : arrays) (l pad : list string) :
  slice_ok (m ++ [l ++ pad]) (mkSlice (length m) 0 (length l)).
Proof.
  split; cbn [array first slen].
  - rewrite length_app. cbn. lia.
  - rewrite array_of_new, length_app. lia.
Qed.

Lemma empty_slice_ok (m : arrays) :
  slice_ok (empty_slice m).1 (empty_slice m).2
  /\ elems (empty_slice m).1 (empty_slice m).2 = [].
Proof.
  unfold empty_slice. cbn [fst snd]. split.
  - apply (slice_ok_new m [] []).
  - apply (elems_new m [] []).
Qed.

Lemma overwrite_at_end (i : nat) (src a : list string) :
  (i <= length a)%nat ->
  take (i + length src) (overwrite i src a) = take i a ++ src.
Proof.
  intros Hi. unfold overwrite.
  rewrite app_assoc.
  replace (i + length src)%nat with (length (take i a ++ src))
    by (rewrite length_app, length_take; lia).
  by rewrite take_app_length.
Qed.

Lemma overwrite_length (i : nat) (src a : list string) :
  (i + length src <= length a)%nat ->
  length (overwrite i src a) = length a.
Proof.
  intros Hi. unfold overwrite.
  rewrite !length_app, length_take, length_drop. lia.
Qed.

Section Slices.

Variable growslice_cap : nat -> nat -> nat.

Local Abbreviation append1 := (append1 growslice_cap).
Local Abbreviation appendv := (appendv growslice_cap).

(** [append(s, x)] gives the elements of [s] followed by [x], whether it
    writes in place or moves. *)
Lemma append1_spec (m : arrays) (s : slice) (x : string) :
  slice_ok m s ->
  slice_ok (append1 m s x).1 (append1 m s x).2
  /\ elems (append1 m s x).1 (append1 m s x).2 = elems m s ++ [x].
Proof.
  intros [Ha Hl]. unfold append1, cap.
  destruct (Nat.ltb_spec (slen s) (length (array_of m s) - first s)) as [Hc|Hc];
    cbn [fst snd].
  - split.
    + split; cbn [array first slen].
      * by rewrite length_insert.
      * rewrite array_of_insert by done.
        rewrite length_insert. lia.
    + unfold elems. rewrite array_of_insert by done. cbn [array first slen].
      rewrite Nat.add_1_r.
      erewrite take_S_r; cycle 1.
      { rewrite lookup_drop. apply list_lookup_insert_eq. lia. }
      f_equal. rewrite drop_insert_ge by lia.
      apply take_insert_ge. lia.
  - pose proof (elems_length m s (conj Ha Hl)) as Hlen.
    set (pad := replicate _ _).
    replace (slen s + 1)%nat with (length (elems m s ++ [x]))
      by (rewrite length_app, Hlen; cbn; lia).
    rewrite (app_assoc (elems m s) [x] pad).
    split; [apply slice_ok_new | apply elems_new].
Qed.

(** [append(s, t...)] gives the elements of [s] followed by those that
    [t] had when the call was made. *)
Lemma appendv_spec (m : arrays) (s t : slice) :
  slice_ok m s -> slice_ok m t ->
  slice_ok (appendv m s t).1 (appendv m s t).2
  /\ elems (appendv m s t).1 (appendv m s t).2 = elems m s ++ elems m t.
Proof.
  intros [Ha Hl] Ht. pose proof (elems_length m t Ht) as Htl.
  pose proof (elems_length m s (conj Ha Hl)) as Hsl.
  unfold appendv, cap.
  destruct (Nat.leb_spec (slen s + slen t) (length (array_of m s) - first s))
    as [Hc|Hc]; cbn [fst snd].
  - split.
    + split; cbn [array first slen].
      * by rewrite length_insert.
      * rewrite array_of_insert by done.
        rewrite overwrite_length by lia. lia.
    + unfold elems at 1. rewrite array_of_insert by done.
      cbn [array first slen].
      rewrite <- Htl at 1.
      rewrite take_drop_commute.
      replace (first s + (slen s + length (elems m t)))%nat
        with ((first s + slen s) + length (elems m t))%nat by lia.
      rewrite overwrite_at_end by lia.
      rewrite drop_app_le by (rewrite length_take; lia).
      f_equal. unfold elems. by rewrite take_drop_commute.
  - set (pad := replicate _ _).
    replace (slen s + slen t)%nat with (length (elems m s ++ elems m t))
      by (rewrite length_app; lia).
    rewrite (app_assoc (elems m s) (elems m t) pad).
    split; [apply slice_ok_new | apply elems_new].
Qed.

End Slices.

(** ** The decoding loop on a sequence of records *)

Section Decoding.

Variable MapUnicodeToUpper : string -> string.
Variable growslice_cap : nat -> nat -> nat.

Local Abbreviation ToUpper := (ToUpper MapUnicodeToUpper).
Local Abbreviation key := (key MapUnicodeToUpper).
Local Abbreviation record_entry := (record_entry MapUnicodeToUpper growslice_cap).
Local Abbreviation decode_step := (decode_step MapUnicodeToUpper growslice_cap).
Local Abbreviation last_wins := (last_wins MapUnicodeToUpper).
Local Abbreviation readContent_loop :=
  (readContent_loop MapUnicodeToUpper growslice_cap).
Local Abbreviation readContent := (readContent MapUnicodeToUpper growslice_cap).
Local Abbreviation Open := (Open MapUnicodeToUpper growslice_cap).
Local Abbreviation decode_records :=
  (decode_records MapUnicodeToUpper growslice_cap).

Lemma keys_insert_old (l : list string) (m : gmap string LabelValue) k v :
  (forall k0, k0 ∈ l <-> is_Some (m !! k0)) -> k ∈ l ->
  forall k0, k0 ∈ l <-> is_Some (<[k := v]> m !! k0).
Proof.
  intros Hk Hin k0. rewrite lookup_insert_is_Some', <- Hk.
  split; [by right | intros [<-|?]; done].
Qed.

Lemma keys_insert_new (l : list string) (m : gmap string LabelValue) k v :
  (forall k0, k0 ∈ l <-> is_Some (m !! k0)) ->
  forall k0, k0 ∈ l ++ [k] <-> is_Some (<[k := v]> m !! k0).
Proof.
  intros Hk k0.
  rewrite lookup_insert_is_Some', <- Hk, elem_of_app, list_elem_of_singleton.
  split; intros [?|?]; auto.
Qed.

Lemma record_entry_spec (c : content) (label : Label) (value : Value) :
  content_ok c ->
  let k := ToUpper (Label_ValueString label) in
  let c' := record_entry c label value in
  content_ok c'
  /\ mapLabelValue c' = <[k := mkLabelValue label value]> (mapLabelValue c)
  /\ elems (mem c') (listOrder c')
     = (if bool_decide (k ∈ elems (mem c) (listOrder c))
        then elems (mem c) (listOrder c)
        else elems (mem c) (listOrder c) ++ [k])
  /\ counter c' = counter c + 1.
Proof.
  intros [Hs Hk] k c'. subst c'. unfold record_entry. fold k.
  destruct (mapLabelValue c !! k) as [old|] eqn:E.
  - cbn [mapLabelValue mem listOrder counter].
    assert (Hin : k ∈ elems (mem c) (listOrder c)) by (apply Hk; eauto).
    rewrite bool_decide_eq_true_2 by done.
    split; [split; [done | by apply keys_insert_old] | done].
  - destruct (append1_spec growslice_cap (mem c) (listOrder c) k Hs) as [Hs' He'].
    destruct (append1 growslice_cap (mem c) (listOrder c) k) as [m' o'] eqn:Ea.
    cbn [fst snd] in Hs', He'.
    cbn [mapLabelValue mem listOrder counter].
    assert (Hnin : k ∉ elems (mem c) (listOrder c)).
    { intros Hin. apply Hk in Hin. rewrite E in Hin. by destruct Hin. }
    rewrite bool_decide_eq_false_2 by done.
    split; [split; [done|] | done].
    cbn [mem listOrder mapLabelValue]. rewrite He'. by apply keys_insert_new.
Qed.

Lemma decode_steps_spec (prs : list (Z * Wire.record)) (c : content) :
  content_ok c ->
  let c' := foldl decode_step c prs in
  content_ok c'
  /\ mapLabelValue c' = last_wins (mapLabelValue c) prs
  /\ elems (mem c') (listOrder c')
     = first_seen (elems (mem c) (listOrder c)) (map (fun p => key p.2) prs)
  /\ counter c' = counter c + len prs.
Proof.
  revert c. induction prs as [|[o r] prs IH]; intros c Hc; cbn zeta.
  - cbn [foldl map]. unfold last_wins, first_seen, len.
    cbn [foldl length]. repeat split; try apply Hc. lia.
  - cbn [foldl map].
    assert (H1 := record_entry_spec c (LV_Label (Wire.decoded o r))
                    (LV_Value (Wire.decoded o r)) Hc).
    cbn zeta in H1.
    change (record_entry c _ _) with (decode_step c (o, r)) in H1.
    destruct H1 as (Hc1 & Hm1 & He1 & Hn1).
    destruct (IH _ Hc1) as (Hc2 & Hm2 & He2 & Hn2).
    split; [done|]. rewrite Hm2, He2, Hn2, Hm1, He1, Hn1.
    split; [reflexivity|]. split; [reflexivity|].
    unfold len. cbn [length]. lia.
Qed.

Lemma record_entry_counter (c : content) (label : Label) (value : Value) :
  counter (record_entry c label value) = counter c + 1.
Proof.
  unfold record_entry.
  destruct (mapLabelValue c !! _); [done|].
  by destruct (append1 _ _ _ _).
Qed.

Lemma forallb_cons_true {A} (f : A -> bool) (x : A) (l : list A) :
  forallb f (x :: l) = true -> f x = true /\ forallb f l = true.
Proof. cbn. by intros [? ?]%andb_true_iff. Qed.

Lemma readContent_loop_S (budget : nat) (c : content) (f : file) :
  readContent_loop (S budget) c f
  = match readLabel f with
    | (Err e, f1) => if isEOF e then Some (Ok c, f1) else Some (Err e, f1)
    | (Ok label, f1) =>
        match readValue f1 with
        | (Err e, f2) => if isEOF e then Some (Ok c, f2) else Some (Err e, f2)
        | (Ok value, f2) =>
            let c' := record_entry c label value in
            if 20000 <? counter c' then Some (Err ErrTooManyStrings, f2)
            else readContent_loop budget c' f2
        end
    end.
Proof. reflexivity. Qed.

Lemma readContent_loop_step (r : Wire.record) (budget : nat) (c : content)
    (tail : bytes) (o : Z) :
  Wire.wf_record r = true ->
  readContent_loop (S budget) c (mkFile (Wire.record_bytes r ++ tail) o)
  = if 20000 <? counter c + 1
    then Some (Err ErrTooManyStrings,
               mkFile tail (o + len (Wire.record_bytes r)))
    else readContent_loop budget (decode_step c (o, r))
           (mkFile tail (o + len (Wire.record_bytes r))).
Proof.
  intros Hwf. rewrite readContent_loop_S.
  rewrite record_bytes_sections, <- app_assoc.
  rewrite readLabel_ok by done. rewrite readValue_ok by done.
  cbv zeta. rewrite record_entry_counter, len_app, label_section_len.
  replace (o + 12 + len (Wire.name r) + len (value_section r))
    with (o + (12 + len (Wire.name r) + len (value_section r))) by lia.
  reflexivity.
Qed.

Lemma readContent_loop_records (rs : list Wire.record) :
  forall (budget : nat) (c : content) (tail : bytes) (o : Z),
  forallb Wire.wf_record rs = true ->
  counter c + len rs <= 20000 ->
  readContent_loop (length rs + budget) c
    (mkFile (flat_map Wire.record_bytes rs ++ tail) o)
  = readContent_loop budget (foldl decode_step c (Wire.placed o rs))
      (mkFile tail (o + len (flat_map Wire.record_bytes rs))).
Proof.
  induction rs as [|r rs IH]; intros budget c tail o Hwf Hn.
  - cbn. by rewrite Z.add_0_r.
  - apply forallb_cons_true in Hwf as [Hr Hrs].
    unfold len in Hn. cbn [length] in Hn.
    cbn [flat_map Wire.placed foldl length Nat.add].
    rewrite <- app_assoc, readContent_loop_step by done.
    destruct (Z.ltb_spec 20000 (counter c + 1)) as [?|_]; [lia|].
    rewrite IH; [|done|].
    + by rewrite len_app, Z.add_assoc.
    + unfold decode_step. rewrite record_entry_counter. unfold len. lia.
Qed.

Lemma readContent_loop_end (budget : nat) (c : content) (o : Z) :
  readContent_loop (S budget) c (mkFile [] o) = Some (Ok c, mkFile [] o).
Proof. reflexivity. Qed.

Lemma record_bytes_length_pos (r : Wire.record) :
  (1 <= length (Wire.record_bytes r))%nat.
Proof.
  pose proof (record_bytes_len r) as H. unfold len in H.
  pose proof (len_nonneg (Wire.name r)). pose proof (len_nonneg (Wire.text r)).
  destruct (Wire.extra r) as [x|]; [pose proof (len_nonneg x)|]; lia.
Qed.

Lemma flat_records_length (rs : list Wire.record) :
  (length rs <= length (flat_map Wire.record_bytes rs))%nat.
Proof.
  induction rs as [|r rs IH]; cbn [flat_map length]; [lia|].
  rewrite length_app. pose proof (record_bytes_length_pos r). lia.
Qed.

(** The loop on a stream that consists of records only: everything is
    taken in when there are at most 20000 of them. *)
Lemma readContent_loop_all (rs : list Wire.record) (c : content) (o : Z) :
  forallb Wire.wf_record rs = true ->
  counter c + len rs <= 20000 ->
  readContent_loop (S (length (flat_map Wire.record_bytes rs))) c
    (mkFile (flat_map Wire.record_bytes rs) o)
  = Some (Ok (foldl decode_step c (Wire.placed o rs)),
          mkFile [] (o + len (flat_map Wire.record_bytes rs))).
Proof.
  intros Hwf Hn. pose proof (flat_records_length rs) as Hlen.
  replace (S (length (flat_map Wire.record_bytes rs)))
    with (length rs + S (length (flat_map Wire.record_bytes rs) - length rs))%nat
    by lia.
  rewrite <- (app_nil_r (flat_map Wire.record_bytes rs)) at 2.
  rewrite readContent_loop_records by done.
  apply readContent_loop_end.
Qed.

Lemma readContent_loop_too_many (rs : list Wire.record) :
  forall (budget : nat) (c : content) (tail : bytes) (o : Z),
  forallb Wire.wf_record rs = true ->
  counter c <= 20000 -> 20000 < counter c + len rs ->
  (length rs <= budget)%nat ->
  exists f',
    readContent_loop budget c (mkFile (flat_map Wire.record_bytes rs ++ tail) o)
    = Some (Err ErrTooManyStrings, f').
Proof.
  induction rs as [|r rs IH]; intros budget c tail o Hwf Hc Hn Hb.
  - unfold len in Hn. cbn in Hn. lia.
  - apply forallb_cons_true in Hwf as [Hr Hrs].
    unfold len in Hn. cbn [length] in Hn, Hb.
    destruct budget as [|budget]; [lia|].
    cbn [flat_map]. rewrite <- app_assoc, readContent_loop_step by done.
    destruct (Z.ltb_spec 20000 (counter c + 1)) as [?|?]; [eauto|].
    apply IH; [done| | |lia].
    + unfold decode_step. rewrite record_entry_counter. lia.
    + unfold decode_step. rewrite record_entry_counter. unfold len. lia.
Qed.

Lemma wf_header_spec (h : Wire.header) :
  Wire.wf_header h = true ->
  0 <= Wire.version h < 2 ^ 32 /\ 0 <= Wire.numLabels h < 2 ^ 32
  /\ 0 <= Wire.numStrings h < 2 ^ 32 /\ 0 <= Wire.unused h < 2 ^ 32
  /\ 0 <= Wire.language h < 2 ^ 32.
Proof.
  unfold Wire.wf_header. rewrite !andb_true_iff, !fits32_spec. tauto.
Qed.

Lemma readHeader_ok (r : CSFUtil) (h : Wire.header) (tail : bytes) :
  Wire.wf_header h = true ->
  readHeader r (mkFile (Wire.header_bytes h ++ tail) 0)
  = ((mkCSFUtil (filename r) (Wire.version h) (Wire.numLabels h)
                (Wire.numStrings h) (Wire.unused h) (Wire.language h)
                (Values r) (Categories r) (Order r) (heap r), None),
     mkFile tail 24).
Proof.
  intros (H1 & H2 & H3 & H4 & H5)%wf_header_spec.
  unfold readHeader, Wire.header_bytes. rewrite <- !app_assoc.
  rewrite (checkIdentifier_app [CSFFileIdentifier] " FSC")
    by (done || apply list_elem_of_here).
  do 5 (rewrite readUInt_app by done).
  reflexivity.
Qed.

Lemma header_bytes_length (h : Wire.header) :
  length (Wire.header_bytes h) = 24%nat.
Proof. reflexivity. Qed.

Lemma content_ok_init :
  content_ok (mkContent ∅ ∅ (mkSlice 0 0 0) [[]] 0).
Proof.
  split.
  - split; cbn; lia.
  - intros k. cbn. rewrite lookup_empty. split.
    + by intros ?%elem_of_nil.
    + by intros [? ?].
Qed.

(** [Open] on a header followed by at most 20000 well-formed records. *)
Lemma Open_stream (name : string) (h : Wire.header) (rs : list Wire.record) :
  Wire.wf_header h = true ->
  forallb Wire.wf_record rs = true ->
  len rs <= 20000 ->
  Open name (Wire.stream h rs)
  = Some (table_of name h (decode_records rs), None).
Proof.
  intros Hh Hrs Hn. unfold Open, openAndParse, Wire.stream.
  rewrite readHeader_ok by done.
  unfold readContent. cbn [heap empty_slice app length unread].
  rewrite readContent_loop_all by (done || cbn [counter]; lia).
  reflexivity.
Qed.

(** [Open] on a header followed by more than 20000 well-formed records. *)
Lemma Open_too_many (name : string) (h : Wire.header) (rs : list Wire.record) :
  Wire.wf_header h = true ->
  forallb Wire.wf_record rs = true ->
  20000 < len rs ->
  exists r, Open name (Wire.stream h rs) = Some (r, Some ErrTooManyStrings).
Proof.
  intros Hh Hrs Hn. unfold Open, openAndParse, Wire.stream.
  rewrite readHeader_ok by done.
  unfold readContent. cbn [heap empty_slice app length unread].
  rewrite <- (app_nil_r (flat_map Wire.record_bytes rs)).
  edestruct (readContent_loop_too_many rs) as [f' ->];
    [done| | |..]; cycle -1; [eauto| | |].
  - cbn [counter]. lia.
  - cbn [counter]. lia.
  - rewrite app_nil_r. pose proof (flat_records_length rs). lia.
Qed.

(** *** Last value wins, first appearance fixes the place *)

Lemma last_wins_app (m : gmap string LabelValue) (l1 l2 : list (Z * Wire.record)) :
  last_wins m (l1 ++ l2) = last_wins (last_wins m l1) l2.
Proof. unfold last_wins. apply foldl_app. Qed.

Lemma last_wins_other (l : list (Z * Wire.record)) :
  forall (m : gmap string LabelValue) (k : string),
  k ∉ map (fun p => key p.2) l -> last_wins m l !! k = m !! k.
Proof.
  induction l as [|[o r] l IH]; intros m k Hk; [done|].
  cbn [map fst snd] in Hk. apply not_elem_of_cons in Hk as [Hne Hk].
  unfold last_wins. cbn [foldl fst snd].
  fold (last_wins (<[key r := Wire.decoded o r]> m) l).
  rewrite IH by done. by rewrite lookup_insert_ne.
Qed.

Lemma last_wins_last (m : gmap string LabelValue)
    (l1 l2 : list (Z * Wire.record)) (o : Z) (r : Wire.record) :
  key r ∉ map (fun p => key p.2) l2 ->
  last_wins m (l1 ++ (o, r) :: l2) !! key r = Some (Wire.decoded o r).
Proof.
  intros Hk. rewrite last_wins_app.
  unfold last_wins at 1. cbn [foldl fst snd].
  fold (last_wins (<[key r := Wire.decoded o r]> (last_wins m l1)) l2).
  rewrite last_wins_other by done. apply lookup_insert_eq.
Qed.

Lemma placed_app (rs1 rs2 : list Wire.record) (o : Z) :
  Wire.placed o (rs1 ++ rs2)
  = Wire.placed o rs1
    ++ Wire.placed (o + len (flat_map Wire.record_bytes rs1)) rs2.
Proof.
  revert o. induction rs1 as [|r rs1 IH]; intros o.
  - cbn. by rewrite Z.add_0_r.
  - cbn [app Wire.placed flat_map]. rewrite IH, len_app, Z.add_assoc.
    reflexivity.
Qed.

Lemma placed_keys (rs : list Wire.record) (o : Z) :
  map (fun p => key p.2) (Wire.placed o rs) = map key rs.
Proof.
  revert o. induction rs as [|r rs IH]; intros o; [done|].
  cbn [Wire.placed map snd]. by rewrite IH.
Qed.

Lemma placed_length (rs : list Wire.record) (o : Z) :
  length (Wire.placed o rs) = length rs.
Proof.
  revert o. induction rs as [|r rs IH]; intros o; [done|].
  cbn [Wire.placed length]. by rewrite IH.
Qed.

Lemma first_seen_app (acc l1 l2 : list string) :
  first_seen acc (l1 ++ l2) = first_seen (first_seen acc l1) l2.
Proof. unfold first_seen. apply foldl_app. Qed.

Lemma first_seen_cons (acc : list string) (k : string) (l : list string) :
  first_seen acc (k :: l)
  = first_seen (if bool_decide (k ∈ acc) then acc else acc ++ [k]) l.
Proof. reflexivity. Qed.

(** [first_seen] extends what it starts from by names that are new, each
    once. *)
Lemma first_seen_extends (l : list string) :
  forall acc : list string,
  exists rest,
    first_seen acc l = acc ++ rest
    /\ NoDup rest
    /\ (forall x, x ∈ rest <-> x ∈ l /\ x ∉ acc).
Proof.
  induction l as [|k l IH]; intros acc.
  - exists []. cbn. rewrite app_nil_r. split; [done|]. split; [constructor|].
    intros x. split; [by intros ?%elem_of_nil | by intros [?%elem_of_nil _]].
  - rewrite first_seen_cons. case_bool_decide as Hin.
    + destruct (IH acc) as (rest & -> & Hnd & Hx). exists rest.
      split; [done|]. split; [done|].
      intros x. rewrite Hx, elem_of_cons. split; [tauto|].
      intros [[->|?] ?]; tauto.
    + destruct (IH (acc ++ [k])) as (rest & -> & Hnd & Hx). exists (k :: rest).
      split; [by rewrite <- app_assoc|]. split.
      * constructor; [|done]. rewrite Hx, elem_of_app, list_elem_of_singleton.
        tauto.
      * intros x. rewrite !elem_of_cons, Hx, elem_of_app, list_elem_of_singleton.
        destruct (decide (x = k)) as [->|Hne]; tauto.
Qed.

Lemma first_seen_NoDup (ks : list string) :
  NoDup ks -> first_seen [] ks = ks.
Proof.
  enough (forall acc, NoDup (acc ++ ks) -> first_seen acc ks = acc ++ ks)
    as H by (intros; by apply (H [])).
  induction ks as [|k ks IH]; intros acc Hnd.
  - cbn. by rewrite app_nil_r.
  - rewrite first_seen_cons.
    apply NoDup_app in Hnd as (Ha & Hd & Hk).
    assert (Hnin : k ∉ acc).
    { intros Hin. apply (Hd k Hin). apply list_elem_of_here. }
    rewrite bool_decide_eq_false_2 by done.
    rewrite IH; [by rewrite <- app_assoc|].
    rewrite <- app_assoc. apply NoDup_app. split; [done|]. split; [|done].
    intros x Hx. apply Hd. done.
Qed.

Lemma decode_records_spec (rs : list Wire.record) :
  let c := decode_records rs in
  content_ok c
  /\ mapLabelValue c = last_wins ∅ (Wire.placed 24 rs)
  /\ elems (mem c) (listOrder c) = first_seen [] (map key rs)
  /\ counter c = len rs.
Proof.
  destruct (decode_steps_spec (Wire.placed 24 rs) _ content_ok_init)
    as (H1 & H2 & H3 & H4).
  rewrite placed_keys in H3.
  unfold len in H4. rewrite placed_length in H4. cbn [counter] in H4.
  cbn zeta. unfold decode_records. rewrite H2, H3, H4.
  split; [done|]. split; [done|]. split; [done|]. unfold len. lia.
Qed.

(** *** Encoding what was decoded *)

Lemma LabelValue_Bytes_decoded (o : Z) (r : Wire.record) :
  Wire.wf_record r = true ->
  LabelValue_Bytes (Wire.decoded o r) = Wire.record_bytes r.
Proof.
  intros Hwf. destruct (wf_record_spec r Hwf) as (Hn & Hev & Ht & Hx).
  unfold LabelValue_Bytes, Label_Bytes, Value_Bytes, Wire.decoded,
    Wire.record_bytes, Wire.fields.
  cbn [LV_Label LV_Value Label_Value Value_Value HaveExtra ExtraValue].
  rewrite !PutUint32_uint32_le by lia.
  destruct (Wire.extra r) as [x|] eqn:Ex.
  - rewrite bool_decide_eq_true_2 by eauto.
    cbn [default from_option id app concat].
    pose proof (Hx x eq_refl).
    rewrite PutUint32_uint32_le by lia.
    rewrite app_nil_r, <- !app_assoc. reflexivity.
  - rewrite bool_decide_eq_false_2 by (by intros [? ?]).
    cbn [default from_option id app concat].
    rewrite !app_nil_r, <- !app_assoc. reflexivity.
Qed.

Lemma flat_map_via_map {A B C} (f : B -> list C) (g : A -> B) (l : list A) :
  flat_map f (map g l) = flat_map (fun x => f (g x)) l.
Proof. induction l as [|x l IH]; cbn; [done|]. by rewrite IH. Qed.

Lemma flat_map_ext_elem {A B} (f g : A -> list B) (l : list A) :
  (forall x, x ∈ l -> f x = g x) -> flat_map f l = flat_map g l.
Proof.
  induction l as [|x l IH]; intros H; cbn; [done|].
  rewrite (H x) by apply list_elem_of_here.
  rewrite IH; [done|]. intros y Hy. apply H. by apply list_elem_of_further.
Qed.

Lemma decoded_lookup_unique (rs : list Wire.record) (r : Wire.record) (o : Z) :
  NoDup (map key rs) -> r ∈ rs ->
  exists o', last_wins ∅ (Wire.placed o rs) !! key r = Some (Wire.decoded o' r).
Proof.
  intros Hnd Hin. apply list_elem_of_split in Hin as (pre & suf & ->).
  rewrite map_app in Hnd. apply NoDup_app in Hnd as (_ & _ & Hnd).
  cbn [map] in Hnd. apply NoDup_cons in Hnd as [Hnin _].
  rewrite placed_app. cbn [Wire.placed]. eexists.
  apply last_wins_last. by rewrite placed_keys.
Qed.

Lemma Save_bytes_decoded (name : string) (h : Wire.header)
    (rs : list Wire.record) :
  Wire.wf_header h = true ->
  forallb Wire.wf_record rs = true ->
  NoDup (map key rs) ->
  Save_bytes (table_of name h (decode_records rs)) = Wire.stream h rs.
Proof.
  intros (H1 & H2 & H3 & H4 & H5)%wf_header_spec Hwf Hnd.
  destruct (decode_records_spec rs) as (_ & Hm & He & _).
  unfold Save_bytes, OrderList, table_of.
  cbn [Version NumLabels NumStrings Unused Language Values heap Order].
  rewrite He, Hm, first_seen_NoDup by done.
  rewrite !PutUint32_uint32_le by done.
  unfold Wire.stream, Wire.header_bytes. rewrite <- !app_assoc.
  do 6 f_equal.
  rewrite flat_map_via_map. apply flat_map_ext_elem. intros r Hr.
  destruct (decoded_lookup_unique rs r 24 Hnd Hr) as [o' ->].
  cbn [default from_option id]. apply LabelValue_Bytes_decoded.
  rewrite forallb_forall in Hwf. apply Hwf. by apply list_elem_of_In.
Qed.

(** C1 (round trip). A well-formed stream is a header whose scalars fit
    32 bits, followed by at most 20000 records whose name, text and extra
    value are each no longer than what one read call delivers (2^30
    bytes), whose text has an even number of bytes, and whose names are
    pairwise different after upper-casing. [Open] decodes such a stream
    without error, and the bytes that [Save] writes for the table are the
    stream again, byte for byte. *)
Theorem save_after_open_reproduces_stream (name : string) (h : Wire.header)
    (rs : list Wire.record) :
  Wire.wf_header h = true ->
  forallb Wire.wf_record rs = true ->
  len rs <= 20000 ->
  NoDup (map key rs) ->
  exists r,
    Open name (Wire.stream h rs) = Some (r, None)
    /\ Save_bytes r = Wire.stream h rs.
Proof.
  intros Hh Hwf Hn Hnd.
  exists (table_of name h (decode_records rs)).
  split; [by apply Open_stream | by apply Save_bytes_decoded].
Qed.

(** Two records with the same key. Take a well-formed stream in which
    record [r1] is the first and record [r2] the last of the records that
    have the key of [r1]. The decoded table holds under that key the entry
    of [r2]; and the key stands in [Order] once, right after the keys that
    the records before [r1] put there, that is at the place of its first
    occurrence. *)
Lemma duplicate_key_first_place_last_value (name : string)
    (h : Wire.header) (rs1 rs2 rs3 : list Wire.record) (r1 r2 : Wire.record) :
  Wire.wf_header h = true ->
  forallb Wire.wf_record (rs1 ++ r1 :: rs2 ++ r2 :: rs3) = true ->
  len (rs1 ++ r1 :: rs2 ++ r2 :: rs3) <= 20000 ->
  key r1 = key r2 ->
  key r1 ∉ map key rs1 ->
  key r2 ∉ map key rs3 ->
  exists r r_before o2 after,
    Open name (Wire.stream h (rs1 ++ r1 :: rs2 ++ r2 :: rs3)) = Some (r, None)
    /\ Open name (Wire.stream h rs1) = Some (r_before, None)
    /\ Values r !! key r1 = Some (Wire.decoded o2 r2)
    /\ OrderList r = OrderList r_before ++ key r1 :: after
    /\ (key r1 ∉ OrderList r_before)
    /\ (key r1 ∉ after).
Proof.
  intros Hh Hwf Hn Hk Hk1 Hk3.
  set (rs := rs1 ++ r1 :: rs2 ++ r2 :: rs3) in *.
  assert (Hwf1 : forallb Wire.wf_record rs1 = true).
  { subst rs. rewrite forallb_app in Hwf. by apply andb_true_iff in Hwf as [? _]. }
  assert (Hn1 : len rs1 <= 20000).
  { subst rs. rewrite len_app in Hn. pose proof (len_nonneg (r1 :: rs2 ++ r2 :: rs3)).
    lia. }
  destruct (decode_records_spec rs) as (_ & Hm & He & _).
  destruct (decode_records_spec rs1) as (_ & _ & He1 & _).
  destruct (first_seen_extends (map key rs1) []) as (A & HA & _ & HAx).
  cbn [app] in HA.
  assert (HkA : key r1 ∉ first_seen [] (map key rs1)).
  { rewrite HA. intros Hin. apply HAx in Hin as [Hin _]. done. }
  destruct (first_seen_extends (map key (rs2 ++ r2 :: rs3))
              (first_seen [] (map key rs1) ++ [key r1]))
    as (after & Hafter & _ & Hax).
  exists (table_of name h (decode_records rs)),
         (table_of name h (decode_records rs1)),
         (24 + len (flat_map Wire.record_bytes (rs1 ++ r1 :: rs2))), after.
  split; [by apply Open_stream|]. split; [by apply Open_stream|].
  unfold OrderList, table_of. cbn [Values heap Order].
  rewrite Hm, He, He1. split; [|split; [|split]].
  - subst rs. rewrite Hk.
    replace (rs1 ++ r1 :: rs2 ++ r2 :: rs3)
      with ((rs1 ++ r1 :: rs2) ++ r2 :: rs3) by (by rewrite <- app_assoc).
    rewrite placed_app. cbn [Wire.placed].
    apply last_wins_last. by rewrite placed_keys.
  - subst rs. rewrite map_app. cbn [map].
    rewrite first_seen_app, first_seen_cons.
    rewrite bool_decide_eq_false_2 by done.
    rewrite Hafter, <- app_assoc. reflexivity.
  - done.
  - intros Hin. apply Hax in Hin as [_ Hnin]. apply Hnin.
    apply elem_of_app. right. apply list_elem_of_here.
Qed.

(** C8 (the bound of 20000 entries). On a stream of well-formed records
    [Open] fails exactly when there are more than 20000 of them: with
    20000 or fewer it returns the table and no error, with 20001 or more
    it returns the error "too many strings". *)
Theorem open_fails_iff_more_than_20000 (name : string) (h : Wire.header)
    (rs : list Wire.record) :
  Wire.wf_header h = true ->
  forallb Wire.wf_record rs = true ->
  (len rs <= 20000 ->
   Open name (Wire.stream h rs) = Some (table_of name h (decode_records rs), None))
  /\ (20000 < len rs ->
      exists r, Open name (Wire.stream h rs) = Some (r, Some ErrTooManyStrings))
  /\ ((exists r e, Open name (Wire.stream h rs) = Some (r, Some e))
      <-> 20000 < len rs).
Proof.
  intros Hh Hwf. split; [|split].
  - intros Hn. by apply Open_stream.
  - intros Hn. by apply Open_too_many.
  - split.
    + intros (r & e & HO). destruct (Z.le_gt_cases (len rs) 20000) as [Hn|Hn]; [|lia].
      rewrite Open_stream in HO by done. congruence.
    + intros Hn. destruct (Open_too_many name h rs Hh Hwf Hn) as [r Hr]. eauto.
Qed.

(** *** Reading any data: progress and the place of a wrong identifier *)

Lemma advance_refl (f : file) : advance f f.
Proof. exists []. split; [done|]. unfold len. cbn. lia. Qed.

Lemma advance_trans (f1 f2 f3 : file) :
  advance f1 f2 -> advance f2 f3 -> advance f1 f3.
Proof.
  intros (g1 & H1 & O1) (g2 & H2 & O2). exists (g1 ++ g2).
  split; [by rewrite H1, H2, app_assoc|]. rewrite len_app. lia.
Qed.

Lemma advance_length (f f' : file) :
  advance f f' -> (length (unread f') <= length (unread f))%nat.
Proof. intros (g & -> & _). rewrite length_app. lia. Qed.


Lemma fileRead_advance (n : Z) (f : file) :
  advance f (fileRead n f).2
  /\ (fileRead n f).1.1 = take (length (fileRead n f).1.1) (unread f).
Proof.
  unfold fileRead. destruct (n =? 0).
  - cbn. split; [apply advance_refl | done].
  - destruct (unread f) as [|c u] eqn:E.
    + cbn. split; [apply advance_refl | done].
    + cbn [fst snd]. generalize (Z.to_nat (Z.min n maxRW)). intros k. split.
      * exists (take k (c :: u)). cbn [unread offset].
        split; [by rewrite E, take_drop | done].
      * rewrite length_take.
        destruct (Nat.min_spec k (length (c :: u))) as [[? ->]|[? ->]];
          [done|].
        by rewrite !take_ge by lia.
Qed.

Lemma read_advance (size : Z) (f : file) : advance f (read size f).2.
Proof.
  unfold read. pose proof (fileRead_advance size f) as [H _].
  destruct (fileRead size f) as [[got [e|]] f']; cbn [fst snd] in *; [done|].
  by destruct (negb _).
Qed.

Lemma readDWORD_advance (f : file) : advance f (readDWORD f).2.
Proof.
  unfold readDWORD. pose proof (fileRead_advance 4 f) as [H _].
  destruct (fileRead 4 f) as [[got [e|]] f']; cbn [fst snd] in *; [done|].
  by destruct (negb _).
Qed.

Lemma readDWORD_Ok (f f' : file) (d : bytes) :
  readDWORD f = (Ok d, f') ->
  length d = 4%nat /\ d = take 4 (unread f) /\ advance f f'
  /\ (4 <= length (unread f))%nat
  /\ length (unread f') = (length (unread f) - 4)%nat.
Proof.
  unfold readDWORD. pose proof (fileRead_advance 4 f) as [(g & Hg & Ho) Ht].
  destruct (fileRead 4 f) as [[got [e|]] f1] eqn:E; cbn [fst snd] in *; [done|].
  destruct (Z.eqb_spec (len got) 4) as [Hl|Hl]; cbn [negb]; [|done].
  intros [= <- <-]. unfold len in Hl.
  assert (length got = 4%nat) as Hl4 by lia.
  rewrite Hl4 in Ht. split; [done|]. split; [done|].
  split; [by exists g|].
  unfold fileRead in E. cbn [Z.eqb] in E.
  change (Z.to_nat (Z.min 4 maxRW)) with 4%nat in E.
  destruct (unread f) as [|c u] eqn:Eu; [by inversion E|].
  inversion E; subst. cbn [unread offset] in *.
  rewrite length_take in Hl4. rewrite length_drop. cbn [length] in *. lia.
Qed.

Lemma readDWORD_Err (f f' : file) (e : error) :
  readDWORD f = (Err e, f') -> e = EOF \/ e = ErrNotDword.
Proof.
  unfold readDWORD, fileRead. cbn [Z.eqb].
  destruct (unread f); [intros [= <- _]; by left|].
  destruct (negb _); [intros [= <- _]; by right | done].
Qed.

Lemma readUInt_advance (f : file) : advance f (readUInt f).2.
Proof.
  unfold readUInt, bind. pose proof (readDWORD_advance f).
  by destruct (readDWORD f) as [[d|e] f'].
Qed.

Lemma readUInt_Err (f f' : file) (e : error) :
  readUInt f = (Err e, f') -> e = EOF \/ e = ErrNotDword.
Proof.
  unfold readUInt, bind. destruct (readDWORD f) as [[d|e0] f1] eqn:E; [done|].
  intros [= <- <-]. by eapply readDWORD_Err.
Qed.

Lemma read_Err (size : Z) (f f' : file) (e : error) :
  read size f = (Err e, f') -> e = EOF \/ exists w g, e = ErrNotEnoughData w g.
Proof.
  unfold read, fileRead. destruct (size =? 0).
  - destruct (negb _); [intros [= <- _]; eauto | done].
  - destruct (unread f); [intros [= <- _]; by left|].
    destruct (negb _); [intros [= <- _]; eauto | done].
Qed.

Lemma checkIdentifier_advance (ids : list string) (f : file) :
  advance f (checkIdentifier ids f).2.
Proof.
  unfold checkIdentifier, bind. pose proof (readDWORD_advance f).
  destruct (readDWORD f) as [[d|e] f']; [|done].
  by destruct (existsb _ _).
Qed.

Lemma checkIdentifier_Ok (ids : list string) (f f' : file) (d : bytes) :
  checkIdentifier ids f = (Ok d, f') ->
  (4 <= length (unread f))%nat
  /\ length (unread f') = (length (unread f) - 4)%nat.
Proof.
  unfold checkIdentifier, bind.
  destruct (readDWORD f) as [[d0|e] f1] eqn:E; [|done].
  apply readDWORD_Ok in E as (_ & _ & _ & H4 & Hl).
  destruct (existsb _ _); [|done]. by intros [= <- <-].
Qed.


Lemma bind_advancing {A B} (m : reading A) (k : A -> reading B) :
  advancing m -> (forall a, advancing (k a)) -> advancing (bind m k).
Proof.
  intros Hm Hk f. unfold bind. specialize (Hm f).
  destruct (m f) as [[a|e] f1]; cbn [snd] in *; [|done].
  eapply advance_trans; [done | apply Hk].
Qed.

Lemma bind_plain_errors {A B} (m : reading A) (k : A -> reading B) :
  plain_errors m -> (forall a, plain_errors (k a)) -> plain_errors (bind m k).
Proof.
  intros Hm Hk f e f'. unfold bind.
  destruct (m f) as [[a|e0] f1] eqn:E.
  - apply Hk.
  - intros [= <- <-]. by eapply Hm.
Qed.

Lemma ret_advancing {A} (a : A) : advancing (ret a).
Proof. intros f. apply advance_refl. Qed.

Lemma ret_plain_errors {A} (a : A) : plain_errors (ret a).
Proof. by intros f e f'. Qed.

Lemma readDWORD_plain_errors : plain_errors readDWORD.
Proof. intros f e f' [-> | ->]%readDWORD_Err; done. Qed.

Lemma readUInt_plain_errors : plain_errors readUInt.
Proof. intros f e f' [-> | ->]%readUInt_Err; done. Qed.

Lemma read_plain_errors (size : Z) : plain_errors (read size).
Proof. intros f e f' [-> | (w & g & ->)]%read_Err; done. Qed.


(** The part of [readLabel] after the identifier. *)
Lemma readLabel_body (o : Z) :
  let body := (pairs <- readUInt ;;
               length <- readUInt ;;
               value <- read length ;;
               ret (mkLabel o pairs value))%reading in
  advancing body /\ plain_errors body.
Proof.
  split.
  - repeat (apply bind_advancing; [|intros ?]);
      first [exact readDWORD_advance | exact (read_advance _)
            | apply ret_advancing].
  - repeat (apply bind_plain_errors; [|intros ?]);
      first [apply readDWORD_plain_errors | apply read_plain_errors
            | apply ret_plain_errors].
Qed.

(** The part of [readValue] after the identifier. *)
Lemma readValue_body (o : Z) (hasExtra : bool) :
  let body :=
    (length <- readUInt ;;
     value <- read (length * 2) ;;
     if hasExtra then
       fun f3 =>
         let '(extraLength, f4) :=
           match readUInt f3 with
           | (Ok n, f4) => (n, f4)
           | (Err _, f4) => (0, f4)
           end in
         (extraVal <- read extraLength ;;
          ret (mkValue o hasExtra value extraVal))%reading f4
     else ret (mkValue o hasExtra value []))%reading in
  advancing body /\ plain_errors body.
Proof.
  split.
  - apply bind_advancing; [exact readUInt_advance | intros n].
    apply bind_advancing; [exact (read_advance _) | intros v].
    destruct hasExtra; [|apply ret_advancing].
    intros f3. pose proof (readUInt_advance f3) as H3.
    destruct (readUInt f3) as [[n'|e'] f4]; cbn [snd] in H3;
      (eapply advance_trans; [exact H3|]);
      (apply bind_advancing;
         [exact (read_advance _) | intros ?; apply ret_advancing]).
  - apply bind_plain_errors; [apply readUInt_plain_errors | intros n].
    apply bind_plain_errors; [apply read_plain_errors | intros v].
    destruct hasExtra; [|apply ret_plain_errors].
    intros f3 e f'.
    destruct (readUInt f3) as [[n'|e'] f4];
      (apply bind_plain_errors;
         [apply read_plain_errors | intros ?; apply ret_plain_errors]).
Qed.


Lemma readValue_advance (f : file) : advance f (readValue f).2.
Proof.
  unfold readValue.
  pose proof (checkIdentifier_advance [ValueIdentifier; ValueWithExtraIdentifier] f) as H.
  destruct (checkIdentifier _ f) as [[d|e] f1]; cbn [snd] in *; [|done].
  eapply advance_trans; [done|]. apply readValue_body.
Qed.

(** A label that was read took at least its identifier from the file. *)
Lemma readLabel_Ok_shorter (f f' : file) (l : Label) :
  readLabel f = (Ok l, f') -> (length (unread f') < length (unread f))%nat.
Proof.
  unfold readLabel.
  destruct (checkIdentifier _ f) as [[d|e] f1] eqn:E; [|done].
  apply checkIdentifier_Ok in E as [H4 Hl].
  intros Hb.
  pose proof (proj1 (readLabel_body (pos f)) f1) as Ha.
  cbn zeta in Ha. rewrite Hb in Ha. cbn [snd] in Ha.
  apply advance_length in Ha. lia.
Qed.




Lemma readDWORD_Ok_offset (f f' : file) (d : bytes) :
  readDWORD f = (Ok d, f') -> offset f' = offset f + 4.
Proof.
  intros (_ & _ & (g & Hg & Ho) & H4 & Hl)%readDWORD_Ok.
  apply (f_equal length) in Hg. rewrite length_app in Hg.
  rewrite Ho. unfold len. lia.
Qed.



(** The loop never uses up a budget that exceeds the unread bytes. *)
Lemma readContent_loop_total (budget : nat) :
  forall (c : content) (f : file),
  (length (unread f) < budget)%nat ->
  exists res, readContent_loop budget c f = Some res.
Proof.
  induction budget as [|budget IH]; intros c f Hb; [lia|].
  rewrite readContent_loop_S.
  destruct (readLabel f) as [[l|e] f1] eqn:El.
  - apply readLabel_Ok_shorter in El.
    pose proof (readValue_advance f1) as Hv.
    destruct (readValue f1) as [[v|e] f2]; cbn [snd] in Hv.
    + cbv zeta. destruct (20000 <? _); [eauto|].
      apply IH. apply advance_length in Hv. lia.
    + destruct (isEOF e); eauto.
  - destruct (isEOF e); eauto.
Qed.


Ltac destruct_readUInt :=
  match goal with
  | |- context [readUInt ?f] => destruct (readUInt f) as [[?|?] ?] eqn:?
  end.

Lemma readHeader_tables (r : CSFUtil) (f : file) :
  let r' := (readHeader r f).1.1 in
  Values r' = Values r /\ Categories r' = Categories r
  /\ Order r' = Order r /\ heap r' = heap r.
Proof.
  unfold readHeader.
  destruct (checkIdentifier _ f) as [[d|e] f1]; [|done].
  do 5 (destruct_readUInt; [|done]).
  done.
Qed.



(** [Open] always returns: the budget of the loop is never too small. *)
Lemma Open_total (name : string) (data : bytes) :
  exists re, Open name data = Some re.
Proof.
  unfold Open, openAndParse.
  destruct (readHeader _ _) as [[r1 [e1|]] f1]; [eauto|].
  unfold readContent.
  destruct (empty_slice (heap r1)) as [m order].
  destruct (readContent_loop_total (S (length (unread f1)))
              (mkContent ∅ ∅ order m 0) f1 ltac:(lia)) as [[[c|e] f2] ->];
    eauto.
Qed.


(** *** A stream that ends inside a record *)

Lemma readDWORD_partial (p : bytes) (o : Z) :
  (length p < 4)%nat ->
  readDWORD (mkFile p o) = (Err (short_dword p), mkFile [] (o + len p)).
Proof.
  intros Hp. unfold short_dword. case_bool_decide as E.
  - subst p. rewrite readDWORD_eof. unfold len. cbn. by rewrite Z.add_0_r.
  - by apply readDWORD_short.
Qed.

Lemma readUInt_partial (p : bytes) (o : Z) :
  (length p < 4)%nat ->
  readUInt (mkFile p o) = (Err (short_dword p), mkFile [] (o + len p)).
Proof.
  intros Hp. unfold readUInt. by erewrite bind_err by (by apply readDWORD_partial).
Qed.






Lemma readLabel_ok_flat (r : Wire.record) (tail : bytes) (o : Z) :
  Wire.wf_record r = true ->
  readLabel (mkFile (bytes_of_string " LBL" ++ Wire.uint32_le 1
                     ++ Wire.uint32_le (len (Wire.name r))
                     ++ Wire.name r ++ tail) o)
  = (Ok (mkLabel o 1 (Wire.name r)), mkFile tail (o + 12 + len (Wire.name r))).
Proof.
  intros Hwf. rewrite <- (readLabel_ok r tail o Hwf).
  unfold label_section, Wire.fields. cbn [take app concat].
  by rewrite app_nil_r, <- !app_assoc.
Qed.




End Decoding.

(** ** The entry store *)

Lemma elems_whole_insert (m : arrays) (s : slice) (i : nat) (x : string) :
  slice_ok m s -> (i < slen s)%nat ->
  elems (<[array s := <[(first s + i)%nat := x]> (array_of m s)]> m) s
  = <[i := x]> (elems m s).
Proof.
  intros [Ha Hl] Hi. unfold elems at 1.
  destruct s as [a f n]. cbn [array first slen] in *.
  rewrite array_of_insert by done.
  rewrite drop_insert_ge by lia.
  replace (f + i - f)%nat with i by lia.
  rewrite take_insert_lt by lia. reflexivity.
Qed.

Lemma elems_reslice (m : arrays) (s : slice) (i j : nat) :
  (i <= j)%nat -> (j <= slen s)%nat ->
  elems m (reslice s i j) = drop i (take j (elems m s)).
Proof.
  intros Hij Hj. unfold elems, reslice. cbn [array first slen].
  unfold array_of. cbn [array].
  rewrite take_take, Nat.min_l by lia.
  rewrite <- drop_drop. rewrite take_drop_commute.
  replace (i + (j - i))%nat with j by lia. reflexivity.
Qed.

Lemma slice_ok_reslice (m : arrays) (s : slice) (i j : nat) :
  slice_ok m s -> (i <= j)%nat -> (j <= slen s)%nat ->
  slice_ok m (reslice s i j).
Proof.
  intros [Ha Hl] Hij Hj. split; cbn [reslice array first slen]; [done|].
  unfold array_of, reslice in *. cbn [array]. lia.
Qed.

Lemma last_match_spec (succ : string) (order : list string) :
  forall i d : nat,
  ((succ ∉ order) /\ last_match succ order i d = d)
  \/ (exists j, (j < length order)%nat
                /\ last_match succ order i d = (i + j)%nat
                /\ order !! j = Some succ
                /\ (succ ∉ drop (S j) order)).
Proof.
  induction order as [|s order IH]; intros i d.
  - left. split; [apply not_elem_of_nil | done].
  - cbn [last_match].
    destruct (IH (S i) (if bool_decide (s = succ) then i else d))
      as [[Hnin Heq]|(j & Hj & Heq & Hlk & Hlast)].
    + case_bool_decide as Hs.
      * right. exists 0%nat. cbn [length]. split; [lia|].
        rewrite Heq, Nat.add_0_r. split; [done|]. subst s. split; [done|].
        done.
      * left. split; [|done]. apply not_elem_of_cons. split; [congruence|done].
    + right. exists (S j). cbn [length]. split; [lia|].
      rewrite Heq. split; [lia|]. split; done.
Qed.

Lemma first_match_spec (name : string) (order : list string) :
  forall i : nat,
  ((name ∉ order) /\ first_match name order i = None)
  \/ (exists j, first_match name order i = Some (i + j)%nat
                /\ order !! j = Some name
                /\ (name ∉ take j order)).
Proof.
  induction order as [|s order IH]; intros i.
  - left. split; [apply not_elem_of_nil | done].
  - cbn [first_match]. case_bool_decide as Hs.
    + right. exists 0%nat. rewrite Nat.add_0_r. subst s.
      split; [done|]. split; [done|]. apply not_elem_of_nil.
    + destruct (IH (S i)) as [[Hnin Heq]|(j & Heq & Hlk & Hfirst)].
      * left. split; [|done]. apply not_elem_of_cons. split; [congruence|done].
      * right. exists (S j). rewrite Heq. split; [f_equal; lia|].
        split; [done|]. cbn [take]. apply not_elem_of_cons.
        split; [congruence|done].
Qed.

Section Store.

Variable MapUnicodeToUpper : string -> string.
Variable growslice_cap : nat -> nat -> nat.

Local Abbreviation ToUpper := (ToUpper MapUnicodeToUpper).
Local Abbreviation WriteLabelValueBefore :=
  (WriteLabelValueBefore MapUnicodeToUpper growslice_cap).
Local Abbreviation WriteLabelValue :=
  (WriteLabelValue MapUnicodeToUpper growslice_cap).
Local Abbreviation RemoveLabelValue :=
  (RemoveLabelValue MapUnicodeToUpper growslice_cap).

Lemma store_ok_New (name : string) (version unused language : Z) :
  store_ok (New name version unused language).
Proof.
  unfold store_ok, New, OrderList. cbn.
  split; [split; cbn; lia|]. split; [constructor|].
  intros k. rewrite lookup_empty. split.
  - by intros ?%elem_of_nil.
  - by intros [? ?].
Qed.

(** A write that finds its name in the table leaves [Order] alone. *)
Lemma WriteLabelValueBefore_overwrite (r : CSFUtil) (lv old : LabelValue)
    (overwriteLabel : bool) (successor : string) :
  Values r !! ToUpper (Label_ValueString (LV_Label lv)) = Some old ->
  let r' := WriteLabelValueBefore r lv overwriteLabel successor in
  OrderList r' = OrderList r /\ (store_ok r -> store_ok r').
Proof.
  intros Hk. cbn zeta. unfold WriteLabelValueBefore. rewrite Hk.
  unfold store_ok, OrderList, set_entries. cbn [Order heap Values].
  split; [done|]. intros (Hs & Hnd & Hkeys).
  split; [done|]. split; [done|].
  apply keys_insert_old; [done|]. apply Hkeys. eauto.
Qed.

(** A write of a new name whose successor is not in the table appends. *)
Lemma WriteLabelValueBefore_append (r : CSFUtil) (lv : LabelValue)
    (overwriteLabel : bool) (successor : string) :
  store_ok r ->
  Values r !! ToUpper (Label_ValueString (LV_Label lv)) = None ->
  Values r !! ToUpper successor = None ->
  let r' := WriteLabelValueBefore r lv overwriteLabel successor in
  OrderList r' = OrderList r ++ [ToUpper (Label_ValueString (LV_Label lv))]
  /\ store_ok r'.
Proof.
  intros (Hs & Hnd & Hkeys) Hk Hsucc. cbn zeta.
  unfold WriteLabelValueBefore. rewrite Hk, Hsucc.
  set (k := ToUpper (Label_ValueString (LV_Label lv))) in *.
  destruct (append1_spec growslice_cap (heap r) (Order r) k Hs) as [Hs' He'].
  destruct (append1 growslice_cap (heap r) (Order r) k) as [m1 order].
  cbn [fst snd] in Hs', He'.
  unfold store_ok, OrderList, set_entries in *. cbn [Order heap Values].
  split; [done|]. split; [done|]. rewrite He'. split.
  - apply NoDup_app. split; [done|]. split; [|apply NoDup_singleton].
    intros x Hx ->%list_elem_of_singleton.
    apply Hkeys in Hx. rewrite Hk in Hx. by destruct Hx.
  - by apply keys_insert_new.
Qed.

(** A write of a new name whose successor is in the table, at index [j]
    of [Order]: the inner [append] stores the new name in the array slot
    of the successor, which the outer [append] then copies. The successor
    is gone from [Order] and the new name is there twice. *)
Lemma WriteLabelValueBefore_middle (r : CSFUtil) (lv : LabelValue)
    (overwriteLabel : bool) (successor : string) :
  store_ok r ->
  Values r !! ToUpper (Label_ValueString (LV_Label lv)) = None ->
  is_Some (Values r !! ToUpper successor) ->
  let k := ToUpper (Label_ValueString (LV_Label lv)) in
  let r' := WriteLabelValueBefore r lv overwriteLabel successor in
  exists j,
    OrderList r !! j = Some (ToUpper successor)
    /\ OrderList r' = take j (OrderList r) ++ [k; k] ++ drop (S j) (OrderList r).
Proof.
  intros (Hs & Hnd & Hkeys) Hk [sv Hsucc]. cbn zeta.
  unfold WriteLabelValueBefore. rewrite Hk, Hsucc.
  set (k := ToUpper (Label_ValueString (LV_Label lv))) in *.
  set (su := ToUpper successor) in *.
  pose proof (elems_length _ _ Hs) as Hlen. fold (OrderList r) in Hlen.
  destruct (last_match_spec su (OrderList r) 0 (slen (Order r)))
    as [[Hnin _]|(j & Hj & -> & Hlk & _)].
  { exfalso. apply Hnin, Hkeys. eauto. }
  exists j. split; [done|]. cbn [Nat.add].
  destruct Hs as [Ha Hl]. rewrite Hlen in Hj.
  (* the inner append writes in place *)
  set (m1 := <[array (Order r) := <[(first (Order r) + j)%nat := k]>
                                     (array_of (heap r) (Order r))]> (heap r)).
  set (head := mkSlice (array (Order r)) (first (Order r)) (j + 1)).
  assert (Happ : append1 growslice_cap (heap r) (reslice (Order r) 0 j) k
                 = (m1, head)).
  { unfold append1, cap, array_of, reslice. cbn [array first slen].
    fold (array_of (heap r) (Order r)).
    rewrite Nat.add_0_r, Nat.sub_0_r.
    destruct (Nat.ltb_spec j (length (array_of (heap r) (Order r))
                              - first (Order r))) as [_|?]; [done|lia]. }
  rewrite Happ. cbv beta iota zeta.
  assert (Hm1 : elems m1 (Order r) = <[j := k]> (OrderList r))
    by (by apply elems_whole_insert).
  assert (Hs1 : slice_ok m1 (Order r)).
  { split; [by unfold m1; rewrite length_insert|].
    destruct (Order r) as [a f n]. unfold m1. cbn [array first slen] in *.
    rewrite array_of_insert, length_insert by done. done. }
  assert (Hhead : head = reslice (Order r) 0 (j + 1)).
  { unfold head, reslice. f_equal; lia. }
  destruct (appendv_spec growslice_cap m1 head
              (reslice (Order r) j (slen (Order r)))) as [_ He].
  { rewrite Hhead. apply slice_ok_reslice; [done|lia|lia]. }
  { apply slice_ok_reslice; [done|lia|lia]. }
  destruct (appendv growslice_cap m1 head _) as [m2 order].
  cbn [fst snd] in He.
  unfold OrderList at 1, set_entries. cbn [Order heap].
  rewrite He, Hhead, !elems_reslice, Hm1 by lia.
  rewrite drop_0, <- Hlen.
  rewrite (take_ge (<[j:=k]> (OrderList r)) (length (OrderList r)))
    by (by rewrite length_insert).
  rewrite Nat.add_1_r.
  erewrite take_S_r by (apply list_lookup_insert_eq; lia).
  rewrite take_insert_ge by lia.
  rewrite drop_insert_ge by lia. rewrite Nat.sub_diag.
  erewrite (drop_S (OrderList r)) by done.
  cbn [insert list_insert]. by rewrite <- app_assoc.
Qed.

Lemma NoDup_remove_middle (l : list string) (j : nat) (x : string) :
  NoDup l -> l !! j = Some x ->
  NoDup (take j l ++ drop (S j) l)
  /\ (forall k, k ∈ take j l ++ drop (S j) l <-> k ∈ l /\ k <> x).
Proof.
  intros Hnd Hj. rewrite <- (take_drop_middle l j x Hj) in Hnd at 1.
  apply NoDup_app in Hnd as (H1 & H2 & H3).
  apply NoDup_cons in H3 as [H3 H4].
  split.
  - apply NoDup_app. split; [done|]. split; [|done].
    intros y Hy Hy'. apply (H2 y Hy). by apply list_elem_of_further.
  - intros k. rewrite <- (take_drop_middle l j x Hj) at 3.
    rewrite !elem_of_app, elem_of_cons. split.
    + intros [Hk|Hk].
      * split; [by left|]. intros ->. apply (H2 x Hk). apply list_elem_of_here.
      * split; [by right; right|]. by intros ->.
    + intros [[Hk|[->|Hk]] Hne]; [by left|done|by right].
Qed.

(** [RemoveLabelValue] keeps the invariant of the store. *)
Lemma RemoveLabelValue_store_ok (r : CSFUtil) (name : string) :
  store_ok r -> store_ok (RemoveLabelValue r name).
Proof.
  intros (Hs & Hnd & Hkeys). unfold RemoveLabelValue.
  destruct (Nat.eqb_spec (slen (Order r)) 0) as [_|Hne]; [done|].
  set (u := ToUpper name).
  pose proof (elems_length _ _ Hs) as Hlen. fold (OrderList r) in Hlen.
  destruct (first_match_spec u (OrderList r) 0) as [[Hnin ->]|(j & -> & Hj & _)].
  - unfold store_ok, OrderList, set_entries. cbn [Order heap Values].
    split; [done|]. split; [done|]. intros k.
    rewrite lookup_delete_is_Some, <- Hkeys. split.
    + intros Hk. split; [|done]. by intros <-.
    + by intros [_ ?].
  - cbn [Nat.add].
    destruct (NoDup_remove_middle _ _ _ Hnd Hj) as [Hnd' Hin'].
    pose proof (lookup_lt_Some _ _ _ Hj) as Hjl. rewrite Hlen in Hjl.
    destruct (Nat.ltb_spec 1 (slen (Order r))) as [H1|H1].
    + destruct (appendv_spec growslice_cap (heap r) (reslice (Order r) 0 j)
                  (reslice (Order r) (j + 1) (slen (Order r)))) as [Hs' He'].
      { apply slice_ok_reslice; [done|lia|lia]. }
      { apply slice_ok_reslice; [done|lia|lia]. }
      destruct (appendv _ _ _ _) as [m1 order]. cbn [fst snd] in Hs', He'.
      rewrite !elems_reslice in He' by lia.
      fold (OrderList r) in He'.
      rewrite drop_0, <- Hlen, (take_ge (OrderList r) (length (OrderList r))) in He'
        by lia.
      rewrite Nat.add_1_r in He'.
      unfold store_ok, OrderList, set_entries. cbn [Order heap Values].
      rewrite He'. split; [done|]. split; [done|]. intros k.
      rewrite Hin', lookup_delete_is_Some, <- Hkeys.
      fold (OrderList r). split; intros [? ?]; split; congruence.
    + destruct (empty_slice_ok (heap r)) as [Hs' He'].
      destruct (empty_slice (heap r)) as [m1 order]. cbn [fst snd] in Hs', He'.
      unfold store_ok, OrderList, set_entries. cbn [Order heap Values].
      rewrite He'. split; [done|]. split; [constructor|]. intros k.
      rewrite lookup_delete_is_Some, <- Hkeys. fold (OrderList r).
      assert (Hone : OrderList r = [u]).
      { destruct (OrderList r) as [|x [|y l]] eqn:E; cbn in Hlen; try lia.
        destruct j; [|cbn in Hjl; lia]. cbn in Hj. congruence. }
      rewrite Hone. split; [by intros ?%elem_of_nil|].
      intros [Hne' ->%list_elem_of_singleton]. done.
Qed.

(** C6, as the code has it (categories and writes). Neither
    [WriteLabelValueBefore] nor [WriteLabelValue] touches the category
    index: whatever is written, under a new name or an old one, the
    categories after the call are the categories before it. The prefix rule
    is applied by the decoding loop of [Open] only. *)
Theorem write_leaves_categories_unchanged (r : CSFUtil) (lv : LabelValue)
    (overwriteLabel : bool) (successor : string) :
  Categories (WriteLabelValueBefore r lv overwriteLabel successor) = Categories r
  /\ Categories (WriteLabelValue r lv overwriteLabel) = Categories r.
Proof.
  assert (H : forall s,
    Categories (WriteLabelValueBefore r lv overwriteLabel s) = Categories r).
  { intros s. unfold WriteLabelValueBefore.
    destruct (Values r !! _) as [old|]; [done|].
    destruct (Values r !! _) as [sv|].
    - destruct (append1 _ _ _ _) as [m1 head].
      by destruct (appendv _ _ _ _) as [m2 order].
    - by destruct (append1 _ _ _ _) as [m1 order]. }
  split; [apply H | apply (H EmptyString)].
Qed.

End Store.

(** ** The value text: UTF-16LE and the complement *)

Lemma lor_lt_pow2 (a b n : Z) :
  0 <= n -> 0 <= a < 2 ^ n -> 0 <= b < 2 ^ n -> 0 <= Z.lor a b < 2 ^ n.
Proof.
  intros Hn Ha Hb.
  assert (H : Z.lor a b = Z.lor a b mod 2 ^ n).
  { Z.bitblast. rewrite (testbit_high a n i), (testbit_high b n i) by lia. done. }
  rewrite H. apply Z.mod_pos_bound. lia.
Qed.

Lemma land_ones_bound (a k : Z) :
  0 <= k -> 0 <= Z.land a (Z.ones k) < 2 ^ k.
Proof. intros Hk. rewrite Z.land_ones by done. apply Z.mod_pos_bound. lia. Qed.

Lemma uint16_bytes (r : Z) :
  0 <= r < 2 ^ 16 ->
  Z.lor (byte_to_Z (byte_of_Z r)) (Z.shiftl (byte_to_Z (byte_of_Z (Z.shiftr r 8))) 8)
  = r.
Proof.
  intros Hr. rewrite !byte_to_of_Z. change 256 with (2 ^ 8).
  Z.bitblast. symmetry. apply (testbit_high r 16); lia.
Qed.

Lemma uint16s_of_bytes_of_uint16s (cs : list Z) :
  Forall (fun c => 0 <= c < 2 ^ 16) cs ->
  uint16s_of_bytes (bytes_of_uint16s cs) = cs.
Proof.
  induction 1 as [|c cs Hc _ IH]; [done|].
  unfold bytes_of_uint16s in *. cbn [flat_map app uint16s_of_bytes].
  by rewrite uint16_bytes, IH.
Qed.

Lemma bytes_of_uint16s_length (cs : list Z) :
  length (bytes_of_uint16s cs) = (2 * length cs)%nat.
Proof.
  unfold bytes_of_uint16s. induction cs as [|c cs IH]; [done|].
  cbn [flat_map app length]. rewrite IH. lia.
Qed.

Lemma surrogate_pair (x : Z) :
  0 <= x < 2 ^ 20 ->
  Z.lor (Z.shiftl (Z.land (Z.shiftr x 10) 1023) 10) (Z.land x 1023) = x.
Proof.
  intros Hx. change 1023 with (Z.ones 10).
  Z.bitblast. by rewrite (testbit_high x 20) by lia.
Qed.

Lemma Encode_range (rs : list Z) :
  Forall (fun c => 0 <= c < 2 ^ 16) (utf16.Encode rs).
Proof.
  assert (H : forall x, 0 <= uint16 x < 2 ^ 16)
    by (intros x; apply Z.mod_pos_bound; lia).
  induction rs as [|r rs IH]; [constructor|].
  cbn [utf16.Encode]. destruct (utf16.RuneLen r =? 1).
  { constructor; [apply H | exact IH]. }
  destruct (utf16.RuneLen r =? 2).
  - destruct (utf16.EncodeRune r) as [r1 r2].
    constructor; [apply H|]. constructor; [apply H | exact IH].
  - constructor; [apply H | exact IH].
Qed.

(** [utf16.Decode] undoes [utf16.Encode] on code points that are not
    surrogates. *)
Lemma Decode_Encode (rs : list Z) :
  Forall (fun r => utf8.ValidRune r = true) rs ->
  utf16.Decode (utf16.Encode rs) = rs.
Proof.
  unfold utf16.Decode. induction 1 as [|r rs Hr _ IH]; [done|].
  cbn [utf16.Encode]. unfold utf8.ValidRune, utf8.surrogateMin,
    utf8.surrogateMax, utf8.MaxRune in Hr.
  unfold utf16.RuneLen, utf16.surr1, utf16.surr3, utf16.surrSelf, utf16.maxRune.
  destruct (Z.lt_ge_cases r 65536) as [Hlt|Hge].
  - (* a code point of the basic plane is one code unit *)
    assert (Hbmp : ((0 <=? r) && (r <? 55296)) || ((57344 <=? r) && (r <? 65536)) = true)
      by lia.
    rewrite Hbmp. cbn [Z.eqb Pos.eqb].
    assert (Hu : uint16 r = r) by (unfold uint16; apply Z.mod_small; lia).
    rewrite Hu. cbn [utf16.Decode_from].
    unfold utf16.surr1, utf16.surr3.
    assert (Hn : (r <? 55296) || (57344 <=? r) = true) by lia.
    by rewrite Hn, IH.
  - (* a code point beyond it is a surrogate pair *)
    assert (Hbmp : ((0 <=? r) && (r <? 55296)) || ((57344 <=? r) && (r <? 65536)) = false)
      by lia.
    assert (Hsup : (65536 <=? r) && (r <=? 1114111) = true) by lia.
    rewrite Hbmp, Hsup. cbn [Z.eqb Pos.eqb].
    unfold utf16.EncodeRune, utf16.surrSelf, utf16.maxRune, utf16.surr1,
      utf16.surr2.
    assert (Hno : (r <? 65536) || (1114111 <? r) = false) by lia.
    rewrite Hno.
    set (x := r - 65536).
    assert (Hx : 0 <= x < 2 ^ 20) by (unfold x; lia).
    pose proof (land_ones_bound (Z.shiftr x 10) 10 ltac:(lia)) as Hhi.
    pose proof (land_ones_bound x 10 ltac:(lia)) as Hlo.
    change (Z.ones 10) with 1023 in Hhi, Hlo. change (2 ^ 10) with 1024 in Hhi, Hlo.
    set (hi := Z.land (Z.shiftr x 10) 1023) in *.
    set (lo := Z.land x 1023) in *.
    assert (H1 : uint16 (55296 + hi) = 55296 + hi)
      by (unfold uint16; apply Z.mod_small; lia).
    assert (H2 : uint16 (56320 + lo) = 56320 + lo)
      by (unfold uint16; apply Z.mod_small; lia).
    rewrite H1, H2. cbn [utf16.Decode_from].
    unfold utf16.surr1, utf16.surr2, utf16.surr3.
    assert (Hn : (55296 + hi <? 55296) || (57344 <=? 55296 + hi) = false) by lia.
    assert (Hp : (55296 <=? 55296 + hi) && (55296 + hi <? 56320)
                 && (56320 <=? 56320 + lo) && (56320 + lo <? 57344) = true) by lia.
    rewrite Hn, Hp, IH. f_equal.
    unfold utf16.DecodeRune, utf16.surr1, utf16.surr2, utf16.surr3,
      utf16.surrSelf. rewrite Hp.
    replace (55296 + hi - 55296) with hi by lia.
    replace (56320 + lo - 56320) with lo by lia.
    unfold hi, lo. rewrite surrogate_pair by done. unfold x. lia.
Qed.

Lemma RuneError_valid : utf8.ValidRune utf8.RuneError = true.
Proof. reflexivity. Qed.

(** What [decoderune] returns is never a surrogate nor out of range. *)
Lemma decoderune_valid (s : bytes) :
  utf8.ValidRune (utf8.decoderune s).1 = true.
Proof.
  unfold utf8.decoderune.
  destruct s as [|c0 s]; cbn [map]; [done|].
  pose proof (byte_to_Z_range c0) as H0. set (s0 := byte_to_Z c0) in *.
  pose proof (land_ones_bound s0 5 ltac:(lia)) as M2.
  pose proof (land_ones_bound s0 4 ltac:(lia)) as M3.
  change (Z.ones 5) with 31 in M2. change (Z.ones 4) with 15 in M3.
  destruct ((utf8.t2 <=? s0) && (s0 <? utf8.t3)).
  { destruct s as [|c1 s]; cbn [map]; [done|].
    destruct (utf8.cont _); [|done].
    pose proof (land_ones_bound (byte_to_Z c1) 6 ltac:(lia)) as X1.
    change (Z.ones 6) with 63 in X1.
    unfold utf8.mask2, utf8.maskx, utf8.rune1Max.
    set (r := Z.lor _ _).
    assert (Hr : 0 <= r < 2 ^ 11).
    { apply lor_lt_pow2; [lia| |lia].
      rewrite Z.shiftl_mul_pow2 by lia. lia. }
    destruct (Z.ltb_spec 127 r); [|done]. cbn [fst].
    unfold utf8.ValidRune, utf8.surrogateMin, utf8.surrogateMax, utf8.MaxRune.
    lia. }
  destruct ((utf8.t3 <=? s0) && (s0 <? utf8.t4)).
  { destruct s as [|c1 [|c2 s]]; cbn [map]; [done..|].
    destruct (utf8.cont _ && utf8.cont _); [|done].
    pose proof (land_ones_bound (byte_to_Z c1) 6 ltac:(lia)) as X1.
    pose proof (land_ones_bound (byte_to_Z c2) 6 ltac:(lia)) as X2.
    change (Z.ones 6) with 63 in X1, X2.
    unfold utf8.mask3, utf8.maskx, utf8.rune2Max, utf8.surrogateMin,
      utf8.surrogateMax.
    set (r := Z.lor _ _).
    assert (Hr : 0 <= r < 2 ^ 16).
    { apply lor_lt_pow2; [lia| |lia].
      apply lor_lt_pow2; [lia| |]; rewrite Z.shiftl_mul_pow2 by lia; lia. }
    destruct ((2047 <? r) && negb ((55296 <=? r) && (r <=? 57343))) eqn:E;
      [|done]. cbn [fst].
    unfold utf8.ValidRune, utf8.surrogateMin, utf8.surrogateMax, utf8.MaxRune.
    lia. }
  destruct ((utf8.t4 <=? s0) && (s0 <? utf8.t5)); [|done].
  destruct s as [|c1 [|c2 [|c3 s]]]; cbn [map]; [done..|].
  destruct (utf8.cont _ && utf8.cont _ && utf8.cont _); [|done].
  unfold utf8.rune3Max, utf8.MaxRune.
  set (r := Z.lor _ _).
  destruct ((65535 <? r) && (r <=? 1114111)) eqn:E; [|done]. cbn [fst].
  unfold utf8.ValidRune, utf8.surrogateMin, utf8.surrogateMax, utf8.MaxRune.
  lia.
Qed.

Lemma range_runes_valid (s : bytes) :
  forall skip, Forall (fun r => utf8.ValidRune r = true) (utf8.range_runes skip s).
Proof.
  induction s as [|c s IH]; intros skip; cbn [utf8.range_runes]; [constructor|].
  destruct skip as [|k]; [|apply IH].
  pose proof (byte_to_Z_range c) as Hc.
  destruct (Z.ltb_spec (byte_to_Z c) utf8.RuneSelf) as [Hlt|_].
  - constructor; [|apply IH].
    unfold utf8.ValidRune, utf8.RuneSelf, utf8.surrogateMin in *. lia.
  - pose proof (decoderune_valid (c :: s)) as Hv.
    destruct (utf8.decoderune (c :: s)) as [r w]. constructor; [exact Hv|apply IH].
Qed.

(** Decoding what [EncodeUTF16] encoded gives the string as Go's
    conversions to runes and back leave it. *)
Lemma DecodeUTF16_EncodeUTF16 (s : string) :
  DecodeUTF16 (EncodeUTF16 s)
  = Ok (utf8.string_of_runes (utf8.runes_of_string s)).
Proof.
  unfold DecodeUTF16, EncodeUTF16.
  set (rs := utf8.runes_of_string s).
  assert (Hrs : utf16.Decode (utf16.Encode rs) = rs)
    by apply Decode_Encode, range_runes_valid.
  unfold len. rewrite bytes_of_uint16s_length.
  destruct (utf16.Encode rs) as [|c cs] eqn:E.
  - cbn in Hrs. by rewrite <- Hrs.
  - cbn [length]. destruct (Z.eqb_spec (Z.of_nat (2 * S (length cs))) 0); [lia|].
    replace (Z.of_nat (2 * S (length cs)) mod 2) with 0
      by (rewrite Nat2Z.inj_mul, Z.mul_comm, Z_mod_mult; done).
    cbn [Z.eqb negb].
    rewrite uint16s_of_bytes_of_uint16s, Hrs; [done|].
    rewrite <- E. apply Encode_range.
Qed.

(** The text that [Value.Write] stored reads back, for every string, as
    the string after Go's conversion to runes and back. *)
Lemma ValueString_Write (v : Value) (s : string) :
  ValueString (Value_Write v s)
  = utf8.string_of_runes (utf8.runes_of_string s).
Proof.
  unfold ValueString, Value_Write. cbn [Value_Value].
  by rewrite complement_involutive, DecodeUTF16_EncodeUTF16.
Qed.

(** *** Valid UTF-8 is what encodes code points *)

Lemma lor_add (x b k : Z) :
  0 <= k -> 0 <= x -> 0 <= b < 2 ^ k -> x mod 2 ^ k = 0 ->
  Z.lor x b = x + b.
Proof.
  intros Hk Hx Hb Hm.
  assert (Hl : Z.land x b = 0).
  { apply Z.bits_inj'. intros i Hi. rewrite Z.land_spec, Z.bits_0.
    destruct (Z.lt_ge_cases i k) as [Hlt|Hge].
    - assert (Z.testbit x i = false) as ->; [|done].
      rewrite <- (Z.mod_pow2_bits_low x k i) by lia. rewrite Hm. apply Z.bits_0.
    - rewrite (testbit_high b k i) by lia. apply andb_false_r. }
  pose proof (Z.add_lor_land x b). lia.
Qed.

Lemma byte_of_Z_small (z : Z) :
  0 <= z < 256 -> byte_to_Z (byte_of_Z z) = z.
Proof. intros Hz. rewrite byte_to_of_Z. apply Z.mod_small. lia. Qed.

Ltac bits_to_arith :=
  repeat first
    [ rewrite Z.shiftr_div_pow2 by lia
    | rewrite Z.shiftl_mul_pow2 by lia
    | progress change 63 with (Z.ones 6)
    | progress change 31 with (Z.ones 5)
    | progress change 15 with (Z.ones 4)
    | progress change 7 with (Z.ones 3)
    | rewrite Z.land_ones by lia ];
  change (2 ^ 3) with 8; change (2 ^ 4) with 16; change (2 ^ 5) with 32;
  change (2 ^ 6) with 64; change (2 ^ 12) with 4096; change (2 ^ 18) with 262144.

(** The two bytes of a code point from U+0080 to U+07FF, and the code
    point they decode to. *)
Lemma two_bytes (r : Z) :
  128 <= r <= 2047 ->
  let b0 := Z.lor 192 (Z.shiftr r 6 mod 256) in
  let b1 := Z.lor 128 (Z.land (r mod 256) 63) in
  192 <= b0 < 224 /\ 128 <= b1 <= 191
  /\ Z.lor (Z.shiftl (Z.land b0 31) 6) (Z.land b1 63) = r.
Proof.
  intros Hr. cbn zeta. bits_to_arith.
  rewrite (lor_add 192 _ 6) by (try done; Z.div_mod_to_equations; lia).
  rewrite (lor_add 128 _ 7) by (try done; Z.div_mod_to_equations; lia).
  rewrite (lor_add (_ * 64) _ 6) by (try done; Z.div_mod_to_equations; lia).
  Z.div_mod_to_equations. lia.
Qed.

Lemma three_bytes (r : Z) :
  2048 <= r <= 65535 ->
  let b0 := Z.lor 224 (Z.shiftr r 12 mod 256) in
  let b1 := Z.lor 128 (Z.land (Z.shiftr r 6 mod 256) 63) in
  let b2 := Z.lor 128 (Z.land (r mod 256) 63) in
  224 <= b0 < 240 /\ 128 <= b1 <= 191 /\ 128 <= b2 <= 191
  /\ Z.lor (Z.lor (Z.shiftl (Z.land b0 15) 12) (Z.shiftl (Z.land b1 63) 6))
           (Z.land b2 63) = r.
Proof.
  intros Hr. cbn zeta. bits_to_arith.
  rewrite (lor_add 224 _ 5) by (try done; Z.div_mod_to_equations; lia).
  rewrite !(lor_add 128 _ 7) by (try done; Z.div_mod_to_equations; lia).
  rewrite (lor_add (_ * 4096) _ 12) by (try done; Z.div_mod_to_equations; lia).
  rewrite (lor_add (_ + _ * 64) _ 6) by (try done; Z.div_mod_to_equations; lia).
  Z.div_mod_to_equations. lia.
Qed.

Lemma four_bytes (r : Z) :
  65536 <= r <= 1114111 ->
  let b0 := Z.lor 240 (Z.shiftr r 18 mod 256) in
  let b1 := Z.lor 128 (Z.land (Z.shiftr r 12 mod 256) 63) in
  let b2 := Z.lor 128 (Z.land (Z.shiftr r 6 mod 256) 63) in
  let b3 := Z.lor 128 (Z.land (r mod 256) 63) in
  240 <= b0 < 248 /\ 128 <= b1 <= 191 /\ 128 <= b2 <= 191 /\ 128 <= b3 <= 191
  /\ Z.lor (Z.lor (Z.lor (Z.shiftl (Z.land b0 7) 18)
                         (Z.shiftl (Z.land b1 63) 12))
                  (Z.shiftl (Z.land b2 63) 6))
           (Z.land b3 63) = r.
Proof.
  intros Hr. cbn zeta. bits_to_arith.
  rewrite (lor_add 240 _ 4) by (try done; Z.div_mod_to_equations; lia).
  rewrite !(lor_add 128 _ 7) by (try done; Z.div_mod_to_equations; lia).
  rewrite (lor_add (_ * 262144) _ 18) by (try done; Z.div_mod_to_equations; lia).
  rewrite (lor_add (_ + _ * 4096) _ 12) by (try done; Z.div_mod_to_equations; lia).
  rewrite (lor_add (_ + _ * 64) _ 6) by (try done; Z.div_mod_to_equations; lia).
  Z.div_mod_to_equations. lia.
Qed.

Lemma range_runes_encoderune (r : Z) (tail : bytes) :
  utf8.ValidRune r = true ->
  utf8.range_runes 0 (utf8.encoderune r ++ tail) = r :: utf8.range_runes 0 tail.
Proof.
  unfold utf8.ValidRune, utf8.surrogateMin, utf8.surrogateMax, utf8.MaxRune.
  intros Hv. unfold utf8.encoderune, utf8.rune1Max, utf8.rune2Max,
    utf8.rune3Max, utf8.MaxRune, utf8.surrogateMin, utf8.surrogateMax,
    utf8.t2, utf8.t3, utf8.t4, utf8.tx, utf8.maskx.
  destruct (Z.leb_spec r 127) as [H1|H1].
  { (* one byte *)
    cbn [app utf8.range_runes]. rewrite byte_of_Z_small by lia.
    unfold utf8.RuneSelf. destruct (Z.ltb_spec r 128); [done|lia]. }
  destruct (Z.leb_spec r 2047) as [H2|H2].
  { (* two bytes *)
    destruct (two_bytes r ltac:(lia)) as (B0 & B1 & Hdec).
    cbn zeta in B0, B1, Hdec. cbn [app utf8.range_runes].
    rewrite byte_of_Z_small by lia. unfold utf8.RuneSelf.
    destruct (Z.ltb_spec (Z.lor 192 (Z.shiftr r 6 mod 256)) 128); [lia|].
    unfold utf8.decoderune. cbn [map].
    rewrite !byte_of_Z_small by lia.
    unfold utf8.t2, utf8.t3, utf8.cont, utf8.locb, utf8.hicb, utf8.mask2,
      utf8.maskx, utf8.rune1Max.
    rewrite Hdec.
    replace ((192 <=? Z.lor 192 (Z.shiftr r 6 mod 256))
             && (Z.lor 192 (Z.shiftr r 6 mod 256) <? 224)) with true by lia.
    replace ((128 <=? Z.lor 128 (Z.land (r mod 256) 63))
             && (Z.lor 128 (Z.land (r mod 256) 63) <=? 191)) with true by lia.
    replace (127 <? r) with true by lia. reflexivity. }
  assert (Hns : (1114111 <? r) || ((55296 <=? r) && (r <=? 57343)) = false) by lia.
  rewrite Hns.
  destruct (Z.leb_spec r 65535) as [H3|H3].
  { (* three bytes *)
    destruct (three_bytes r ltac:(lia)) as (B0 & B1 & B2 & Hdec).
    cbn zeta in B0, B1, B2, Hdec. cbn [app utf8.range_runes].
    rewrite byte_of_Z_small by lia. unfold utf8.RuneSelf.
    destruct (Z.ltb_spec (Z.lor 224 (Z.shiftr r 12 mod 256)) 128); [lia|].
    unfold utf8.decoderune. cbn [map].
    rewrite !byte_of_Z_small by lia.
    unfold utf8.t2, utf8.t3, utf8.t4, utf8.cont, utf8.locb, utf8.hicb,
      utf8.mask3, utf8.maskx, utf8.rune2Max, utf8.surrogateMin,
      utf8.surrogateMax.
    rewrite Hdec.
    replace ((192 <=? Z.lor 224 (Z.shiftr r 12 mod 256))
             && (Z.lor 224 (Z.shiftr r 12 mod 256) <? 224)) with false by lia.
    replace ((224 <=? Z.lor 224 (Z.shiftr r 12 mod 256))
             && (Z.lor 224 (Z.shiftr r 12 mod 256) <? 240)) with true by lia.
    replace ((128 <=? Z.lor 128 (Z.land (Z.shiftr r 6 mod 256) 63))
             && (Z.lor 128 (Z.land (Z.shiftr r 6 mod 256) 63) <=? 191))
      with true by lia.
    replace ((128 <=? Z.lor 128 (Z.land (r mod 256) 63))
             && (Z.lor 128 (Z.land (r mod 256) 63) <=? 191)) with true by lia.
    replace ((2047 <? r) && negb ((55296 <=? r) && (r <=? 57343)))
      with true by lia.
    reflexivity. }
  (* four bytes *)
  destruct (four_bytes r ltac:(lia)) as (B0 & B1 & B2 & B3 & Hdec).
  cbn zeta in B0, B1, B2, B3, Hdec. cbn [app utf8.range_runes].
  rewrite byte_of_Z_small by lia. unfold utf8.RuneSelf.
  destruct (Z.ltb_spec (Z.lor 240 (Z.shiftr r 18 mod 256)) 128); [lia|].
  unfold utf8.decoderune. cbn [map].
  rewrite !byte_of_Z_small by lia.
  unfold utf8.t2, utf8.t3, utf8.t4, utf8.t5, utf8.cont, utf8.locb, utf8.hicb,
    utf8.mask4, utf8.maskx, utf8.rune3Max, utf8.MaxRune.
  rewrite Hdec.
  replace ((192 <=? Z.lor 240 (Z.shiftr r 18 mod 256))
           && (Z.lor 240 (Z.shiftr r 18 mod 256) <? 224)) with false by lia.
  replace ((224 <=? Z.lor 240 (Z.shiftr r 18 mod 256))
           && (Z.lor 240 (Z.shiftr r 18 mod 256) <? 240)) with false by lia.
  replace ((240 <=? Z.lor 240 (Z.shiftr r 18 mod 256))
           && (Z.lor 240 (Z.shiftr r 18 mod 256) <? 248)) with true by lia.
  replace ((128 <=? Z.lor 128 (Z.land (Z.shiftr r 12 mod 256) 63))
           && (Z.lor 128 (Z.land (Z.shiftr r 12 mod 256) 63) <=? 191))
    with true by lia.
  replace ((128 <=? Z.lor 128 (Z.land (Z.shiftr r 6 mod 256) 63))
           && (Z.lor 128 (Z.land (Z.shiftr r 6 mod 256) 63) <=? 191))
    with true by lia.
  replace ((128 <=? Z.lor 128 (Z.land (r mod 256) 63))
           && (Z.lor 128 (Z.land (r mod 256) 63) <=? 191)) with true by lia.
  replace ((65535 <? r) && (r <=? 1114111)) with true by lia.
  reflexivity.
Qed.

(** Converting code points to a string and the string to code points
    gives the code points back, when none is a surrogate or out of range. *)
Lemma runes_of_string_of_runes (rs : list Z) :
  Forall (fun r => utf8.ValidRune r = true) rs ->
  utf8.runes_of_string (utf8.string_of_runes rs) = rs.
Proof.
  unfold utf8.runes_of_string, utf8.string_of_runes.
  rewrite bytes_string_bytes.
  induction 1 as [|r rs Hr _ IH]; [done|].
  cbn [map concat]. by rewrite range_runes_encoderune, IH.
Qed.

(** The valid strings are the encodings of sequences of code points that
    are not surrogates and not beyond U+10FFFF. *)
Lemma ValidString_iff (s : string) :
  utf8.ValidString s
  <-> exists rs, Forall (fun r => utf8.ValidRune r = true) rs
                 /\ s = utf8.string_of_runes rs.
Proof.
  unfold utf8.ValidString. split.
  - intros Hs. exists (utf8.runes_of_string s). split; [|done].
    apply range_runes_valid.
  - intros (rs & Hrs & ->). by rewrite runes_of_string_of_runes.
Qed.

(** C7, as the code has it (the byte transform). Complementing every byte
    twice gives the bytes back. For every string that is valid UTF-8,
    writing it as a value text (UTF-16LE, then every byte complemented) and
    reading it back (complement, then UTF-16LE decoding) gives the string
    back; the valid strings are the encodings of code points that are
    not surrogates ([ValidString_iff]). The extra value is stored and
    returned as the bytes of the string, untransformed. *)
Theorem value_text_roundtrip (b : bytes) (v : Value) (s extra : string) :
  utf8.ValidString s ->
  complement (complement b) = b
  /\ ValueString (Value_Write v s) = s
  /\ ExtraValue (WriteExtra v extra) = bytes_of_string extra
  /\ ExtraValueString (WriteExtra v extra) = extra.
Proof.
  intros Hs. split; [apply complement_involutive|].
  split; [by rewrite ValueString_Write|].
  split; [done|]. unfold ExtraValueString, WriteExtra. cbn.
  apply string_bytes_string.
Qed.

(** ** The scenarios *)

(** C2 (the minimal table, encoded and decoded). The bytes that [Save]
    writes for the table with header (3, 1, 1, 0, 0) and the single entry
    "TXT:Greeting" -> "Hello!" are decoded by [Open] without error; the
    entry stored under "TXT:GREETING" has the value string "Hello!"; but the
    category map sends "TXT" to the empty list, not to ["TXT:Greeting"]:
    the loop of [readContent] creates the list of a category empty when
    it meets the category's first label, and appends only the later ones. *)
Theorem greeting_roundtrip_loses_category_member :
  (Version greeting_table, NumLabels greeting_table, NumStrings greeting_table,
   Unused greeting_table, Language greeting_table) = (3, 1, 1, 0, 0)
  /\ match Open no_unicode double_cap "greeting.csf" greeting_bytes with
     | Some (r, None) =>
         ValueString (LV_Value (default zeroLabelValue
                                  (Values r !! "TXT:GREETING"%string)))
         = "Hello!"%string
         /\ OrderList r = ["TXT:GREETING"%string]
         /\ Categories r !! "TXT"%string = Some []
     | _ => False
     end.
Proof. split; [reflexivity|]. vm_compute. repeat split. Qed.

(** C3 (uniqueness of [Order]). Starting from the new, empty table, which
    satisfies the invariant, write "TXT:A" and then write "TXT:B" before
    "TXT:A". The table before the second write satisfies the invariant;
    after it [Order] is ["TXT:B"; "TXT:B"]: the name is there twice, and
    "TXT:A", still a key of [Values], is not in [Order]. *)
Theorem write_before_breaks_order_invariant :
  let r1 := WriteLabelValue no_unicode double_cap (New "t.csf" 3 0 0)
              (NewLabelValue "TXT:A" "first" []) false in
  let r2 := WriteLabelValueBefore no_unicode double_cap r1
              (NewLabelValue "TXT:B" "second" []) false "TXT:A" in
  store_ok r1
  /\ OrderList r2 = ["TXT:B"; "TXT:B"]%string
  /\ ~ NoDup (OrderList r2)
  /\ is_Some (Values r2 !! "TXT:A"%string)
  /\ ("TXT:A"%string ∉ OrderList r2).
Proof.
  cbn zeta. split.
  { apply WriteLabelValueBefore_append; [apply store_ok_New | done | done]. }
  assert (H : OrderList
                (WriteLabelValueBefore no_unicode double_cap
                   (WriteLabelValue no_unicode double_cap (New "t.csf" 3 0 0)
                      (NewLabelValue "TXT:A" "first" []) false)
                   (NewLabelValue "TXT:B" "second" []) false "TXT:A")
              = ["TXT:B"; "TXT:B"]%string) by (vm_compute; reflexivity).
  rewrite H. split; [done|]. split.
  - intros Hnd. apply NoDup_cons in Hnd as [Hnin _].
    apply Hnin, list_elem_of_here.
  - split; [vm_compute; eauto|].
    intros Hin. apply elem_of_cons in Hin as [Heq|Hin]; [discriminate|].
    apply elem_of_cons in Hin as [Heq|Hin]; [discriminate|].
    by apply elem_of_nil in Hin.
Qed.

(** C4 (writing before a successor). In the table whose [Order] is
    ["TXT:A"; "TXT:C"], write the new entry "TXT:B" before "txt:c". The
    successor is found at index 1, the only match. The claim asks for
    ["TXT:A"; "TXT:B"; "TXT:C"]; the code leaves ["TXT:A"; "TXT:B"; "TXT:B"]:
    the slot of the successor is overwritten by the new name before the
    tail of the old order is copied behind it. *)
Theorem write_before_overwrites_successor :
  let r := WriteLabelValueBefore no_unicode double_cap table_AC
             (NewLabelValue "TXT:B" "second" []) false "txt:c" in
  OrderList table_AC = ["TXT:A"; "TXT:C"]%string
  /\ Values table_AC !! "TXT:B"%string = None
  /\ is_Some (Values table_AC !! ToUpper no_unicode "txt:c")
  /\ OrderList r = ["TXT:A"; "TXT:B"; "TXT:B"]%string
  /\ OrderList r <> ["TXT:A"; "TXT:B"; "TXT:C"]%string.
Proof.
  cbn zeta.
  assert (H : OrderList
                (WriteLabelValueBefore no_unicode double_cap table_AC
                   (NewLabelValue "TXT:B" "second" []) false "txt:c")
              = ["TXT:A"; "TXT:B"; "TXT:B"]%string) by (vm_compute; reflexivity).
  rewrite H.
  split; [vm_compute; reflexivity|]. split; [vm_compute; reflexivity|].
  split; [vm_compute; eauto|]. split; [done|]. discriminate.
Qed.

(** C6, as stated, fails: the write that puts "TXT:Greeting" into the new
    table inserts a name that was not there, and afterwards the category
    map has no category at all, so none that holds the name. *)
Lemma write_assigns_no_category :
  Values (New "greeting.csf" 3 0 0) !! "TXT:GREETING"%string = None
  /\ is_Some (Values greeting_table !! "TXT:GREETING"%string)
  /\ Categories greeting_table = ∅
  /\ ~ (exists l, Categories greeting_table !! "TXT"%string = Some l
                  /\ ("TXT:Greeting"%string ∈ l \/ "TXT:GREETING"%string ∈ l)).
Proof.
  split; [done|]. split; [vm_compute; eauto|].
  assert (H : Categories greeting_table = ∅) by (vm_compute; reflexivity).
  split; [done|]. rewrite H. intros (l & Hl & _). by rewrite lookup_empty in Hl.
Qed.

(** C7, as stated for all strings, fails: the string of the single byte
    0xFF is not valid UTF-8; [Value.Write] stores the code unit U+FFFD for
    it, and [ValueString] returns the three bytes of U+FFFD. *)
Lemma invalid_utf8_does_not_round_trip :
  ValueString (Value_Write zeroValue byte_ff)
  = String (ascii_of_N 239) (String (ascii_of_N 191)
      (String (ascii_of_N 189) EmptyString))
  /\ ValueString (Value_Write zeroValue byte_ff) <> byte_ff.
Proof.
  assert (H : ValueString (Value_Write zeroValue byte_ff)
              = String (ascii_of_N 239) (String (ascii_of_N 191)
                  (String (ascii_of_N 189) EmptyString)))
    by (vm_compute; reflexivity).
  rewrite H. split; [done|]. vm_compute. discriminate.
Qed.


(** ** The theorems at concrete inputs *)

(** C1 on a stream of two records, the second with an extra value. *)
Lemma save_after_open_reproduces_stream_witness :
  Wire.wf_header header3 = true
  /\ forallb Wire.wf_record [rec_greeting; rec_bye] = true
  /\ len [rec_greeting; rec_bye] <= 20000
  /\ NoDup (map (key no_unicode) [rec_greeting; rec_bye])
  /\ exists r,
       Open no_unicode double_cap "two.csf"
            (Wire.stream header3 [rec_greeting; rec_bye]) = Some (r, None)
       /\ Save_bytes r = Wire.stream header3 [rec_greeting; rec_bye].
Proof.
  assert (Hnd : NoDup (map (key no_unicode) [rec_greeting; rec_bye])).
  { apply (bool_decide_unpack _). vm_compute. exact I. }
  split; [reflexivity|]. split; [reflexivity|].
  split; [unfold len; simpl; lia|]. split; [exact Hnd|].
  apply (save_after_open_reproduces_stream no_unicode double_cap "two.csf"
           header3 [rec_greeting; rec_bye]);
    [reflexivity | reflexivity | unfold len; simpl; lia | exact Hnd].
Defined.

(** C8 on a stream of 20001 records. *)
Lemma open_fails_iff_more_than_20000_witness :
  Wire.wf_header header3 = true
  /\ forallb Wire.wf_record (replicate (Z.to_nat 20001) rec_greeting) = true
  /\ exists r,
       Open no_unicode double_cap "big.csf"
            (Wire.stream header3 (replicate (Z.to_nat 20001) rec_greeting))
       = Some (r, Some ErrTooManyStrings).
Proof.
  assert (Hwf : forallb Wire.wf_record (replicate (Z.to_nat 20001) rec_greeting)
                = true) by (vm_compute; reflexivity).
  split; [reflexivity|]. split; [exact Hwf|].
  apply (open_fails_iff_more_than_20000 no_unicode double_cap "big.csf" header3
           (replicate (Z.to_nat 20001) rec_greeting) eq_refl Hwf).
  unfold len. rewrite length_replicate. lia.
Defined.



(** C7 on a text with two-byte and three-byte UTF-8 sequences. *)
Lemma value_text_roundtrip_witness :
  utf8.ValidString "Grüße, 世界!"
  /\ ValueString (Value_Write zeroValue "Grüße, 世界!") = "Grüße, 世界!"%string.
Proof.
  assert (Hv : utf8.ValidString "Grüße, 世界!") by (vm_compute; reflexivity).
  split; [exact Hv|].
  exact (proj1 (proj2 (value_text_roundtrip [] zeroValue "Grüße, 世界!"
                         EmptyString Hv))).
Defined.

(** Beside C9: a value of the "WRTS" kind whose stream ends before the
    length of the extra value. [readValue] drops the error of that
    [readUInt], reads zero bytes, and the record is taken in with an empty
    extra value; [Open] returns no error. *)
Lemma missing_extra_length_accepted :
  match Open no_unicode double_cap "bye.csf"
             (Wire.stream header3 [] ++ Wire.cut rec_bye 7 []) with
  | Some (r, None) =>
      OrderList r = ["TXT:BYE"%string]
      /\ (ExtraValue ∘ LV_Value) <$> Values r !! "TXT:BYE"%string = Some []
      /\ (HaveExtra ∘ LV_Value) <$> Values r !! "TXT:BYE"%string = Some true
  | _ => False
  end.
Proof. vm_compute. repeat split. Qed.

(** * More of the code *)

(** ** What every decoded table satisfies *)

Ltac case_readUInt :=
  match goal with
  | |- context [readUInt ?f] => destruct (readUInt f) as [[?|?] ?] eqn:?
  end.

Section Decoded.

Variable MapUnicodeToUpper : string -> string.
Variable growslice_cap : nat -> nat -> nat.

Local Abbreviation ToUpper := (ToUpper MapUnicodeToUpper).
Local Abbreviation keyed := (keyed MapUnicodeToUpper).
Local Abbreviation loop_inv := (loop_inv MapUnicodeToUpper).
Local Abbreviation record_entry := (record_entry MapUnicodeToUpper growslice_cap).
Local Abbreviation readContent_loop :=
  (readContent_loop MapUnicodeToUpper growslice_cap).
Local Abbreviation readContent := (readContent MapUnicodeToUpper growslice_cap).
Local Abbreviation Open := (Open MapUnicodeToUpper growslice_cap).

Lemma loop_inv_record_entry (c : content) (label : Label) (value : Value) :
  loop_inv c -> loop_inv (record_entry c label value).
Proof.
  intros (Hok & Hnd & Hkey & Hsz).
  destruct (record_entry_spec MapUnicodeToUpper growslice_cap c label value Hok)
    as (Hok' & Hm & He & Hc).
  split; [done|]. rewrite Hm, He, Hc. split; [|split].
  - case_bool_decide as Hin; [done|].
    apply NoDup_app. split; [done|]. split; [|apply NoDup_singleton].
    by intros x Hx ->%list_elem_of_singleton.
  - intros k lv. destruct (decide (k = ToUpper (Label_ValueString label)))
      as [->|Hne].
    + rewrite lookup_insert_eq. by intros [= <-].
    + rewrite lookup_insert_ne by done. apply Hkey.
  - destruct (mapLabelValue c !! ToUpper (Label_ValueString label)) eqn:E.
    + rewrite map_size_insert_Some by done. lia.
    + rewrite map_size_insert_None by done. lia.
Qed.

Lemma readContent_loop_inv (budget : nat) :
  forall (c c' : content) (f f' : file),
  loop_inv c -> counter c <= 20000 ->
  readContent_loop budget c f = Some (Ok c', f') ->
  loop_inv c' /\ counter c' <= 20000.
Proof.
  induction budget as [|budget IH]; intros c c' f f' Hinv Hc; [done|].
  rewrite readContent_loop_S.
  destruct (readLabel f) as [[l|e] f1].
  - destruct (readValue f1) as [[v|e] f2].
    + cbv zeta. destruct (Z.ltb_spec 20000 (counter (record_entry c l v)));
        [done|].
      apply IH; [by apply loop_inv_record_entry | done].
    + destruct (isEOF e); [|done]. by intros [= <- _].
  - destruct (isEOF e); [|done]. by intros [= <- _].
Qed.

Lemma Open_Ok_inv (name : string) (data : bytes) (r : CSFUtil) :
  Open name data = Some (r, None) ->
  store_ok r /\ keyed (Values r) /\ Z.of_nat (size (Values r)) <= 20000
  /\ filename r = name.
Proof.
  unfold Open, openAndParse.
  set (r0 := mkCSFUtil name 0 0 0 0 0 ∅ ∅ (mkSlice 0 0 0) []).
  pose proof (readHeader_tables r0 (mkFile data 0)) as Ht. cbn zeta in Ht.
  assert (Hname : filename (readHeader r0 (mkFile data 0)).1.1 = name).
  { unfold readHeader.
    destruct (checkIdentifier _ _) as [[d|e] f1]; [|done].
    do 5 (case_readUInt; [|done]). done. }
  destruct (readHeader r0 _) as [[r1 [e1|]] f1]; cbn [fst] in Ht, Hname; [done|].
  destruct Ht as (_ & _ & _ & Hh).
  unfold readContent. rewrite Hh. subst r0. cbn [heap empty_slice app length].
  destruct (readContent_loop _ _ _) as [[[c|e2] f2]|] eqn:El; [|done..].
  intros [= <-].
  apply readContent_loop_inv in El as [(Hok & Hnd & Hkey & Hsz) Hc].
  - destruct Hok as [Hs Hk].
    unfold store_ok, OrderList. cbn [Values Order heap filename].
    split; [done|]. split; [done|]. split; [lia|done].
  - split; [apply content_ok_init|]. split; [constructor|].
    split; [|done]. intros k lv. cbn. by rewrite lookup_empty.
  - done.
Qed.


(** X1. Whatever the data, a table that [Open] returns without error satisfies
    the invariant of the store: [Order] has no duplicates and lists exactly
    the keys of [Values]; every entry is stored under the upper-cased form of
    its own label name; and there are at most 20000 entries. *)
Theorem open_result_invariant (name : string) (data : bytes) (r : CSFUtil) :
  Open name data = Some (r, None) ->
  store_ok r /\ keyed (Values r) /\ Z.of_nat (size (Values r)) <= 20000
  /\ filename r = name.
Proof. apply Open_Ok_inv. Qed.

End Decoded.

(** ** The file header *)

Lemma byte_of_Z_mod (z : Z) : byte_of_Z (z mod 256) = byte_of_Z z.
Proof. unfold byte_of_Z. by rewrite Z.mod_mod by lia. Qed.

(** Four bytes are the little-endian form of the number they are read as. *)
Lemma uint32_le_Uint32 (d : bytes) :
  length d = 4%nat ->
  Wire.uint32_le (Uint32 d) = d /\ 0 <= Uint32 d < 2 ^ 32.
Proof.
  intros Hd. destruct d as [|c0 [|c1 [|c2 [|c3 [|]]]]]; try done.
  unfold Uint32.
  pose proof (byte_to_Z_range c0) as H0. pose proof (byte_to_Z_range c1) as H1.
  pose proof (byte_to_Z_range c2) as H2. pose proof (byte_to_Z_range c3) as H3.
  rewrite <- (byte_of_to_Z c0) at 2. rewrite <- (byte_of_to_Z c1) at 2.
  rewrite <- (byte_of_to_Z c2) at 2. rewrite <- (byte_of_to_Z c3) at 2.
  set (b0 := byte_to_Z c0) in *. set (b1 := byte_to_Z c1) in *.
  set (b2 := byte_to_Z c2) in *. set (b3 := byte_to_Z c3) in *.
  rewrite !Z.shiftl_mul_pow2 by lia.
  assert (E : Z.lor (Z.lor (Z.lor b0 (b1 * 2 ^ 8)) (b2 * 2 ^ 16)) (b3 * 2 ^ 24)
              = b0 + b1 * 256 + b2 * 65536 + b3 * 16777216).
  { rewrite (Z.lor_comm b0), (lor_add (b1 * 2 ^ 8) b0 8);
      [|lia|lia|lia|by rewrite Z_mod_mult].
    rewrite (Z.lor_comm _ (b2 * 2 ^ 16)),
      (lor_add (b2 * 2 ^ 16) _ 16); [|lia|lia|lia|by rewrite Z_mod_mult].
    rewrite (Z.lor_comm _ (b3 * 2 ^ 24)),
      (lor_add (b3 * 2 ^ 24) _ 24); [|lia|lia|lia|by rewrite Z_mod_mult].
    lia. }
  rewrite E. split; [|lia]. unfold Wire.uint32_le.
  set (n := b0 + b1 * 256 + b2 * 65536 + b3 * 16777216).
  rewrite <- (byte_of_Z_mod n), <- (byte_of_Z_mod (n / 256)),
    <- (byte_of_Z_mod (n / 65536)), <- (byte_of_Z_mod (n / 16777216)).
  replace (n mod 256) with b0 by (unfold n; Z.div_mod_to_equations; lia).
  replace (n / 256 mod 256) with b1 by (unfold n; Z.div_mod_to_equations; lia).
  replace (n / 65536 mod 256) with b2
    by (unfold n; Z.div_mod_to_equations; lia).
  replace (n / 16777216 mod 256) with b3
    by (unfold n; Z.div_mod_to_equations; lia).
  reflexivity.
Qed.

(** What a successful read took from the file. *)
Lemma readDWORD_Ok_bytes (f f' : file) (d : bytes) :
  readDWORD f = (Ok d, f') ->
  length d = 4%nat /\ unread f = d ++ unread f' /\ offset f' = offset f + 4.
Proof.
  intros H. pose proof (readDWORD_Ok_offset _ _ _ H) as Ho.
  apply readDWORD_Ok in H as (Hl & Ht & (g & Hg & _) & H4 & Hl').
  split; [done|]. split; [|done].
  assert (length g = 4%nat).
  { apply (f_equal length) in Hg. rewrite length_app in Hg. lia. }
  rewrite Hg in Ht. rewrite take_app_length' in Ht by done. by subst d.
Qed.

Lemma readUInt_Ok_bytes (f f' : file) (n : Z) :
  readUInt f = (Ok n, f') ->
  0 <= n < 2 ^ 32 /\ unread f = Wire.uint32_le n ++ unread f'
  /\ offset f' = offset f + 4.
Proof.
  unfold readUInt, bind. destruct (readDWORD f) as [[d|e] f1] eqn:E; [|done].
  intros [= <- <-]. apply readDWORD_Ok_bytes in E as (Hl & Hu & Ho).
  destruct (uint32_le_Uint32 d Hl) as [-> ?]. done.
Qed.

Lemma checkIdentifier_Ok_bytes (ids : list string) (f f' : file) (d : bytes) :
  checkIdentifier ids f = (Ok d, f') ->
  (d ∈ map bytes_of_string ids) /\ unread f = d ++ unread f'
  /\ offset f' = offset f + 4.
Proof.
  unfold checkIdentifier, bind.
  destruct (readDWORD f) as [[d0|e] f1] eqn:E; [|done].
  apply readDWORD_Ok_bytes in E as (Hl & Hu & Ho).
  destruct (existsb _ ids) eqn:Ex; [|done]. intros [= <- <-].
  split; [|done]. apply existsb_exists in Ex as (id & Hid & Heq).
  apply bool_decide_eq_true in Heq. subst d0.
  apply list_elem_of_fmap. exists id. split; [done|]. by apply list_elem_of_In.
Qed.

Section Header.

Variable MapUnicodeToUpper : string -> string.
Variable growslice_cap : nat -> nat -> nat.

Local Abbreviation Open := (Open MapUnicodeToUpper growslice_cap).

(** X2. The header is taken as it is read. On data that starts with a header,
    whatever follows it, [Open] returns a handle with the name it was given
    and the five scalars of the header: the counts are not compared with the
    records that follow, and the scalars are set also when the records fail to
    decode and an error is returned. *)
Theorem open_keeps_header_scalars (name : string) (h : Wire.header)
    (tail : bytes) :
  Wire.wf_header h = true ->
  exists r oe,
    Open name (Wire.header_bytes h ++ tail) = Some (r, oe)
    /\ filename r = name /\ header_of r = h.
Proof.
  intros Hh. unfold Open, openAndParse. rewrite readHeader_ok by done.
  unfold readContent. cbn [heap empty_slice app length].
  edestruct (readContent_loop_total MapUnicodeToUpper growslice_cap
               (S (length (unread (mkFile tail 24)))))
    as [[[c|e] f2] ->]; [lia| |];
    (do 2 eexists; split; [reflexivity|]; split; [done|]; by destruct h).
Qed.

(** X3. [Open] returns without error only on data that starts with the
    identifier " FSC" followed by five 32-bit scalars, 24 bytes in all; the
    scalars of the handle are those, read as little-endian numbers. *)
Theorem open_success_has_header (name : string) (data : bytes) (r : CSFUtil) :
  Open name data = Some (r, None) ->
  exists tail,
    data = Wire.header_bytes (header_of r) ++ tail
    /\ Wire.wf_header (header_of r) = true.
Proof.
  unfold Open, openAndParse.
  set (r0 := mkCSFUtil name 0 0 0 0 0 ∅ ∅ (mkSlice 0 0 0) []).
  destruct (readHeader r0 _) as [[r1 [e1|]] f1] eqn:Eh; [done|].
  assert (Hr1 : exists tail,
             data = Wire.header_bytes (header_of r1) ++ tail
             /\ Wire.wf_header (header_of r1) = true).
  { clear -Eh. unfold readHeader in Eh.
    destruct (checkIdentifier _ _) as [[d|e0] g1] eqn:Ec; [|done].
    apply checkIdentifier_Ok_bytes in Ec as (Hd & Hu & _).
    apply list_elem_of_singleton in Hd. cbn [unread] in Hu.
    destruct (readUInt g1) as [[n1|?] g2] eqn:E1; [|done].
    destruct (readUInt g2) as [[n2|?] g3] eqn:E2; [|done].
    destruct (readUInt g3) as [[n3|?] g4] eqn:E3; [|done].
    destruct (readUInt g4) as [[n4|?] g5] eqn:E4; [|done].
    destruct (readUInt g5) as [[n5|?] g6] eqn:E5; [|done].
    apply readUInt_Ok_bytes in E1 as (B1 & U1 & _).
    apply readUInt_Ok_bytes in E2 as (B2 & U2 & _).
    apply readUInt_Ok_bytes in E3 as (B3 & U3 & _).
    apply readUInt_Ok_bytes in E4 as (B4 & U4 & _).
    apply readUInt_Ok_bytes in E5 as (B5 & U5 & _).
    injection Eh as <- _. exists (unread g6).
    unfold header_of, set_header. cbn [Version NumLabels NumStrings Unused Language].
    split.
    - unfold Wire.header_bytes.
      cbn [Wire.version Wire.numLabels Wire.numStrings Wire.unused Wire.language].
      rewrite <- !app_assoc, <- U5, <- U4, <- U3, <- U2, <- U1, Hu.
      by subst d.
    - unfold Wire.wf_header.
      cbn [Wire.version Wire.numLabels Wire.numStrings Wire.unused Wire.language].
      rewrite !andb_true_iff, !fits32_spec. done. }
  unfold readContent.
  destruct (empty_slice (heap r1)) as [m order].
  destruct (readContent_loop _ _ _ _ _) as [[[c|e2] f2]|]; [|done..].
  intros [= <-]. exact Hr1.
Qed.

End Header.

(** ** One entry, written and read back *)

Lemma entry_sections (lv : LabelValue) :
  Wire.wf_record (record_of_entry lv) = true ->
  Label_Bytes (LV_Label lv) = label_section (record_of_entry lv)
  /\ Value_Bytes (LV_Value lv) = value_section (record_of_entry lv).
Proof.
  intros Hwf. destruct (wf_record_spec _ Hwf) as (Hn & Hev & Ht & Hx).
  unfold record_of_entry in *. cbn [Wire.name Wire.text Wire.extra] in *.
  unfold Label_Bytes, Value_Bytes, label_section, value_section, Wire.fields.
  cbn [Wire.name Wire.text Wire.extra take drop app concat].
  pose proof (len_nonneg (ExtraValue (LV_Value lv))).
  destruct (HaveExtra (LV_Value lv)); cbn [app concat];
    [pose proof (Hx _ eq_refl)|];
    rewrite !PutUint32_uint32_le by lia; by rewrite !app_nil_r.
Qed.

Lemma LabelValue_Bytes_entry (lv : LabelValue) :
  Wire.wf_record (record_of_entry lv) = true ->
  LabelValue_Bytes lv = Wire.record_bytes (record_of_entry lv).
Proof.
  intros Hwf. destruct (entry_sections lv Hwf) as [Hl Hv].
  unfold LabelValue_Bytes. by rewrite Hl, Hv, record_bytes_sections.
Qed.

(** X6. Decoding undoes encoding, entry by entry. Take an entry whose name,
    text and extra value are each at most 2^30 bytes long and whose text has
    an even number of bytes. On the bytes of [LabelValue.Bytes], whatever
    follows them, [readLabel] returns the name, and [readValue] after it the
    text, the flag of the extra value and the extra value; both consume
    exactly the bytes of the entry. What does not come back is what [Bytes]
    does not write: the offsets are those of the place where the entry is
    read, the number of string pairs is 1 whatever it was, and an extra value
    without the flag is dropped. *)
Theorem entry_bytes_read_back (lv : LabelValue) (tail : bytes) (o : Z) :
  Wire.wf_record (record_of_entry lv) = true ->
  let l := LV_Label lv in
  let v := LV_Value lv in
  let o' := o + 12 + len (Label_Value l) in
  readLabel (mkFile (LabelValue_Bytes lv ++ tail) o)
  = (Ok (mkLabel o 1 (Label_Value l)), mkFile (Value_Bytes v ++ tail) o')
  /\ readValue (mkFile (Value_Bytes v ++ tail) o')
     = (Ok (mkValue o' (HaveExtra v) (Value_Value v)
                    (if HaveExtra v then ExtraValue v else [])),
        mkFile tail (o + len (LabelValue_Bytes lv))).
Proof.
  intros Hwf. cbn zeta.
  destruct (entry_sections lv Hwf) as [Hl Hv].
  unfold LabelValue_Bytes. rewrite Hl, Hv, <- app_assoc. split.
  - by rewrite readLabel_ok.
  - rewrite readValue_ok by done. f_equal.
    + f_equal. unfold record_of_entry. cbn [Wire.name Wire.text Wire.extra].
      destruct (HaveExtra (LV_Value lv)); cbn [default from_option id].
      * by rewrite bool_decide_eq_true_2 by eauto.
      * by rewrite bool_decide_eq_false_2 by (by intros [? ?]).
    + f_equal. rewrite len_app, label_section_len.
      change (Wire.name (record_of_entry lv)) with (Label_Value (LV_Label lv)).
      lia.
Qed.

(** ** The text of a value, whatever its bytes *)

Lemma uint16s_of_bytes_range (b : bytes) :
  Forall (fun c => 0 <= c < 2 ^ 16) (uint16s_of_bytes b).
Proof.
  enough (H : Forall (fun c => 0 <= c < 2 ^ 16) (uint16s_of_bytes b)
              /\ forall lo, Forall (fun c => 0 <= c < 2 ^ 16)
                               (uint16s_of_bytes (lo :: b))) by apply H.
  induction b as [|hi b [IH1 IH2]].
  - split; [constructor | intros lo; constructor].
  - split; [apply IH2|]. intros lo. cbn [uint16s_of_bytes].
    constructor; [|exact IH1].
    pose proof (byte_to_Z_range lo). pose proof (byte_to_Z_range hi).
    apply lor_lt_pow2; [lia|lia|].
    rewrite Z.shiftl_mul_pow2 by lia. lia.
Qed.

Lemma DecodeRune_valid (r1 r2 : Z) :
  utf8.ValidRune (utf16.DecodeRune r1 r2) = true.
Proof.
  unfold utf16.DecodeRune, utf16.surr1, utf16.surr2, utf16.surr3,
    utf16.surrSelf, utf16.replacementChar.
  destruct ((55296 <=? r1) && (r1 <? 56320) && (56320 <=? r2) && (r2 <? 57344))
    eqn:E; [|done].
  assert (H : 0 <= Z.lor (Z.shiftl (r1 - 55296) 10) (r2 - 56320) < 2 ^ 20).
  { apply lor_lt_pow2; [lia| |lia].
    rewrite Z.shiftl_mul_pow2 by lia. lia. }
  unfold utf8.ValidRune, utf8.surrogateMin, utf8.surrogateMax, utf8.MaxRune.
  lia.
Qed.

(** [utf16.Decode] returns code points that are not surrogates, whatever
    the code units. *)
Lemma Decode_valid (cs : list Z) :
  Forall (fun c => 0 <= c < 2 ^ 16) cs ->
  forall skip,
  Forall (fun r => utf8.ValidRune r = true) (utf16.Decode_from skip cs).
Proof.
  induction 1 as [|c cs Hc _ IH]; intros skip; [constructor|].
  cbn [utf16.Decode_from]. destruct skip; [apply IH|].
  unfold utf16.surr1, utf16.surr3.
  destruct ((c <? 55296) || (57344 <=? c)) eqn:E.
  - constructor; [|apply IH].
    unfold utf8.ValidRune, utf8.surrogateMin, utf8.surrogateMax, utf8.MaxRune.
    lia.
  - destruct cs as [|c2 cs']; [constructor; [done|apply IH]|].
    destruct (_ && _ && _ && _).
    + constructor; [apply DecodeRune_valid | apply IH].
    + constructor; [done | apply IH].
Qed.

Lemma string_of_runes_valid (rs : list Z) :
  Forall (fun r => utf8.ValidRune r = true) rs ->
  utf8.ValidString (utf8.string_of_runes rs).
Proof. intros H. apply ValidString_iff. eauto. Qed.

Lemma DecodeUTF16_cases (b : bytes) :
  (len b mod 2 <> 0 -> DecodeUTF16 b = Err (ErrOddLength (len b)))
  /\ (len b mod 2 = 0 ->
      exists s, DecodeUTF16 b = Ok s /\ utf8.ValidString s).
Proof.
  unfold DecodeUTF16. split.
  - intros Hodd. destruct (Z.eqb_spec (len b) 0) as [E|_].
    { rewrite E in Hodd. done. }
    by destruct (Z.eqb_spec (len b mod 2) 0).
  - intros Hev. destruct (Z.eqb_spec (len b) 0) as [_|_].
    { exists EmptyString. split; [done|]. reflexivity. }
    destruct (Z.eqb_spec (len b mod 2) 0); [|done]. cbn [negb].
    eexists. split; [reflexivity|].
    apply string_of_runes_valid, Decode_valid, uint16s_of_bytes_range.
Qed.

(** X10. [DecodeUTF16] fails on an odd number of bytes and on nothing else,
    and the string it returns is valid UTF-8 whatever the bytes are: a code
    unit that is half of a surrogate pair without its other half comes out as
    U+FFFD. *)
Theorem DecodeUTF16_fails_iff_odd (b : bytes) :
  match DecodeUTF16 b with
  | Ok s => len b mod 2 = 0 /\ utf8.ValidString s
  | Err e => len b mod 2 = 1 /\ e = ErrOddLength (len b)
  end.
Proof.
  destruct (DecodeUTF16_cases b) as [Hodd Hev].
  destruct (Z.eq_dec (len b mod 2) 0) as [E|E].
  - by destruct (Hev E) as (s & -> & Hs).
  - rewrite (Hodd E). split; [|done].
    pose proof (Z.mod_pos_bound (len b) 2 ltac:(lia)). lia.
Qed.

Lemma ValueString_valid (v : Value) : utf8.ValidString (ValueString v).
Proof.
  unfold ValueString.
  destruct (Z.eq_dec (len (complement (Value_Value v)) mod 2) 0) as [Hev|Hodd].
  - destruct (proj2 (DecodeUTF16_cases _) Hev) as (s & -> & Hs). done.
  - rewrite (proj1 (DecodeUTF16_cases _) Hodd). reflexivity.
Qed.

(** X11. The text of a value is stable under rewriting. Whatever bytes a value
    [v'] holds, also bytes that are no well-formed UTF-16 or an odd number of
    them, the string that [ValueString] returns for it is valid UTF-8, and a
    value that this string is written to with [Write] reads back as the same
    string. *)
Theorem value_text_rewrite_stable (v v' : Value) :
  utf8.ValidString (ValueString v')
  /\ ValueString (Value_Write v (ValueString v')) = ValueString v'.
Proof.
  split; [apply ValueString_valid|].
  rewrite ValueString_Write. apply ValueString_valid.
Qed.

(** ** Writing and removing entries *)

Lemma filter_ne_absent (l : list string) (x : string) :
  x ∉ l -> filter (fun k => k <> x) l = l.
Proof.
  induction l as [|y l IH]; intros Hx; [done|].
  apply not_elem_of_cons in Hx as [Hne Hx].
  rewrite filter_cons_True by congruence. by rewrite IH.
Qed.

Lemma filter_ne_middle (l : list string) (j : nat) (x : string) :
  NoDup l -> l !! j = Some x ->
  filter (fun k => k <> x) l = take j l ++ drop (S j) l.
Proof.
  intros Hnd Hj. rewrite <- (take_drop_middle l j x Hj) at 1.
  rewrite <- (take_drop_middle l j x Hj) in Hnd.
  apply NoDup_app in Hnd as (_ & H2 & H3).
  apply NoDup_cons in H3 as [H3 _].
  rewrite filter_app, filter_cons_False by (by intros ?).
  rewrite !filter_ne_absent; [done|done|].
  intros Hin. apply (H2 x Hin). apply list_elem_of_here.
Qed.

Lemma ToUpper_empty (MapUnicodeToUpper : string -> string) :
  ToUpper MapUnicodeToUpper EmptyString = EmptyString.
Proof. reflexivity. Qed.

Section Entries.

Variable MapUnicodeToUpper : string -> string.
Variable growslice_cap : nat -> nat -> nat.

Local Abbreviation ToUpper := (ToUpper MapUnicodeToUpper).
Local Abbreviation keyed := (keyed MapUnicodeToUpper).
Local Abbreviation WriteLabelValueBefore :=
  (WriteLabelValueBefore MapUnicodeToUpper growslice_cap).
Local Abbreviation WriteLabelValue :=
  (WriteLabelValue MapUnicodeToUpper growslice_cap).
Local Abbreviation RemoveLabelValue :=
  (RemoveLabelValue MapUnicodeToUpper growslice_cap).

(** The entries and the scalars after a write, in all of its branches. *)
Lemma WriteLabelValueBefore_values (r : CSFUtil) (lv : LabelValue)
    (overwriteLabel : bool) (successor : string) :
  let k := ToUpper (Label_ValueString (LV_Label lv)) in
  let r' := WriteLabelValueBefore r lv overwriteLabel successor in
  let name :=
    match Values r !! k with
    | Some old => if overwriteLabel then Label_Value (LV_Label lv)
                  else Label_Value (LV_Label old)
    | None => Label_Value (LV_Label lv)
    end in
  Values r'
  = <[k := mkLabelValue
             (mkLabel (Label_Offset (LV_Label lv)) (StringPairs (LV_Label lv))
                      name)
             (LV_Value lv)]> (Values r)
  /\ NumLabels r' = Z.of_nat (size (Values r'))
  /\ NumStrings r' = Z.of_nat (size (Values r'))
  /\ (filename r', Version r', Unused r', Language r', Categories r')
     = (filename r, Version r, Unused r, Language r, Categories r).
Proof.
  cbn zeta. unfold WriteLabelValueBefore.
  set (k := ToUpper (Label_ValueString (LV_Label lv))).
  destruct lv as [[lo lp ln] v]. cbn [LV_Label LV_Value Label_Offset StringPairs Label_Value] in *.
  destruct (Values r !! k) as [old|] eqn:Ek.
  - unfold set_entries.
    cbn [Values NumLabels NumStrings filename Version Unused Language Categories].
    split; [|done]. f_equal.
    destruct overwriteLabel; cbn [negb]; [done|].
    unfold Label_Write, Label_ValueString. cbn [LV_Label LV_Value Label_Offset StringPairs Label_Value].
    by rewrite bytes_string_bytes.
  - destruct (Values r !! ToUpper successor) as [sv|].
    + destruct (append1 _ _ _ _) as [m1 head].
      by destruct (appendv _ _ _ _) as [m2 order].
    + by destruct (append1 _ _ _ _) as [m1 order].
Qed.

(** X13. What a write stores, wherever it puts the name. After
    [WriteLabelValueBefore], [Values] is what it was with one entry set: under
    the upper-cased label name of the entry written, the value and the label
    written, the label carrying the name as the entry that was there spells it
    unless [overwriteLabel] is set. [NumLabels] and [NumStrings] are the
    number of entries; the file name, the version, the unused scalar, the
    language and the categories are untouched. *)
Theorem write_stores_entry (r : CSFUtil) (lv : LabelValue)
    (overwriteLabel : bool) (successor : string) :
  let k := ToUpper (Label_ValueString (LV_Label lv)) in
  let r' := WriteLabelValueBefore r lv overwriteLabel successor in
  let name :=
    match Values r !! k with
    | Some old => if overwriteLabel then Label_Value (LV_Label lv)
                  else Label_Value (LV_Label old)
    | None => Label_Value (LV_Label lv)
    end in
  Values r'
  = <[k := mkLabelValue
             (mkLabel (Label_Offset (LV_Label lv)) (StringPairs (LV_Label lv))
                      name)
             (LV_Value lv)]> (Values r)
  /\ NumLabels r' = Z.of_nat (size (Values r'))
  /\ NumStrings r' = Z.of_nat (size (Values r'))
  /\ (filename r', Version r', Unused r', Language r', Categories r')
     = (filename r, Version r, Unused r, Language r, Categories r).
Proof. apply WriteLabelValueBefore_values. Qed.

(** A write keeps the entries under their own names, when the table has
    them so. *)
Lemma WriteLabelValueBefore_keyed (r : CSFUtil) (lv : LabelValue)
    (overwriteLabel : bool) (successor : string) :
  keyed (Values r) ->
  keyed (Values (WriteLabelValueBefore r lv overwriteLabel successor)).
Proof.
  intros Hkey.
  destruct (WriteLabelValueBefore_values r lv overwriteLabel successor)
    as (-> & _).
  set (k := ToUpper (Label_ValueString (LV_Label lv))).
  intros k' lv'. destruct (decide (k' = k)) as [->|Hne].
  - rewrite lookup_insert_eq. intros [= <-]. cbn [LV_Label].
    unfold Label_ValueString at 1. cbn [Label_Value].
    destruct (Values r !! k) as [old|] eqn:Ek; [|done].
    destruct overwriteLabel; [done|]. by apply Hkey.
  - rewrite lookup_insert_ne by done. apply Hkey.
Qed.

(** X14. Overwriting. A write under a name that the table has leaves [Order]
    as it is, whatever the successor, and keeps the invariant of the store;
    the number of entries does not change. *)
Theorem write_existing_keeps_order (r : CSFUtil) (lv : LabelValue)
    (overwriteLabel : bool) (successor : string) :
  is_Some (Values r !! ToUpper (Label_ValueString (LV_Label lv))) ->
  store_ok r -> keyed (Values r) ->
  let r' := WriteLabelValueBefore r lv overwriteLabel successor in
  OrderList r' = OrderList r /\ store_ok r' /\ keyed (Values r')
  /\ size (Values r') = size (Values r).
Proof.
  intros [old Hold] Hok Hkey. cbn zeta.
  destruct (WriteLabelValueBefore_overwrite MapUnicodeToUpper growslice_cap
              r lv old overwriteLabel successor Hold) as [Ho Hs].
  split; [done|]. split; [by apply Hs|].
  split; [by apply WriteLabelValueBefore_keyed|].
  destruct (WriteLabelValueBefore_values r lv overwriteLabel successor)
    as (-> & _).
  by rewrite map_size_insert_Some.
Qed.

(** X15. Appending. [WriteLabelValue] passes the empty string as the
    successor. When the name written is new and the table has no entry under
    the empty name, the name goes to the end of [Order], and the invariant of
    the store is kept. *)
Theorem write_new_appends (r : CSFUtil) (lv : LabelValue)
    (overwriteLabel : bool) :
  store_ok r -> keyed (Values r) ->
  Values r !! ToUpper (Label_ValueString (LV_Label lv)) = None ->
  Values r !! EmptyString = None ->
  let r' := WriteLabelValue r lv overwriteLabel in
  OrderList r' = OrderList r ++ [ToUpper (Label_ValueString (LV_Label lv))]
  /\ store_ok r' /\ keyed (Values r')
  /\ size (Values r') = S (size (Values r)).
Proof.
  intros Hok Hkey Hnew Hempty. cbn zeta. unfold WriteLabelValue.
  destruct (WriteLabelValueBefore_append MapUnicodeToUpper growslice_cap
              r lv overwriteLabel EmptyString Hok Hnew) as [Ho Hs].
  { by rewrite ToUpper_empty. }
  split; [done|]. split; [done|].
  split; [by apply WriteLabelValueBefore_keyed|].
  destruct (WriteLabelValueBefore_values r lv overwriteLabel EmptyString)
    as (-> & _).
  by rewrite map_size_insert_None.
Qed.

(** X16. Writing before a successor, as the code does it. When the name
    written is new and the successor is in the table, at index [j] of [Order],
    the new name takes the place of the successor and is there once more right
    after it: [Order] gets one name longer, the successor is no longer in it
    although its entry stays in [Values], and the new name is in it twice. The
    inner [append] writes the new name into the array slot of the successor
    before the outer one copies that slot. *)
Theorem write_before_replaces_successor (r : CSFUtil) (lv : LabelValue)
    (overwriteLabel : bool) (successor : string) :
  store_ok r ->
  Values r !! ToUpper (Label_ValueString (LV_Label lv)) = None ->
  is_Some (Values r !! ToUpper successor) ->
  let k := ToUpper (Label_ValueString (LV_Label lv)) in
  let r' := WriteLabelValueBefore r lv overwriteLabel successor in
  exists j,
    OrderList r !! j = Some (ToUpper successor)
    /\ OrderList r' = take j (OrderList r) ++ [k; k] ++ drop (S j) (OrderList r)
    /\ (ToUpper successor ∉ OrderList r')
    /\ is_Some (Values r' !! ToUpper successor)
    /\ ~ NoDup (OrderList r').
Proof.
  intros Hok Hnew Hsucc. cbn zeta.
  destruct (WriteLabelValueBefore_middle MapUnicodeToUpper growslice_cap
              r lv overwriteLabel successor Hok Hnew Hsucc) as (j & Hj & Ho).
  cbn zeta in Ho. exists j. split; [done|]. split; [done|].
  destruct Hok as (_ & Hnd & _).
  set (k := ToUpper (Label_ValueString (LV_Label lv))) in *.
  assert (Hne : ToUpper successor <> k).
  { intros E. rewrite E in Hsucc. fold k in Hnew. rewrite Hnew in Hsucc.
    by destruct Hsucc. }
  rewrite Ho. split; [|split].
  - destruct (NoDup_remove_middle _ _ _ Hnd Hj) as [_ Hin].
    rewrite !elem_of_app, !elem_of_cons. intros [H|[[H|[H|H]]|H]].
    + assert (ToUpper successor ∈ take j (OrderList r) ++ drop (S j) (OrderList r))
        as [_ ?]%Hin by (apply elem_of_app; by left). done.
    + done.
    + done.
    + by apply elem_of_nil in H.
    + assert (ToUpper successor ∈ take j (OrderList r) ++ drop (S j) (OrderList r))
        as [_ ?]%Hin by (apply elem_of_app; by right). done.
  - destruct (WriteLabelValueBefore_values r lv overwriteLabel successor)
      as (-> & _).
    fold k. by rewrite lookup_insert_ne.
  - intros Hd. apply NoDup_app in Hd as (_ & _ & Hd).
    apply NoDup_cons in Hd as [Hd _]. apply Hd. apply list_elem_of_here.
Qed.

Lemma RemoveLabelValue_spec (r : CSFUtil) (name : string) :
  store_ok r ->
  let r' := RemoveLabelValue r name in
  Values r' = delete (ToUpper name) (Values r)
  /\ OrderList r' = filter (fun k => k <> ToUpper name) (OrderList r)
  /\ store_ok r'.
Proof.
  intros Hok. cbn zeta.
  pose proof (RemoveLabelValue_store_ok MapUnicodeToUpper growslice_cap r name Hok)
    as Hok'.
  split; [|split; [|done]]; destruct Hok as (Hs & Hnd & Hkeys);
    unfold RemoveLabelValue;
    pose proof (elems_length _ _ Hs) as Hlen; fold (OrderList r) in Hlen;
    set (u := ToUpper name).
  - destruct (Nat.eqb_spec (slen (Order r)) 0) as [H0|_].
    + symmetry. apply delete_id.
      destruct (Values r !! u) eqn:E; [|done].
      assert (u ∈ OrderList r) as Hin by (apply Hkeys; eauto).
      destruct (OrderList r); [by apply elem_of_nil in Hin | cbn in Hlen; lia].
    + destruct (first_match _ _ _) as [i|]; [|done].
      destruct (1 <? slen (Order r))%nat.
      * by destruct (appendv _ _ _ _).
      * by destruct (empty_slice _).
  - destruct (Nat.eqb_spec (slen (Order r)) 0) as [H0|Hne].
    + destruct (OrderList r); [done | cbn in Hlen; lia].
    + destruct (first_match_spec u (OrderList r) 0)
        as [[Hnin ->]|(j & -> & Hj & _)].
      * unfold OrderList at 1, set_entries. cbn [Order heap].
        fold (OrderList r). by rewrite filter_ne_absent.
      * cbn [Nat.add]. rewrite (filter_ne_middle _ j u) by done.
        pose proof (lookup_lt_Some _ _ _ Hj) as Hjl. rewrite Hlen in Hjl.
        destruct (Nat.ltb_spec 1 (slen (Order r))) as [H1|H1].
        -- destruct (appendv_spec growslice_cap (heap r) (reslice (Order r) 0 j)
                       (reslice (Order r) (j + 1) (slen (Order r)))) as [_ He'].
           { apply slice_ok_reslice; [done|lia|lia]. }
           { apply slice_ok_reslice; [done|lia|lia]. }
           destruct (appendv _ _ _ _) as [m1 order]. cbn [fst snd] in He'.
           rewrite !elems_reslice in He' by lia.
           fold (OrderList r) in He'.
           rewrite drop_0, <- Hlen,
             (take_ge (OrderList r) (length (OrderList r))) in He' by lia.
           rewrite Nat.add_1_r in He'.
           unfold OrderList at 1, set_entries. cbn [Order heap]. exact He'.
        -- destruct (empty_slice_ok (heap r)) as [_ He'].
           destruct (empty_slice (heap r)) as [m1 order]. cbn [fst snd] in He'.
           unfold OrderList at 1, set_entries. cbn [Order heap]. rewrite He'.
           destruct (OrderList r) as [|x [|y l]]; cbn in Hlen; try lia.
           destruct j; [|cbn in Hjl; lia]. reflexivity.
Qed.


Lemma RemoveLabelValue_scalars (r : CSFUtil) (name : string) :
  let r' := RemoveLabelValue r name in
  (filename r', Version r', Unused r', Language r', Categories r')
  = (filename r, Version r, Unused r, Language r, Categories r)
  /\ (if (slen (Order r) =? 0)%nat then r' = r
      else NumLabels r' = Z.of_nat (size (Values r'))
           /\ NumStrings r' = Z.of_nat (size (Values r'))).
Proof.
  cbn zeta. unfold RemoveLabelValue.
  destruct (slen (Order r) =? 0)%nat; [done|].
  destruct (first_match _ _ _) as [i|]; [|done].
  destruct (1 <? slen (Order r))%nat.
  - by destruct (appendv _ _ _ _).
  - by destruct (empty_slice _).
Qed.

(** X17. Removing. On a table that satisfies the invariant of the store,
    [RemoveLabelValue] deletes the entry under the upper-cased name and takes
    the name out of [Order], leaving the other names in their order; the
    invariant is kept, and a name that is not in the table changes no entry.
    The categories and the scalars other than the two counts are never
    touched. The counts are set to the number of entries, except on a table
    whose [Order] is empty, which is returned as it is. *)
Theorem remove_deletes_entry_and_name (r : CSFUtil) (name : string) :
  store_ok r ->
  let r' := RemoveLabelValue r name in
  Values r' = delete (ToUpper name) (Values r)
  /\ OrderList r' = filter (fun k => k <> ToUpper name) (OrderList r)
  /\ store_ok r'
  /\ (filename r', Version r', Unused r', Language r', Categories r')
     = (filename r, Version r, Unused r, Language r, Categories r)
  /\ (if (slen (Order r) =? 0)%nat then r' = r
      else NumLabels r' = Z.of_nat (size (Values r'))
           /\ NumStrings r' = Z.of_nat (size (Values r'))).
Proof.
  intros Hok. cbn zeta.
  destruct (RemoveLabelValue_spec r name Hok) as (Hv & Ho & Hs).
  destruct (RemoveLabelValue_scalars r name) as [H1 H2].
  done.
Qed.

(** X18. Removing what was just written. On a table that satisfies the
    invariant of the store and has no entry under the empty name, writing an
    entry under a new name with [WriteLabelValue] and then removing that name
    gives back the entries and the order that the table had. *)
Theorem remove_undoes_write (r : CSFUtil) (lv : LabelValue)
    (overwriteLabel : bool) (name : string) :
  store_ok r ->
  Values r !! ToUpper (Label_ValueString (LV_Label lv)) = None ->
  Values r !! EmptyString = None ->
  ToUpper name = ToUpper (Label_ValueString (LV_Label lv)) ->
  let r' := RemoveLabelValue (WriteLabelValue r lv overwriteLabel) name in
  Values r' = Values r /\ OrderList r' = OrderList r /\ store_ok r'.
Proof.
  intros Hok Hnew Hempty Hname. cbn zeta.
  destruct (WriteLabelValueBefore_append MapUnicodeToUpper growslice_cap
              r lv overwriteLabel EmptyString Hok Hnew) as [Ho Hs].
  { by rewrite ToUpper_empty. }
  cbn zeta in Ho, Hs. fold (WriteLabelValue r lv overwriteLabel) in Ho, Hs.
  destruct (RemoveLabelValue_spec _ name Hs) as (Hv' & Ho' & Hs').
  cbn zeta in Hv', Ho', Hs'.
  split; [|split; [|done]].
  - rewrite Hv', Hname. unfold WriteLabelValue.
    destruct (WriteLabelValueBefore_values r lv overwriteLabel EmptyString)
      as (-> & _).
    rewrite delete_insert_eq. by apply delete_id.
  - rewrite Ho', Ho, Hname, filter_app, filter_cons_False, filter_nil
      by (by intros ?).
    rewrite app_nil_r. apply filter_ne_absent.
    destruct Hok as (_ & _ & Hkeys). intros Hin%Hkeys.
    rewrite Hnew in Hin. by destruct Hin.
Qed.

End Entries.

(** ** Saving a table and opening what was saved *)

Lemma length_keys (l : list string) (m : gmap string LabelValue) :
  NoDup l -> (forall k, k ∈ l <-> is_Some (m !! k)) -> length l = size m.
Proof.
  intros Hnd Hk. rewrite <- size_dom, <- (size_list_to_set (C := gset string)) by done.
  f_equal. apply set_eq. intros k.
  by rewrite elem_of_list_to_set, elem_of_dom.
Qed.

Section SaveOpen.

Variable MapUnicodeToUpper : string -> string.
Variable growslice_cap : nat -> nat -> nat.

Local Abbreviation ToUpper := (ToUpper MapUnicodeToUpper).
Local Abbreviation keyed := (keyed MapUnicodeToUpper).
Local Abbreviation key := (key MapUnicodeToUpper).
Local Abbreviation Open := (Open MapUnicodeToUpper growslice_cap).
Local Abbreviation decode_records :=
  (decode_records MapUnicodeToUpper growslice_cap).

(** The records that [Save] writes, in their order. *)
Local Abbreviation saved_records r :=
  (map (fun k => record_of_entry (default zeroLabelValue (Values r !! k)))
       (OrderList r)).

Lemma Save_bytes_stream (r : CSFUtil) :
  Wire.wf_header (header_of r) = true ->
  forallb Wire.wf_record (saved_records r) = true ->
  Save_bytes r = Wire.stream (header_of r) (saved_records r).
Proof.
  intros (H1 & H2 & H3 & H4 & H5)%wf_header_spec Hwf.
  unfold Save_bytes, Wire.stream, Wire.header_bytes, header_of in *.
  cbn [Wire.version Wire.numLabels Wire.numStrings Wire.unused Wire.language] in *.
  rewrite !PutUint32_uint32_le by done. rewrite <- !app_assoc.
  do 6 f_equal. rewrite flat_map_via_map.
  apply flat_map_ext_elem. intros k Hk.
  apply LabelValue_Bytes_entry.
  rewrite forallb_forall in Hwf. apply Hwf.
  apply list_elem_of_In, list_elem_of_fmap. eauto.
Qed.

Lemma saved_records_keys (r : CSFUtil) :
  store_ok r -> keyed (Values r) ->
  map key (saved_records r) = OrderList r.
Proof.
  intros (_ & _ & Hkeys) Hkey. rewrite map_map.
  rewrite <- (map_id (OrderList r)) at 2.
  apply map_ext_in. intros k Hk%list_elem_of_In.
  apply Hkeys in Hk as [lv Hlv]. rewrite Hlv. cbn [default from_option id].
  symmetry. by apply Hkey.
Qed.

(** X19. What was saved opens again. Take a table that satisfies the invariant
    of the store, whose entries are stored under their own names, whose
    scalars fit 32 bits, and whose entries each have a name, a text and an
    extra value of at most 2^30 bytes and a text of an even number of bytes,
    at most 20000 of them. [Open] decodes the bytes that [Save] writes for it
    without error, into a table with the same scalars, the same [Order] and
    the same keys; every entry comes back with its name, its text, its flag
    and its extra value, the number of string pairs being 1 and an extra value
    without the flag being dropped; and saving the table that was opened
    writes the same bytes again. *)
Theorem open_after_save (name : string) (r : CSFUtil) :
  store_ok r -> keyed (Values r) ->
  Wire.wf_header (header_of r) = true ->
  (forall k lv, Values r !! k = Some lv ->
                Wire.wf_record (record_of_entry lv) = true) ->
  Z.of_nat (size (Values r)) <= 20000 ->
  exists r',
    Open name (Save_bytes r) = Some (r', None)
    /\ header_of r' = header_of r
    /\ OrderList r' = OrderList r
    /\ (forall k, Values r !! k = None -> Values r' !! k = None)
    /\ (forall k lv, Values r !! k = Some lv ->
          exists lv',
            Values r' !! k = Some lv'
            /\ Label_Value (LV_Label lv') = Label_Value (LV_Label lv)
            /\ StringPairs (LV_Label lv') = 1
            /\ Value_Value (LV_Value lv') = Value_Value (LV_Value lv)
            /\ HaveExtra (LV_Value lv') = HaveExtra (LV_Value lv)
            /\ ExtraValue (LV_Value lv')
               = (if HaveExtra (LV_Value lv) then ExtraValue (LV_Value lv)
                  else []))
    /\ Save_bytes r' = Save_bytes r.
Proof.
  intros Hok Hkey Hh Hwf Hsz.
  pose proof (saved_records_keys r Hok Hkey) as Hks.
  destruct Hok as (Hs & Hnd & Hkeys).
  set (rs := saved_records r) in *.
  assert (Hrs : forallb Wire.wf_record rs = true).
  { apply forallb_forall.
    intros x (k & -> & Hk)%list_elem_of_In%list_elem_of_fmap.
    apply Hkeys in Hk as [lv Hlv]. rewrite Hlv. by eapply Hwf. }
  assert (Hlen : len rs <= 20000).
  { unfold len, rs. rewrite length_map, (length_keys _ (Values r)) by done.
    exact Hsz. }
  assert (Hndk : NoDup (map key rs)) by (rewrite Hks; exact Hnd).
  rewrite (Save_bytes_stream r Hh Hrs). fold rs.
  pose proof (Save_bytes_decoded MapUnicodeToUpper growslice_cap name
                (header_of r) rs Hh Hrs Hndk) as HS.
  destruct (decode_records_spec MapUnicodeToUpper growslice_cap rs)
    as (_ & Hm & He & _). cbn zeta in Hm, He.
  set (r' := table_of name (header_of r) (decode_records rs)) in *.
  assert (Hv : Values r' = last_wins MapUnicodeToUpper ∅ (Wire.placed 24 rs))
    by exact Hm.
  assert (Ho : OrderList r' = OrderList r).
  { unfold OrderList at 1. change (elems (heap r') (Order r'))
      with (elems (mem (decode_records rs)) (listOrder (decode_records rs))).
    rewrite He, first_seen_NoDup by exact Hndk. exact Hks. }
  exists r'.
  split; [apply Open_stream; assumption|].
  split; [by destruct r|].
  split; [exact Ho|]. split; [|split; [|exact HS]].
  - intros k Hk. rewrite Hv, last_wins_other; [apply lookup_empty|].
    rewrite placed_keys, Hks. intros Hin%Hkeys. rewrite Hk in Hin.
    by destruct Hin.
  - intros k lv Hlv.
    assert (Hin : record_of_entry lv ∈ rs).
    { apply list_elem_of_fmap. exists k. rewrite Hlv. split; [reflexivity|].
      apply Hkeys. eauto. }
    destruct (decoded_lookup_unique MapUnicodeToUpper rs _ 24 Hndk Hin)
      as [o' Ho'].
    assert (Hk : key (record_of_entry lv) = k) by (symmetry; by apply Hkey).
    rewrite Hk in Ho'. rewrite Hv. eexists. split; [exact Ho'|].
    unfold Wire.decoded, record_of_entry.
    cbn [LV_Label LV_Value Label_Value StringPairs Value_Value HaveExtra
         ExtraValue Wire.name Wire.text Wire.extra].
    split; [reflexivity|]. split; [reflexivity|]. split; [reflexivity|].
    destruct (HaveExtra (LV_Value lv)); cbn [default from_option id].
    + split; [|reflexivity]. by apply bool_decide_eq_true_2.
    + split; [|reflexivity]. apply bool_decide_eq_false_2. by intros [? ?].
Qed.

End SaveOpen.

(** ** merge *)

Section Merge.

Variable MapUnicodeToUpper : string -> string.
Variable growslice_cap : nat -> nat -> nat.

Local Abbreviation ToUpper := (ToUpper MapUnicodeToUpper).
Local Abbreviation keyed := (keyed MapUnicodeToUpper).
Local Abbreviation WriteLabelValue :=
  (WriteLabelValue MapUnicodeToUpper growslice_cap).
Local Abbreviation Open := (Open MapUnicodeToUpper growslice_cap).
Local Abbreviation merge_range :=
  (merge_range MapUnicodeToUpper growslice_cap).
Local Abbreviation merge := (merge MapUnicodeToUpper growslice_cap).

(** Whether one of the names is a key of the source. *)
Local Abbreviation any_in srcFile names :=
  (existsb (fun k => bool_decide (is_Some (Values srcFile !! k))) names).

(** The loop of [merge] after [i] turns: the destination has its order and
    its backing arrays untouched, and the entries of the names passed are
    merged. *)
Lemma merge_range_spec (srcFile dstFile : CSFUtil) :
  store_ok dstFile -> keyed (Values srcFile) ->
  forall (todo i : nat) (cur : CSFUtil),
  (i + todo = length (OrderList dstFile))%nat ->
  Order cur = Order dstFile -> heap cur = heap dstFile ->
  (forall k, Values cur !! k
             = if bool_decide (k ∈ take i (OrderList dstFile))
               then merged_entry (Values srcFile) k <$> Values dstFile !! k
               else Values dstFile !! k) ->
  (filename cur, Version cur, Unused cur, Language cur, Categories cur)
  = (filename dstFile, Version dstFile, Unused dstFile, Language dstFile,
     Categories dstFile) ->
  (NumLabels cur, NumStrings cur)
  = (if any_in srcFile (take i (OrderList dstFile))
     then (Z.of_nat (size (Values dstFile)), Z.of_nat (size (Values dstFile)))
     else (NumLabels dstFile, NumStrings dstFile)) ->
  let res := merge_range (Order dstFile) srcFile todo i cur in
  OrderList res = OrderList dstFile
  /\ (forall k, Values res !! k
                = merged_entry (Values srcFile) k <$> Values dstFile !! k)
  /\ (filename res, Version res, Unused res, Language res, Categories res)
     = (filename dstFile, Version dstFile, Unused dstFile, Language dstFile,
        Categories dstFile)
  /\ (NumLabels res, NumStrings res)
     = (if any_in srcFile (OrderList dstFile)
        then (Z.of_nat (size (Values dstFile)), Z.of_nat (size (Values dstFile)))
        else (NumLabels dstFile, NumStrings dstFile)).
Proof.
  intros (Hs & Hnd & Hkeys) Hsrc.
  induction todo as [|todo IH]; intros i cur Hi Ho Hh Hv Hsc Hn; cbn zeta.
  - cbn [merge_range]. rewrite take_ge in Hv, Hn by lia.
    unfold OrderList at 1. rewrite Ho, Hh. split; [done|].
    split; [|done]. intros k. rewrite Hv. case_bool_decide as Hin; [done|].
    destruct (Values dstFile !! k) eqn:E; [|done].
    exfalso. apply Hin, Hkeys. eauto.
  - cbn [merge_range]. rewrite Hh. fold (OrderList dstFile).
    destruct (OrderList dstFile !! i) as [s|] eqn:Es; cycle 1.
    { apply lookup_ge_None in Es. lia. }
    cbn [default from_option id].
    assert (Hsnot : s ∉ take i (OrderList dstFile)).
    { intros Hin. rewrite <- (take_drop_middle _ _ _ Es) in Hnd.
      apply NoDup_app in Hnd as (_ & Hd & _). apply (Hd s Hin).
      apply list_elem_of_here. }
    assert (Htake : take (S i) (OrderList dstFile)
                    = take i (OrderList dstFile) ++ [s])
      by (by apply take_S_r).
    assert (Hd : is_Some (Values dstFile !! s)).
    { apply Hkeys. by eapply list_elem_of_lookup_2. }
    destruct Hd as [d Hd].
    assert (Hcur : Values cur !! s = Some d).
    { rewrite Hv. by rewrite bool_decide_eq_false_2. }
    destruct (Values srcFile !! s) as [v|] eqn:Ev.
    + pose proof (Hsrc s v Ev) as Hkv.
      destruct (WriteLabelValueBefore_values MapUnicodeToUpper growslice_cap
                  cur v false EmptyString) as (Hv' & Hn1 & Hn2 & Hsc').
      cbn zeta in Hv', Hn1, Hn2, Hsc'.
      fold (WriteLabelValue cur v false) in Hv', Hn1, Hn2, Hsc'.
      rewrite <- Hkv, Hcur in Hv'.
      assert (Hord : Order (WriteLabelValue cur v false) = Order cur
                     /\ heap (WriteLabelValue cur v false) = heap cur).
      { unfold WriteLabelValue, WriteLabelValueBefore.
        rewrite <- Hkv, Hcur. done. }
      destruct Hord as [Ho' Hh'].
      assert (Hsize : size (Values (WriteLabelValue cur v false))
                      = size (Values dstFile)).
      { apply (f_equal (size ∘ dom)) in Hv'. cbn in Hv'.
        rewrite !size_dom in Hv'. rewrite Hv'.
        rewrite map_size_insert_Some by eauto.
        rewrite <- !size_dom. f_equal. apply set_eq. intros k.
        rewrite !elem_of_dom, Hv.
        case_bool_decide; [|done]. by rewrite fmap_is_Some. }
      apply IH; [lia|congruence|congruence| | |].
      * intros k. rewrite Hv', Htake.
        destruct (decide (k = s)) as [->|Hne].
        -- rewrite lookup_insert_eq, bool_decide_eq_true_2
             by (apply elem_of_app; right; apply list_elem_of_here).
           rewrite Hd. cbn [fmap option_fmap option_map].
           unfold merged_entry. rewrite Ev.
           unfold Label_Write, Label_ValueString.
           by rewrite bytes_string_bytes.
        -- rewrite lookup_insert_ne by done. rewrite Hv.
           rewrite (bool_decide_ext (k ∈ take i (OrderList dstFile) ++ [s])
                                    (k ∈ take i (OrderList dstFile))); [done|].
           rewrite elem_of_app, list_elem_of_singleton. tauto.
      * by rewrite Hsc'.
      * rewrite Htake, existsb_app. cbn [existsb]. rewrite Ev.
        rewrite bool_decide_eq_true_2 by eauto.
        cbn [orb]. rewrite orb_true_r.
        rewrite Hn1, Hn2, Hsize. reflexivity.
    + apply IH; [lia|done|done| |done|].
      * intros k. rewrite Hv, Htake.
        destruct (decide (k = s)) as [->|Hne].
        -- rewrite bool_decide_eq_false_2 by done.
           rewrite bool_decide_eq_true_2
             by (apply elem_of_app; right; apply list_elem_of_here).
           rewrite Hd. cbn [fmap option_fmap option_map].
           unfold merged_entry. by rewrite Ev.
        -- rewrite (bool_decide_ext (k ∈ take i (OrderList dstFile) ++ [s])
                                    (k ∈ take i (OrderList dstFile))); [done|].
           rewrite elem_of_app, list_elem_of_singleton. tauto.
      * rewrite Htake, existsb_app. cbn [existsb]. rewrite Ev.
        rewrite bool_decide_eq_false_2 by (by intros [? ?]).
        rewrite !orb_false_r. exact Hn.
Qed.

(** X21. What [merge] writes. When both files open, the bytes written to the
    destination are those [Save] writes for a table that has the order and the
    keys of the destination; an entry whose key is also in the source has the
    value of the source entry (text, flag and extra value) and keeps the label
    name as the destination spells it; the other entries are those of the
    destination, and no entry of the source is added. The version, the unused
    scalar, the language and the categories are those of the destination; the
    two counts are the number of entries when some key is in both files, and
    those of the destination's header when none is. *)
Theorem merge_overwrites_common_entries (src dst : string)
    (srcData dstData out : bytes) :
  merge src dst srcData dstData = Some (inr out) ->
  exists srcFile dstFile res,
    Open src srcData = Some (srcFile, None)
    /\ Open dst dstData = Some (dstFile, None)
    /\ out = Save_bytes res
    /\ OrderList res = OrderList dstFile
    /\ (forall k, Values res !! k
                  = merged_entry (Values srcFile) k <$> Values dstFile !! k)
    /\ (filename res, Version res, Unused res, Language res, Categories res)
       = (filename dstFile, Version dstFile, Unused dstFile, Language dstFile,
          Categories dstFile)
    /\ (NumLabels res, NumStrings res)
       = (if any_in srcFile (OrderList dstFile)
          then (Z.of_nat (size (Values dstFile)),
                Z.of_nat (size (Values dstFile)))
          else (NumLabels dstFile, NumStrings dstFile)).
Proof.
  unfold merge.
  destruct (Open src srcData) as [[srcFile [e|]]|] eqn:Es; [done| |done].
  destruct (Open dst dstData) as [[dstFile [e|]]|] eqn:Ed; [done| |done].
  intros [= <-]. exists srcFile, dstFile. eexists.
  split; [done|]. split; [done|]. split; [reflexivity|].
  apply Open_Ok_inv in Es as (_ & Hks & _).
  apply Open_Ok_inv in Ed as (Hok & _).
  pose proof (elems_length _ _ (proj1 Hok)) as Hlen.
  by apply merge_range_spec.
Qed.

End Merge.

(** ** ImportExcel *)

Section ImportRows.

Variable MapUnicodeToUpper : string -> string.
Variable growslice_cap : nat -> nat -> nat.

Local Abbreviation ToUpper := (ToUpper MapUnicodeToUpper).
Local Abbreviation keyed := (keyed MapUnicodeToUpper).
Local Abbreviation WriteLabelValue :=
  (WriteLabelValue MapUnicodeToUpper growslice_cap).
Local Abbreviation Open := (Open MapUnicodeToUpper growslice_cap).
Local Abbreviation import_rows := (import_rows MapUnicodeToUpper growslice_cap).
Local Abbreviation ImportExcel := (ImportExcel MapUnicodeToUpper growslice_cap).
Local Abbreviation rows_written :=
  (rows_written MapUnicodeToUpper growslice_cap).
Local Abbreviation row_key := (row_key MapUnicodeToUpper).

Lemma columns_ok_cases (row : list string) :
  columns_ok row = true ->
  (exists a, row = [a]) \/ (exists a b, row = [a; b])
  \/ (exists a b c, row = [a; b; c]).
Proof.
  destruct row as [|a [|b [|c [|d row]]]]; try done; eauto 6.
  intros [_ H%Z.leb_le]%andb_true_iff. unfold len in H. cbn [length] in H. lia.
Qed.

(** The loop either takes every row or stops at the first row that has no
    column or more than three. *)
Lemma import_rows_spec (rows : list (list string)) :
  forall (i : Z) (csf : CSFUtil),
  match import_rows i rows csf with
  | inr csf' => forallb columns_ok rows = true /\ csf' = rows_written csf rows
  | inl e =>
      exists pre row post,
        rows = pre ++ row :: post
        /\ forallb columns_ok pre = true /\ columns_ok row = false
        /\ e = ErrColumnCount (len row) (i + len pre)
  end.
Proof.
  induction rows as [|row rows IH]; intros i csf; [done|].
  cbn [import_rows].
  destruct (columns_ok row) eqn:Eok.
  - assert (Hstep : match row with
                    | [a] =>
                        import_rows (i + 1) rows
                          (WriteLabelValue csf (NewLabelValue a EmptyString []) false)
                    | [a; b] =>
                        import_rows (i + 1) rows
                          (WriteLabelValue csf (NewLabelValue a b []) false)
                    | [a; b; c] =>
                        import_rows (i + 1) rows
                          (WriteLabelValue csf (NewLabelValue a b [c]) false)
                    | _ => inl (ErrColumnCount (len row) i)
                    end
                    = import_rows (i + 1) rows
                        (WriteLabelValue csf (row_entry row) false)).
    { by destruct (columns_ok_cases row Eok)
        as [[a ->]|[(a & b & ->)|(a & b & c & ->)]]. }
    rewrite Hstep. specialize (IH (i + 1) (WriteLabelValue csf (row_entry row) false)).
    destruct (import_rows _ rows _) as [e|csf'].
    + destruct IH as (pre & bad & post & -> & Hpre & Hbad & ->).
      exists (row :: pre), bad, post. split; [done|].
      cbn [forallb]. rewrite Eok, Hpre. split; [done|]. split; [done|].
      f_equal. unfold len. cbn [length]. lia.
    + destruct IH as [Hall ->]. cbn [forallb]. by rewrite Eok, Hall.
  - assert (Hstop : match row with
                    | [a] =>
                        import_rows (i + 1) rows
                          (WriteLabelValue csf (NewLabelValue a EmptyString []) false)
                    | [a; b] =>
                        import_rows (i + 1) rows
                          (WriteLabelValue csf (NewLabelValue a b []) false)
                    | [a; b; c] =>
                        import_rows (i + 1) rows
                          (WriteLabelValue csf (NewLabelValue a b [c]) false)
                    | _ => inl (ErrColumnCount (len row) i)
                    end
                    = inl (ErrColumnCount (len row) i)).
    { by destruct row as [|a [|b [|c [|d row]]]]. }
    rewrite Hstop. exists [], row, rows. split; [done|]. split; [done|].
    split; [done|]. f_equal. unfold len. cbn [length]. lia.
Qed.

(** X22. When [ImportExcel] saves and when it does not. With a file that does
    not open, the error of [Open] is returned as it is. With a file that
    opens: without rows the error is "no data to read"; with a row that has no
    column or more than three, the error names the column count and the index
    of the first such row, and nothing is saved, although the rows before it
    have been written to the table in memory; a row of one column is taken,
    with the empty text. Otherwise the bytes saved are those of the table
    after every row has been written with [WriteLabelValue], in the order of
    the rows. *)
Theorem import_saves_all_rows_or_nothing (rows : list (list string))
    (output : string) (data : bytes) :
  match Open output data with
  | None => False
  | Some (_, Some err) =>
      ImportExcel rows output data = Some (inl (ImportOpen err))
  | Some (csf, None) =>
      match ImportExcel rows output data with
      | None => False
      | Some (inr out) =>
          rows <> [] /\ forallb columns_ok rows = true
          /\ out = Save_bytes (rows_written csf rows)
      | Some (inl e) =>
          (rows = [] /\ e = ErrNoData)
          \/ exists pre row post,
               rows = pre ++ row :: post
               /\ forallb columns_ok pre = true /\ columns_ok row = false
               /\ e = ErrColumnCount (len row) (len pre)
      end
  end.
Proof.
  unfold ImportExcel.
  destruct (Open_total MapUnicodeToUpper growslice_cap output data)
    as [[csf [err|]] ->]; [done|].
  destruct rows as [|row rows]; [by left|].
  replace (len (row :: rows) <? 1) with false
    by (symmetry; apply Z.ltb_ge; unfold len; cbn [length]; lia).
  pose proof (import_rows_spec (row :: rows) 0 csf) as H.
  destruct (import_rows 0 (row :: rows) csf) as [e|csf'].
  - right. destruct H as (pre & bad & post & -> & Hpre & Hbad & ->).
    exists pre, bad, post. by rewrite Z.add_0_l.
  - destruct H as [Hall ->]. done.
Qed.

(** One write of [WriteLabelValue] on a table without an entry under the
    empty name. *)
Lemma WriteLabelValue_step (r : CSFUtil) (lv : LabelValue) :
  store_ok r -> keyed (Values r) -> Values r !! EmptyString = None ->
  ToUpper (Label_ValueString (LV_Label lv)) <> EmptyString ->
  let k := ToUpper (Label_ValueString (LV_Label lv)) in
  let r' := WriteLabelValue r lv false in
  store_ok r' /\ keyed (Values r') /\ Values r' !! EmptyString = None
  /\ OrderList r' = (if bool_decide (k ∈ OrderList r) then OrderList r
                     else OrderList r ++ [k])
  /\ (forall k', k' <> k -> Values r' !! k' = Values r !! k')
  /\ exists lv', Values r' !! k = Some lv' /\ LV_Value lv' = LV_Value lv.
Proof.
  intros Hok Hkey Hempty Hne. cbn zeta.
  set (k := ToUpper (Label_ValueString (LV_Label lv))) in *.
  pose proof (WriteLabelValueBefore_keyed MapUnicodeToUpper growslice_cap
                r lv false EmptyString Hkey) as Hkey'.
  destruct (WriteLabelValueBefore_values MapUnicodeToUpper growslice_cap
              r lv false EmptyString) as (Hv & _).
  cbn zeta in Hv. fold k in Hv. fold (WriteLabelValue r lv false) in Hv, Hkey'.
  assert (Hrest : (forall k', k' <> k ->
                     Values (WriteLabelValue r lv false) !! k' = Values r !! k')
                  /\ exists lv', Values (WriteLabelValue r lv false) !! k = Some lv'
                                 /\ LV_Value lv' = LV_Value lv).
  { rewrite Hv. split.
    - intros k' Hk'. by rewrite lookup_insert_ne.
    - eexists. rewrite lookup_insert_eq. split; [reflexivity|done]. }
  destruct Hrest as [Hother Hthis].
  assert (He' : Values (WriteLabelValue r lv false) !! EmptyString = None).
  { rewrite Hother by done. done. }
  destruct (Values r !! k) as [old|] eqn:Ek.
  - destruct (WriteLabelValueBefore_overwrite MapUnicodeToUpper growslice_cap
                r lv old false EmptyString Ek) as [Ho Hs].
    cbn zeta in Ho, Hs. fold (WriteLabelValue r lv false) in Ho, Hs.
    rewrite bool_decide_eq_true_2
      by (destruct Hok as (_ & _ & Hkeys); apply Hkeys; eauto).
    split; [by apply Hs|]. done.
  - destruct (WriteLabelValueBefore_append MapUnicodeToUpper growslice_cap
                r lv false EmptyString Hok Ek) as [Ho Hs].
    { by rewrite ToUpper_empty. }
    cbn zeta in Ho, Hs. fold (WriteLabelValue r lv false) in Ho, Hs.
    rewrite bool_decide_eq_false_2.
    + done.
    + destruct Hok as (_ & _ & Hkeys). intros Hin%Hkeys.
      rewrite Ek in Hin. by destruct Hin.
Qed.

Lemma rows_written_spec (rows : list (list string)) :
  forall csf : CSFUtil,
  store_ok csf -> keyed (Values csf) -> Values csf !! EmptyString = None ->
  Forall (fun row => row_key row <> EmptyString) rows ->
  let res := rows_written csf rows in
  store_ok res /\ keyed (Values res) /\ Values res !! EmptyString = None
  /\ OrderList res = first_seen (OrderList csf) (map row_key rows)
  /\ (forall k, k ∉ map row_key rows -> Values res !! k = Values csf !! k)
  /\ (forall pre row post,
        rows = pre ++ row :: post -> row_key row ∉ map row_key post ->
        exists lv, Values res !! row_key row = Some lv
                   /\ LV_Value lv = LV_Value (row_entry row)).
Proof.
  induction rows as [|row rows IH]; intros csf Hok Hkey Hempty Hrows; cbn zeta.
  - unfold rows_written. cbn [foldl map].
    split; [done|]. split; [done|]. split; [done|]. split; [done|].
    split; [done|]. intros [|? ?] ? ? ?; done.
  - apply Forall_cons in Hrows as [Hrow Hrows].
    destruct (WriteLabelValue_step csf (row_entry row) Hok Hkey Hempty Hrow)
      as (Hok1 & Hkey1 & Hempty1 & Ho1 & Hother1 & lv1 & Hlv1 & Hval1).
    change (rows_written csf (row :: rows))
      with (rows_written (WriteLabelValue csf (row_entry row) false) rows).
    destruct (IH _ Hok1 Hkey1 Hempty1 Hrows)
      as (Hok2 & Hkey2 & Hempty2 & Ho2 & Hother2 & Hlast2).
    split; [done|]. split; [done|]. split; [done|]. split; [|split].
    + rewrite Ho2, Ho1. cbn [map]. by rewrite first_seen_cons.
    + intros k Hk. cbn [map] in Hk. apply not_elem_of_cons in Hk as [Hne Hk].
      rewrite Hother2 by done. by apply Hother1.
    + intros pre row0 post Hsplit Hnot.
      destruct pre as [|p pre]; cbn [app] in Hsplit.
      * injection Hsplit as <- <-. rewrite Hother2 by done. eauto.
      * injection Hsplit as <- ->. by eapply Hlast2.
Qed.

(** X23. Importing rows: first place, last value. Take a file that opens into
    a table without an entry under the empty name, and rows of one to three
    columns, at least one, none with a first column whose upper-cased form is
    empty. [ImportExcel] saves a table that satisfies the invariant of the
    store. Its [Order] is that of the file followed by the names that are new,
    in the order of their first row. An entry that no row names is as it was,
    and the entry of a name has the value (text and extra value) of the last
    row that names it. *)
Theorem import_first_place_last_value (rows : list (list string))
    (output : string) (data : bytes) (csf : CSFUtil) :
  Open output data = Some (csf, None) ->
  Values csf !! EmptyString = None ->
  rows <> [] ->
  forallb columns_ok rows = true ->
  Forall (fun row => row_key row <> EmptyString) rows ->
  exists res,
    ImportExcel rows output data = Some (inr (Save_bytes res))
    /\ store_ok res
    /\ OrderList res = first_seen (OrderList csf) (map row_key rows)
    /\ (forall k, k ∉ map row_key rows -> Values res !! k = Values csf !! k)
    /\ (forall pre row post,
          rows = pre ++ row :: post -> row_key row ∉ map row_key post ->
          exists lv, Values res !! row_key row = Some lv
                     /\ LV_Value lv = LV_Value (row_entry row)).
Proof.
  intros HO Hempty Hne Hcols Hkeys.
  exists (rows_written csf rows).
  pose proof (Open_Ok_inv MapUnicodeToUpper growslice_cap _ _ _ HO)
    as (Hok & Hkey & _).
  destruct (rows_written_spec rows csf Hok Hkey Hempty Hkeys)
    as (H1 & _ & _ & H2 & H3 & H4).
  split; [|done].
  unfold ImportExcel. rewrite HO.
  destruct rows as [|row rows]; [done|].
  replace (len (row :: rows) <? 1) with false
    by (symmetry; apply Z.ltb_ge; unfold len; cbn [length]; lia).
  pose proof (import_rows_spec (row :: rows) 0 csf) as H.
  destruct (import_rows 0 (row :: rows) csf) as [e|csf'].
  - destruct H as (pre & bad & post & E & _ & Hbad & _).
    rewrite E, forallb_app in Hcols. cbn [forallb] in Hcols.
    rewrite Hbad in Hcols. by rewrite andb_false_r in Hcols.
  - by destruct H as [_ ->].
Qed.

End ImportRows.

(** ** utils *)

Lemma Contains_elem_of (haystack : list string) (needle : string) :
  utils.Contains haystack needle = true <-> needle ∈ haystack.
Proof.
  induction haystack as [|v h IH]; cbn [utils.Contains].
  - split; [done | by intros ?%elem_of_nil].
  - rewrite elem_of_cons. case_bool_decide as E.
    + subst v. split; [by left | done].
    + rewrite IH. split; [by right | by intros [->|?]].
Qed.

Lemma StringMapKeys_fill (visits : list (string * string)) :
  forall (done : list string) (n : nat),
  (length visits <= n)%nat ->
  (foldl (fun '(keys, i) (kv : string * string) => (<[i := kv.1]> keys, S i))
         (done ++ replicate n EmptyString, length done) visits).1
  = done ++ map fst visits ++ replicate (n - length visits) EmptyString.
Proof.
  induction visits as [|kv visits IH]; intros pre n Hn.
  - cbn. by rewrite Nat.sub_0_r.
  - cbn [foldl length] in *. destruct n as [|n]; [lia|].
    cbn [replicate].
    replace (<[length pre := kv.1]> (pre ++ EmptyString :: replicate n EmptyString))
      with ((pre ++ [kv.1]) ++ replicate n EmptyString).
    + replace (S (length pre)) with (length (pre ++ [kv.1]))
        by (rewrite length_app; cbn; lia).
      rewrite IH by lia. cbn [map]. rewrite <- app_assoc. reflexivity.
    + rewrite insert_app_r_alt, Nat.sub_diag by lia. cbn.
      by rewrite <- app_assoc.
Qed.

Lemma StringMapKeys_keys (visits : list (string * string)) :
  utils.StringMapKeys visits = map fst visits.
Proof.
  unfold utils.StringMapKeys.
  pose proof (StringMapKeys_fill visits [] (length visits) (le_n _)) as H.
  cbn [app length] in H. rewrite H, Nat.sub_diag. cbn. by rewrite app_nil_r.
Qed.

(** X24. The keys of a map, and membership in them. In whatever order the map
    is ranged over, [StringMapKeys] returns every key of the map once, and
    [Contains] on its result tells whether a string is a key of the map; this
    is the test that [help] makes on the table of usage messages. *)
Theorem Contains_StringMapKeys (m : gmap string string)
    (visits : list (string * string)) (cmd : string) :
  ranges m visits ->
  (utils.Contains (utils.StringMapKeys visits) cmd = true
   <-> is_Some (m !! cmd))
  /\ NoDup (utils.StringMapKeys visits)
  /\ length (utils.StringMapKeys visits) = size m.
Proof.
  unfold ranges. intros Hv. rewrite StringMapKeys_keys.
  split; [|split].
  - rewrite Contains_elem_of, Hv, list_elem_of_fmap. split.
    + intros ([k v] & -> & Hkv%elem_of_map_to_list). eauto.
    + intros [v Hkv]. exists (cmd, v). split; [done|].
      by apply elem_of_map_to_list.
  - rewrite Hv. apply NoDup_fst_map_to_list.
  - rewrite length_map, Hv. apply length_map_to_list.
Qed.

(** ** LanguageName *)

(** X25. The name of the language is always taken from the table [Languages]:
    the index is never out of its range. It is "Unknown" for every language
    code that is not one of 0 to 9, and for no other. *)
Theorem LanguageName_in_Languages (r : CSFUtil) :
  0 <= Language r ->
  LanguageName r ∈ Languages
  /\ (LanguageName r = "Unknown"%string <-> 9 < Language r).
Proof.
  intros H0. unfold LanguageName.
  destruct (Z.ltb_spec 9 (Language r)) as [H9|H9].
  - split; [|done]. cbn. do 10 apply list_elem_of_further.
    apply list_elem_of_here.
  - assert (Hl : (Z.to_nat (Language r) < 10)%nat) by lia.
    assert (Hno : ~ 9 < Language r) by lia.
    destruct (Z.to_nat (Language r)) as [|[|[|[|[|[|[|[|[|[|n]]]]]]]]]];
      [..|lia]; cbn; (split; [|split; [discriminate|done]]);
      repeat first [apply list_elem_of_here | apply list_elem_of_further].
Qed.

(** ** NewLabelValue and LabelValue.String *)

Lemma ValueString_WriteExtra (v : Value) (s : string) :
  ValueString (WriteExtra v s) = ValueString v.
Proof. reflexivity. Qed.

(** X12. An entry made by [NewLabelValue] prints as it was given: the label
    name, " -> ", the text, and, when extra strings were passed, " , " and the
    first of them; further extra strings are ignored. The text is to be valid
    UTF-8. *)
Theorem new_entry_prints_as_given (label value : string) (extra : list string) :
  utf8.ValidString value ->
  LabelValue_String (NewLabelValue label value extra)
  = (label ++ " -> " ++ value
     ++ match extra with
        | e0 :: _ => " , " ++ e0
        | [] => ""
        end)%string.
Proof.
  intros Hv. unfold LabelValue_String, NewLabelValue, NewLabelValueWithOffset.
  cbn [LV_Label LV_Value].
  assert (Hl : Label_ValueString (Label_Write (mkLabel 0 1 []) label) = label)
    by apply string_bytes_string.
  rewrite Hl. destruct extra as [|e0 extra].
  - rewrite ValueString_Write, Hv. reflexivity.
  - rewrite ValueString_WriteExtra, ValueString_Write, Hv.
    unfold ExtraValueString, WriteExtra.
    cbn [HaveExtra ExtraValue negb]. by rewrite string_bytes_string.
Qed.

(** ** The categories and the offsets of a decoded table *)

Section Categories.

Variable MapUnicodeToUpper : string -> string.
Variable growslice_cap : nat -> nat -> nat.

Local Abbreviation ToUpper := (ToUpper MapUnicodeToUpper).
Local Abbreviation key := (key MapUnicodeToUpper).
Local Abbreviation firsts := (firsts MapUnicodeToUpper).
Local Abbreviation record_entry := (record_entry MapUnicodeToUpper growslice_cap).
Local Abbreviation decode_step := (decode_step MapUnicodeToUpper growslice_cap).
Local Abbreviation decode_records :=
  (decode_records MapUnicodeToUpper growslice_cap).
Local Abbreviation last_wins := (last_wins MapUnicodeToUpper).
Local Abbreviation Open := (Open MapUnicodeToUpper growslice_cap).

(** The label names of a category, as the loop of [readContent] collects
    them from the records that are the first of their key: all of them
    but the first. *)
Local Abbreviation members fs cat :=
  (match filter (fun rec => category_of (key rec) = cat) fs with
   | [] => None
   | _ :: rest => Some (map (fun rec => string_of_bytes (Wire.name rec)) rest)
   end).

Lemma decode_step_categories (c : content) (fs : list Wire.record)
    (o : Z) (rec : Wire.record) :
  (forall k, is_Some (mapLabelValue c !! k) <-> k ∈ map key fs) ->
  (forall cat, mapCate c !! cat = members fs cat) ->
  let c' := decode_step c (o, rec) in
  let fs' := if bool_decide (key rec ∈ map key fs) then fs else fs ++ [rec] in
  (forall k, is_Some (mapLabelValue c' !! k) <-> k ∈ map key fs')
  /\ (forall cat, mapCate c' !! cat = members fs' cat).
Proof.
  intros Hdom Hcat. cbn zeta. unfold decode_step, record_entry.
  cbn [fst snd Wire.decoded LV_Label LV_Value].
  unfold Label_ValueString. cbn [Label_Value]. fold (key rec).
  fold (category_of (key rec)).
  destruct (mapLabelValue c !! key rec) as [old|] eqn:Ek.
  - assert (Hin : key rec ∈ map key fs) by (apply Hdom; eauto).
    rewrite (bool_decide_eq_true_2 (key rec ∈ map key fs)) by done.
    cbn [mapLabelValue mapCate].
    split; [|done]. intros k. rewrite lookup_insert_is_Some', Hdom.
    split; [intros [<-|?]; done | by right].
  - assert (Hnin : key rec ∉ map key fs).
    { intros Hin%Hdom. rewrite Ek in Hin. by destruct Hin. }
    rewrite (bool_decide_eq_false_2 (key rec ∈ map key fs)) by done.
    destruct (append1 _ _ _ _) as [m' order']. cbn [mapLabelValue mapCate].
    split.
    + intros k. rewrite lookup_insert_is_Some', Hdom, map_app, elem_of_app.
      cbn [map]. rewrite list_elem_of_singleton. split; intros [?|?]; auto.
    + intros cat. rewrite filter_app.
      specialize (Hcat (category_of (key rec))) as Hown.
      destruct (decide (cat = category_of (key rec))) as [->|Hne].
      * rewrite filter_cons_True, filter_nil by done. rewrite Hown.
        destruct (filter _ fs) as [|x rest]; cbn [app].
        -- by rewrite lookup_insert_eq.
        -- rewrite lookup_insert_eq, map_app. reflexivity.
      * rewrite filter_cons_False, filter_nil, app_nil_r by congruence.
        rewrite <- Hcat.
        destruct (mapCate c !! category_of (key rec));
          by rewrite lookup_insert_ne.
Qed.

Lemma decode_steps_categories (rs : list Wire.record) :
  forall (o : Z) (c : content) (fs : list Wire.record),
  (forall k, is_Some (mapLabelValue c !! k) <-> k ∈ map key fs) ->
  (forall cat, mapCate c !! cat = members fs cat) ->
  forall cat,
    mapCate (foldl decode_step c (Wire.placed o rs)) !! cat
    = members (foldl (fun acc r => if bool_decide (key r ∈ map key acc)
                                   then acc else acc ++ [r]) fs rs) cat.
Proof.
  induction rs as [|rec rs IH]; intros o c fs Hdom Hcat cat; [apply Hcat|].
  cbn [Wire.placed foldl].
  destruct (decode_step_categories c fs o rec Hdom Hcat) as [Hdom' Hcat'].
  by apply IH.
Qed.

(** X8. The categories of a decoded table. On a stream of well-formed records,
    [Open] files the names under categories as follows. Only a record that is
    the first of its key counts. Its category is the part of the key before
    the first colon, the empty string when the key has no colon. The first
    record of a category creates the category with an empty list and is not
    put on it; every later one is appended, with the label name as the record
    spells it. So a category lists all of its names but the first. *)
Theorem categories_hold_all_but_first (name : string) (h : Wire.header)
    (rs : list Wire.record) :
  Wire.wf_header h = true ->
  forallb Wire.wf_record rs = true ->
  len rs <= 20000 ->
  exists r,
    Open name (Wire.stream h rs) = Some (r, None)
    /\ forall cat, Categories r !! cat = members (firsts rs) cat.
Proof.
  intros Hh Hwf Hlen. eexists. split; [by apply Open_stream|].
  intros cat. unfold table_of. cbn [Categories].
  unfold decode_records. apply decode_steps_categories.
  - intros k. cbn. rewrite lookup_empty. split.
    + by intros [? ?].
    + by intros ?%elem_of_nil.
  - intros cat'. cbn. by rewrite lookup_empty.
Qed.

(** *** Offsets *)

Lemma last_wins_from (prs : list (Z * Wire.record)) :
  forall (m : gmap string LabelValue) (k : string) (lv : LabelValue),
  last_wins m prs !! k = Some lv ->
  m !! k = Some lv
  \/ exists o rec, (o, rec) ∈ prs /\ key rec = k /\ lv = Wire.decoded o rec.
Proof.
  induction prs as [|[o rec] prs IH]; intros m k lv; [by left|].
  unfold last_wins. cbn [foldl fst snd].
  fold (last_wins (<[key rec := Wire.decoded o rec]> m) prs).
  intros [Hm|(o' & rec' & Hin & Hk & ->)]%IH.
  - destruct (decide (key rec = k)) as [E|Hne].
    + rewrite E, lookup_insert_eq in Hm. injection Hm as <-.
      right. exists o, rec. split; [apply list_elem_of_here|done].
    + rewrite lookup_insert_ne in Hm by done. by left.
  - right. exists o', rec'. split; [by apply list_elem_of_further|done].
Qed.

Lemma placed_elem_of (rs : list Wire.record) :
  forall (o0 o : Z) (rec : Wire.record),
  (o, rec) ∈ Wire.placed o0 rs ->
  exists pre post,
    rs = pre ++ rec :: post
    /\ o = o0 + len (flat_map Wire.record_bytes pre).
Proof.
  induction rs as [|r rs IH]; intros o0 o rec Hin; [by apply elem_of_nil in Hin|].
  cbn [Wire.placed] in Hin. apply elem_of_cons in Hin as [[= -> ->]|Hin].
  - exists [], rs. split; [done|]. cbn. unfold len. cbn. lia.
  - apply IH in Hin as (pre & post & -> & ->).
    exists (r :: pre), post. split; [done|].
    cbn [flat_map]. rewrite len_app. lia.
Qed.

(** X9. The offsets of a decoded table are places in the file. On a stream of
    well-formed records, every entry of the table that [Open] returns carries,
    as the offset of its label, a position of the stream at which the bytes of
    that very entry start, as [LabelValue.Bytes] gives them; the position is
    behind the 24 bytes of the header; and the offset of its value is the
    offset of the label plus the 12 bytes before the name plus the length of
    the name. *)
Theorem offsets_point_at_the_entry (name : string) (h : Wire.header)
    (rs : list Wire.record) :
  Wire.wf_header h = true ->
  forallb Wire.wf_record rs = true ->
  len rs <= 20000 ->
  exists r,
    Open name (Wire.stream h rs) = Some (r, None)
    /\ forall k lv,
         Values r !! k = Some lv ->
         let o := Label_Offset (LV_Label lv) in
         24 <= o
         /\ (exists rest,
               drop (Z.to_nat o) (Wire.stream h rs) = LabelValue_Bytes lv ++ rest)
         /\ Value_Offset (LV_Value lv) = o + 12 + len (Label_Value (LV_Label lv)).
Proof.
  intros Hh Hwf Hlen. eexists. split; [by apply Open_stream|].
  intros k lv. unfold table_of. cbn [Values].
  destruct (decode_records_spec MapUnicodeToUpper growslice_cap rs)
    as (_ & -> & _).
  intros [Hm|(o & rec & Hin & _ & ->)]%last_wins_from;
    [by rewrite lookup_empty in Hm|].
  apply placed_elem_of in Hin as (pre & post & -> & ->).
  cbn zeta. cbn [Wire.decoded LV_Label LV_Value Label_Offset Value_Offset Label_Value].
  pose proof (len_nonneg (flat_map Wire.record_bytes pre)) as Hpre.
  split; [lia|]. split; [|done].
  exists (flat_map Wire.record_bytes post).
  rewrite forallb_app in Hwf. apply andb_true_iff in Hwf as [_ Hwf].
  apply forallb_cons_true in Hwf as [Hrec _].
  change (LabelValue_Bytes _)
    with (LabelValue_Bytes
            (Wire.decoded (24 + len (flat_map Wire.record_bytes pre)) rec)).
  rewrite LabelValue_Bytes_decoded by done.
  unfold Wire.stream. rewrite flat_map_app. cbn [flat_map].
  rewrite app_assoc.
  rewrite drop_app_length'; [done|].
  rewrite length_app, header_bytes_length. unfold len. lia.
Qed.

End Categories.

(** ** A value cut short before the length of its extra value *)

Section ExtraLength.

Variable MapUnicodeToUpper : string -> string.
Variable growslice_cap : nat -> nat -> nat.

Local Abbreviation decode_step := (decode_step MapUnicodeToUpper growslice_cap).
Local Abbreviation readContent_loop :=
  (readContent_loop MapUnicodeToUpper growslice_cap).
Local Abbreviation decode_records :=
  (decode_records MapUnicodeToUpper growslice_cap).
Local Abbreviation Open := (Open MapUnicodeToUpper growslice_cap).

(** The record with the same name and text and an empty extra value. *)
Local Abbreviation empty_extra r :=
  (Wire.mkRecord (Wire.name r) (Wire.text r) (Some [])).

Lemma readValue_without_extra_length (r : Wire.record) (x p : bytes) (o : Z) :
  Wire.wf_record r = true -> Wire.extra r = Some x -> (length p < 4)%nat ->
  readValue (mkFile (bytes_of_string "WRTS"
                     ++ Wire.uint32_le (len (Wire.text r) / 2)
                     ++ Wire.text r ++ p) o)
  = (Ok (mkValue o true (Wire.text r) []),
     mkFile [] (o + 8 + len (Wire.text r) + len p)).
Proof.
  intros Hwf Hx Hp. destruct (wf_record_spec r Hwf) as (_ & Hev & Ht & _).
  unfold readValue. cbn [pos offset].
  rewrite (checkIdentifier_app [ValueIdentifier; ValueWithExtraIdentifier] "WRTS")
    by (done || apply list_elem_of_further, list_elem_of_here).
  rewrite bool_decide_eq_true_2 by done.
  erewrite bind_ok by (apply readUInt_app; lia).
  rewrite Hev. erewrite bind_ok by (apply read_app; lia).
  rewrite readUInt_partial by done.
  unfold bind, read, fileRead, ret. cbn [Z.eqb len length Z.of_nat negb].
  do 2 f_equal. lia.
Qed.

(** X7. The error of the read of the extra value's length is dropped. On a
    stream of well-formed records followed by a record of the "WRTS" kind that
    ends after its text, or up to three bytes later, [Open] returns no error
    and the table that it returns for the stream in which that record is
    complete and has an empty extra value: the length is taken to be 0 when it
    cannot be read. *)
Theorem missing_extra_length_reads_as_empty (name : string) (h : Wire.header)
    (rs : list Wire.record) (r : Wire.record) (x p : bytes) :
  Wire.wf_header h = true ->
  forallb Wire.wf_record rs = true ->
  len rs < 20000 ->
  Wire.wf_record r = true -> Wire.extra r = Some x -> (length p < 4)%nat ->
  Open name (Wire.stream h rs ++ Wire.cut r 7 p)
  = Some (table_of name h (decode_records (rs ++ [empty_extra r])), None)
  /\ Open name (Wire.stream h (rs ++ [empty_extra r]))
     = Some (table_of name h (decode_records (rs ++ [empty_extra r])), None).
Proof.
  intros Hh Hrs Hlen Hwf Hx Hp. split; cycle 1.
  { apply Open_stream; [done| |].
    - rewrite forallb_app, Hrs. cbn [forallb andb].
      rewrite andb_true_r. unfold Wire.wf_record in *.
      cbn [Wire.name Wire.text Wire.extra]. rewrite Hx in Hwf.
      apply andb_true_iff in Hwf as [-> _]. reflexivity.
    - unfold len in *. rewrite length_app. cbn [length]. lia. }
  unfold Open, openAndParse, Wire.stream. rewrite <- app_assoc.
  rewrite readHeader_ok by done.
  unfold readContent. cbn [heap empty_slice app length unread].
  set (tail := Wire.cut r 7 p).
  assert (Htail : tail = bytes_of_string " LBL" ++ Wire.uint32_le 1
                         ++ Wire.uint32_le (len (Wire.name r)) ++ Wire.name r
                         ++ bytes_of_string "WRTS"
                         ++ Wire.uint32_le (len (Wire.text r) / 2)
                         ++ Wire.text r ++ p).
  { unfold tail, Wire.cut, Wire.fields. rewrite Hx.
    cbn [take app concat]. rewrite app_nil_r, <- !app_assoc. reflexivity. }
  assert (Hlt : (20 <= length tail)%nat).
  { rewrite Htail, !length_app, !uint32_le_length. cbn [length bytes_of_string
      list_ascii_of_string]. lia. }
  pose proof (flat_records_length rs) as Hfl.
  replace (S (length (flat_map Wire.record_bytes rs ++ tail)))
    with (length rs
          + S (S (length (flat_map Wire.record_bytes rs) - length rs
                  + (length tail - 1))))%nat
    by (rewrite length_app; lia).
  rewrite readContent_loop_records by (done || cbn [counter]; lia).
  rewrite readContent_loop_S, Htail.
  rewrite readLabel_ok_flat by done.
  rewrite (readValue_without_extra_length r x p) by done.
  cbv zeta. rewrite record_entry_counter.
  destruct (decode_steps_spec MapUnicodeToUpper growslice_cap
              (Wire.placed 24 rs) _ content_ok_init)
    as (_ & _ & _ & Hc).
  cbn zeta in Hc. unfold len in Hc. rewrite placed_length in Hc.
  cbn [counter] in Hc.
  destruct (Z.ltb_spec 20000
              (counter (foldl decode_step (mkContent ∅ ∅ (mkSlice 0 0 0) [[]] 0)
                          (Wire.placed 24 rs)) + 1)) as [Hbig|_].
  { unfold len in Hlen. lia. }
  rewrite readContent_loop_end.
  assert (Hlast :
    decode_records (rs ++ [empty_extra r])
    = record_entry MapUnicodeToUpper growslice_cap
        (foldl decode_step (mkContent ∅ ∅ (mkSlice 0 0 0) [[]] 0)
               (Wire.placed 24 rs))
        (mkLabel (24 + len (flat_map Wire.record_bytes rs)) 1 (Wire.name r))
        (mkValue (24 + len (flat_map Wire.record_bytes rs) + 12
                  + len (Wire.name r)) true (Wire.text r) [])).
  { unfold decode_records. rewrite placed_app, foldl_app. reflexivity. }
  rewrite Hlast. reflexivity.
Qed.

End ExtraLength.

(** ** What the readers return was in the file *)

Lemma read_Ok_bytes (size : Z) (f f' : file) (got : bytes) :
  read size f = (Ok got, f') ->
  len got = size /\ unread f = got ++ unread f'
  /\ offset f' = offset f + len got.
Proof.
  unfold read, fileRead.
  destruct (Z.eqb_spec size 0) as [->|Hne].
  - cbn. intros [= <- <-]. cbn. unfold len. cbn. split; [done|]. split; [done|lia].
  - destruct (unread f) as [|c u] eqn:Eu; [done|].
    set (k := Z.to_nat (Z.min size maxRW)).
    destruct (Z.eqb_spec (len (take k (c :: u))) size) as [Hl|Hl];
      cbn [negb]; [|done].
    intros [= <- <-]. cbn [unread offset].
    by rewrite take_drop.
Qed.

(** X4. A label that [readLabel] returns was in the file: at the place where
    the read started there are the identifier " LBL", a count of string pairs,
    the length of the name and the name itself, and the file is left right
    behind them. The offset of the label is that place. The count of string
    pairs can be any 32-bit number: it is read and not checked. *)
Theorem readLabel_returns_what_is_there (f f' : file) (l : Label) :
  readLabel f = (Ok l, f') ->
  Label_Offset l = offset f
  /\ 0 <= StringPairs l < 2 ^ 32
  /\ unread f = bytes_of_string LabelIdentifier
                ++ Wire.uint32_le (StringPairs l)
                ++ Wire.uint32_le (len (Label_Value l))
                ++ Label_Value l ++ unread f'
  /\ offset f' = offset f + 12 + len (Label_Value l).
Proof.
  unfold readLabel, pos.
  destruct (checkIdentifier _ f) as [[d|e] f1] eqn:Ec; [|done].
  apply checkIdentifier_Ok_bytes in Ec as (Hd%list_elem_of_singleton & U0 & O0).
  unfold bind.
  destruct (readUInt f1) as [[pairs|?] f2] eqn:E1; [|done].
  destruct (readUInt f2) as [[n|?] f3] eqn:E2; [|done].
  destruct (read n f3) as [[value|?] f4] eqn:E3; [|done].
  unfold ret. intros [= <- <-]. cbn [Label_Offset StringPairs Label_Value].
  apply readUInt_Ok_bytes in E1 as (B1 & U1 & O1).
  apply readUInt_Ok_bytes in E2 as (B2 & U2 & O2).
  apply read_Ok_bytes in E3 as (L3 & U3 & O3).
  split; [done|]. split; [done|]. split; [|lia].
  rewrite U0, U1, U2, U3, L3. by subst d.
Qed.

(** X5. A value that [readValue] returns was in the file: the identifier
    " RTS" or "WRTS", the flag of the extra value telling which; the number of
    16-bit units of the text; the text, of an even number of bytes. For a
    value with the flag, the length of the extra value and the extra value
    follow, and the file is left behind them; or else the file ends less than
    four bytes after the text, and the extra value is empty. The offset of the
    value is the place where the read started. *)
Theorem readValue_returns_what_is_there (f f' : file) (v : Value) :
  readValue f = (Ok v, f') ->
  Value_Offset v = offset f
  /\ len (Value_Value v) mod 2 = 0
  /\ exists rest,
       unread f = bytes_of_string (if HaveExtra v then ValueWithExtraIdentifier
                                   else ValueIdentifier)
                  ++ Wire.uint32_le (len (Value_Value v) / 2)
                  ++ Value_Value v ++ rest
       /\ if HaveExtra v
          then rest = Wire.uint32_le (len (ExtraValue v)) ++ ExtraValue v
                      ++ unread f'
               \/ (ExtraValue v = [] /\ (length rest < 4)%nat /\ unread f' = [])
          else rest = unread f' /\ ExtraValue v = [].
Proof.
  unfold readValue, pos.
  destruct (checkIdentifier _ f) as [[d|e] f1] eqn:Ec; [|done].
  apply checkIdentifier_Ok_bytes in Ec as (Hd & U0 & O0).
  unfold bind.
  destruct (readUInt f1) as [[n|?] f2] eqn:E1; [|done].
  destruct (read (n * 2) f2) as [[value|?] f3] eqn:E2; [|done].
  apply readUInt_Ok_bytes in E1 as (B1 & U1 & O1).
  apply read_Ok_bytes in E2 as (L2 & U2 & O2).
  assert (Hhalf : len value / 2 = n) by (rewrite L2; apply Z.div_mul; lia).
  assert (Heven : len value mod 2 = 0) by (rewrite L2; apply Z_mod_mult).
  case_bool_decide as Hx.
  - destruct (readUInt f3) as [[m|e3] f4] eqn:E3.
    + destruct (read m f4) as [[extraVal|?] f5] eqn:E4; [|done].
      unfold ret. intros [= <- <-].
      cbn [Value_Offset Value_Value HaveExtra ExtraValue].
      apply readUInt_Ok_bytes in E3 as (B3 & U3 & O3).
      apply read_Ok_bytes in E4 as (L4 & U4 & O4).
      split; [done|]. split; [done|]. exists (unread f3).
      split; [by rewrite U0, U1, U2, Hhalf, Hx|].
      left. by rewrite U3, U4, L4.
    + destruct (read 0 f4) as [[extraVal|?] f5] eqn:E4; [|done].
      unfold ret. intros [= <- <-].
      cbn [Value_Offset Value_Value HaveExtra ExtraValue].
      apply read_Ok_bytes in E4 as (L4 & U4 & O4).
      assert (extraVal = []) as -> by (destruct extraVal; [done|by unfold len in L4]).
      cbn [app] in U4.
      split; [done|]. split; [done|]. exists (unread f3).
      split; [by rewrite U0, U1, U2, Hhalf, Hx|].
      right. split; [done|].
      unfold readUInt, bind in E3.
      destruct (readDWORD f3) as [[?|e'] g] eqn:Ed; [done|].
      injection E3 as <- <-. rewrite <- U4.
      unfold readDWORD, fileRead in Ed. cbn [Z.eqb] in Ed.
      destruct (unread f3) as [|c u] eqn:Eu.
      * injection Ed as _ <-. rewrite Eu. cbn. split; [lia|done].
      * change (Z.to_nat (Z.min 4 maxRW)) with 4%nat in Ed.
        destruct (Z.eqb_spec (len (take 4 (c :: u))) 4) as [?|Hl];
          cbn [negb] in Ed; [done|].
        injection Ed as _ <-. cbn [unread].
        unfold len in Hl. rewrite length_take in Hl. cbn [length] in *.
        split; [lia|]. apply drop_ge. lia.
  - unfold ret. intros [= <- <-].
    cbn [Value_Offset Value_Value HaveExtra ExtraValue].
    split; [done|]. split; [done|]. exists (unread f3).
    split; [|done]. rewrite U0, U1, U2, Hhalf.
    do 2 f_equal.
    apply list_elem_of_fmap in Hd as (id & -> & Hid).
    apply elem_of_cons in Hid as [->|Hid]; [done|].
    apply list_elem_of_singleton in Hid as ->. done.
Qed.

Section NewTable.

Variable MapUnicodeToUpper : string -> string.
Variable growslice_cap : nat -> nat -> nat.

Local Abbreviation Open := (Open MapUnicodeToUpper growslice_cap).

(** X20. A new table, saved and opened. [Save] writes 24 bytes for the table
    that [New] returns, the header alone, with both counts 0; [Open] on them
    returns, without error, the table that [New] returned: no entry, no
    category, an empty [Order], and the same version, unused scalar and
    language, when these fit 32 bits. This is what the command "new" leaves in
    the file it creates. *)
Theorem new_table_saved_opens_empty (name : string) (version unused language : Z) :
  0 <= version < 2 ^ 32 -> 0 <= unused < 2 ^ 32 -> 0 <= language < 2 ^ 32 ->
  length (Save_bytes (New name version unused language)) = 24%nat
  /\ Open name (Save_bytes (New name version unused language))
     = Some (New name version unused language, None).
Proof.
  intros Hv Hu Hl.
  assert (HS : Save_bytes (New name version unused language)
               = Wire.stream (Wire.mkHeader version 0 0 unused language) []).
  { unfold Save_bytes, New, OrderList, Wire.stream, Wire.header_bytes.
    cbn [empty_slice Version NumLabels NumStrings Unused Language heap Order
         Wire.version Wire.numLabels Wire.numStrings Wire.unused Wire.language
         app length elems slen take drop first flat_map].
    rewrite !PutUint32_uint32_le by lia. rewrite <- !app_assoc. reflexivity. }
  rewrite HS. split; [reflexivity|].
  rewrite Open_stream; [reflexivity| |done|done].
  unfold Wire.wf_header.
  cbn [Wire.version Wire.numLabels Wire.numStrings Wire.unused Wire.language].
  rewrite !andb_true_iff, !fits32_spec. lia.
Qed.

End NewTable.

(** ** The tables of the scenarios satisfy the invariant *)

Lemma keyed_empty (up : string -> string) : keyed up ∅.
Proof. intros k lv H. by rewrite lookup_empty in H. Qed.

Lemma New_ok (name : string) (version unused language : Z) :
  store_ok (New name version unused language)
  /\ keyed no_unicode (Values (New name version unused language))
  /\ Values (New name version unused language) !! EmptyString = None.
Proof.
  split; [apply store_ok_New|]. split; [apply keyed_empty | done].
Qed.

Lemma greeting_table_ok :
  store_ok greeting_table /\ keyed no_unicode (Values greeting_table)
  /\ Values greeting_table !! EmptyString = None.
Proof.
  destruct (New_ok "greeting.csf" 3 0 0) as (H1 & H2 & H3).
  destruct (WriteLabelValue_step no_unicode double_cap _
              (NewLabelValue "TXT:Greeting" "Hello!" []) H1 H2 H3)
    as (A & B & C & _); [by vm_compute|done].
Qed.

Lemma table_AC_ok :
  store_ok table_AC /\ keyed no_unicode (Values table_AC)
  /\ Values table_AC !! EmptyString = None.
Proof.
  destruct (New_ok "ac.csf" 3 0 0) as (H1 & H2 & H3).
  destruct (WriteLabelValue_step no_unicode double_cap _
              (NewLabelValue "TXT:A" "first" []) H1 H2 H3)
    as (A & B & C & _); [by vm_compute|].
  destruct (WriteLabelValue_step no_unicode double_cap _
              (NewLabelValue "TXT:C" "third" []) A B C)
    as (A' & B' & C' & _); [by vm_compute|done].
Qed.

(** ** The theorems above at concrete inputs *)

(** The invariant of a decoded table, on a stream of two records. *)
Lemma open_result_invariant_witness :
  exists r,
    Open no_unicode double_cap "two.csf"
         (Wire.stream header3 [rec_greeting; rec_bye]) = Some (r, None)
    /\ store_ok r /\ keyed no_unicode (Values r)
    /\ Z.of_nat (size (Values r)) <= 20000 /\ filename r = "two.csf"%string.
Proof.
  eexists. split; [vm_compute; reflexivity|].
  apply (open_result_invariant no_unicode double_cap "two.csf"
           (Wire.stream header3 [rec_greeting; rec_bye])).
  vm_compute. reflexivity.
Defined.

(** The header scalars, on a header followed by bytes that are no record. *)
Lemma open_keeps_header_scalars_witness :
  Wire.wf_header header3 = true
  /\ exists r oe,
       Open no_unicode double_cap "junk.csf"
            (Wire.header_bytes header3 ++ bytes_of_string "junk")
       = Some (r, oe)
       /\ filename r = "junk.csf"%string /\ header_of r = header3.
Proof.
  split; [reflexivity|].
  apply (open_keeps_header_scalars no_unicode double_cap "junk.csf" header3
           (bytes_of_string "junk")).
  reflexivity.
Defined.

(** The header of a file that opens, on a stream of two records. *)
Lemma open_success_has_header_witness :
  exists r,
    Open no_unicode double_cap "two.csf"
         (Wire.stream header3 [rec_greeting; rec_bye]) = Some (r, None)
    /\ exists tail,
         Wire.stream header3 [rec_greeting; rec_bye]
         = Wire.header_bytes (header_of r) ++ tail
         /\ Wire.wf_header (header_of r) = true.
Proof.
  eexists. split; [vm_compute; reflexivity|].
  apply (open_success_has_header no_unicode double_cap "two.csf"
           (Wire.stream header3 [rec_greeting; rec_bye])).
  vm_compute. reflexivity.
Defined.

(** An entry with an extra value, written and read back at offset 24. *)
Lemma entry_bytes_read_back_witness :
  let lv := NewLabelValue "TXT:Bye" "Bye!" ["bye01"%string] in
  Wire.wf_record (record_of_entry lv) = true
  /\ readLabel (mkFile (LabelValue_Bytes lv ++ []) 24)
     = (Ok (mkLabel 24 1 (bytes_of_string "TXT:Bye")),
        mkFile (Value_Bytes (LV_Value lv) ++ []) 43)
  /\ readValue (mkFile (Value_Bytes (LV_Value lv) ++ []) 43)
     = (Ok (mkValue 43 true (Value_Value (LV_Value lv))
                    (bytes_of_string "bye01")),
        mkFile [] (24 + len (LabelValue_Bytes lv))).
Proof.
  cbn zeta. split; [reflexivity|].
  apply (entry_bytes_read_back (NewLabelValue "TXT:Bye" "Bye!" ["bye01"%string])
           [] 24).
  reflexivity.
Defined.

(** Overwriting "TXT:Greeting" under the name "txt:greeting". *)
Lemma write_existing_keeps_order_witness :
  let lv := NewLabelValue "txt:greeting" "Hi!" [] in
  let r' := WriteLabelValueBefore no_unicode double_cap greeting_table lv false
              "TXT:Missing" in
  OrderList r' = OrderList greeting_table /\ store_ok r'
  /\ keyed no_unicode (Values r')
  /\ size (Values r') = size (Values greeting_table).
Proof.
  destruct greeting_table_ok as (H1 & H2 & _).
  apply (write_existing_keeps_order no_unicode double_cap greeting_table
           (NewLabelValue "txt:greeting" "Hi!" []) false "TXT:Missing");
    [vm_compute; eauto | exact H1 | exact H2].
Defined.

(** Appending "TXT:B" to the table of "TXT:A" and "TXT:C". *)
Lemma write_new_appends_witness :
  let lv := NewLabelValue "TXT:B" "second" [] in
  let r' := WriteLabelValue no_unicode double_cap table_AC lv false in
  OrderList r' = OrderList table_AC ++ ["TXT:B"%string]
  /\ store_ok r' /\ keyed no_unicode (Values r')
  /\ size (Values r') = S (size (Values table_AC)).
Proof.
  destruct table_AC_ok as (H1 & H2 & H3).
  apply (write_new_appends no_unicode double_cap table_AC
           (NewLabelValue "TXT:B" "second" []) false);
    [exact H1 | exact H2 | vm_compute; reflexivity | exact H3].
Defined.

(** Writing "TXT:B" before "txt:c" in the table of "TXT:A" and "TXT:C". *)
Lemma write_before_replaces_successor_witness :
  let lv := NewLabelValue "TXT:B" "second" [] in
  let r' := WriteLabelValueBefore no_unicode double_cap table_AC lv false
              "txt:c" in
  exists j,
    OrderList table_AC !! j = Some (ToUpper no_unicode "txt:c")
    /\ OrderList r'
       = take j (OrderList table_AC)
         ++ [ToUpper no_unicode (Label_ValueString (LV_Label lv));
             ToUpper no_unicode (Label_ValueString (LV_Label lv))]
         ++ drop (S j) (OrderList table_AC)
    /\ (ToUpper no_unicode "txt:c" ∉ OrderList r')
    /\ is_Some (Values r' !! ToUpper no_unicode "txt:c")
    /\ ~ NoDup (OrderList r').
Proof.
  destruct table_AC_ok as (H1 & _).
  apply (write_before_replaces_successor no_unicode double_cap table_AC
           (NewLabelValue "TXT:B" "second" []) false "txt:c");
    [exact H1 | vm_compute; reflexivity | vm_compute; eauto].
Defined.

(** Removing "txt:a" from the table of "TXT:A" and "TXT:C". *)
Lemma remove_deletes_entry_and_name_witness :
  let r' := RemoveLabelValue no_unicode double_cap table_AC "txt:a" in
  Values r' = delete (ToUpper no_unicode "txt:a") (Values table_AC)
  /\ OrderList r'
     = filter (fun k => k <> ToUpper no_unicode "txt:a") (OrderList table_AC)
  /\ store_ok r'
  /\ (filename r', Version r', Unused r', Language r', Categories r')
     = (filename table_AC, Version table_AC, Unused table_AC,
        Language table_AC, Categories table_AC)
  /\ (if (slen (Order table_AC) =? 0)%nat then r' = table_AC
      else NumLabels r' = Z.of_nat (size (Values r'))
           /\ NumStrings r' = Z.of_nat (size (Values r'))).
Proof.
  destruct table_AC_ok as (H1 & _).
  exact (remove_deletes_entry_and_name no_unicode double_cap table_AC "txt:a" H1).
Defined.

(** Writing "TXT:B" to the table of "TXT:A" and "TXT:C" and removing
    "txt:b". *)
Lemma remove_undoes_write_witness :
  let r' := RemoveLabelValue no_unicode double_cap
              (WriteLabelValue no_unicode double_cap table_AC
                 (NewLabelValue "TXT:B" "second" []) false) "txt:b" in
  Values r' = Values table_AC /\ OrderList r' = OrderList table_AC
  /\ store_ok r'.
Proof.
  destruct table_AC_ok as (H1 & _ & H3).
  apply (remove_undoes_write no_unicode double_cap table_AC
           (NewLabelValue "TXT:B" "second" []) false "txt:b");
    [exact H1 | vm_compute; reflexivity | exact H3 | vm_compute; reflexivity].
Defined.

(** Saving the table of "TXT:A" and "TXT:C" and opening the bytes. *)
Lemma open_after_save_witness :
  exists r',
    Open no_unicode double_cap "ac.csf" (Save_bytes table_AC) = Some (r', None)
    /\ header_of r' = header_of table_AC
    /\ OrderList r' = OrderList table_AC
    /\ (forall k, Values table_AC !! k = None -> Values r' !! k = None)
    /\ (forall k lv, Values table_AC !! k = Some lv ->
          exists lv',
            Values r' !! k = Some lv'
            /\ Label_Value (LV_Label lv') = Label_Value (LV_Label lv)
            /\ StringPairs (LV_Label lv') = 1
            /\ Value_Value (LV_Value lv') = Value_Value (LV_Value lv)
            /\ HaveExtra (LV_Value lv') = HaveExtra (LV_Value lv)
            /\ ExtraValue (LV_Value lv')
               = (if HaveExtra (LV_Value lv) then ExtraValue (LV_Value lv)
                  else []))
    /\ Save_bytes r' = Save_bytes table_AC.
Proof.
  destruct table_AC_ok as (H1 & H2 & _).
  apply (open_after_save no_unicode double_cap "ac.csf" table_AC H1 H2).
  - vm_compute. reflexivity.
  - apply (bool_decide_unpack
             (map_Forall (fun _ lv => Wire.wf_record (record_of_entry lv) = true)
                         (Values table_AC))).
    vm_compute. exact I.
  - vm_compute. discriminate.
Defined.

(** Merging a file that has "TXT:Greeting" with another text and "TXT:Foo"
    into the file of "TXT:Greeting" and "TXT:Bye". *)
Lemma merge_overwrites_common_entries_witness :
  exists out srcFile dstFile res,
    merge no_unicode double_cap "src.csf" "dst.csf"
          (Wire.stream header3 [record_of "txt:greeting" "Hallo!" None; rec_foo_1])
          (Wire.stream header3 [rec_greeting; rec_bye])
    = Some (inr out)
    /\ Open no_unicode double_cap "src.csf"
            (Wire.stream header3
               [record_of "txt:greeting" "Hallo!" None; rec_foo_1])
       = Some (srcFile, None)
    /\ Open no_unicode double_cap "dst.csf"
            (Wire.stream header3 [rec_greeting; rec_bye])
       = Some (dstFile, None)
    /\ out = Save_bytes res
    /\ OrderList res = OrderList dstFile
    /\ (forall k, Values res !! k
                  = merged_entry (Values srcFile) k <$> Values dstFile !! k).
Proof.
  eexists.
  assert (H : merge no_unicode double_cap "src.csf" "dst.csf"
                (Wire.stream header3
                   [record_of "txt:greeting" "Hallo!" None; rec_foo_1])
                (Wire.stream header3 [rec_greeting; rec_bye])
              = Some (inr _)) by (vm_compute; reflexivity).
  destruct (merge_overwrites_common_entries no_unicode double_cap
              "src.csf" "dst.csf" _ _ _ H)
    as (srcFile & dstFile & res & H1 & H2 & H3 & H4 & H5 & _).
  exists srcFile, dstFile, res.
  exact (conj H (conj H1 (conj H2 (conj H3 (conj H4 H5))))).
Defined.

(** Importing two rows into the file of "TXT:Greeting": a new name, and
    the name of the file in another case with an extra value. *)
Lemma import_first_place_last_value_witness :
  let rows := [["TXT:New"; "new"]; ["txt:greeting"; "Hi!"; "x01"]]%string in
  exists csf res,
    Open no_unicode double_cap "greeting.csf" greeting_bytes = Some (csf, None)
    /\ ImportExcel no_unicode double_cap rows "greeting.csf" greeting_bytes
       = Some (inr (Save_bytes res))
    /\ store_ok res
    /\ OrderList res
       = first_seen (OrderList csf) (map (row_key no_unicode) rows).
Proof.
  cbn zeta. eexists.
  assert (H : Open no_unicode double_cap "greeting.csf" greeting_bytes
              = Some (_, None)) by (vm_compute; reflexivity).
  destruct (import_first_place_last_value no_unicode double_cap
              [["TXT:New"; "new"]; ["txt:greeting"; "Hi!"; "x01"]]%string
              "greeting.csf" greeting_bytes _ H)
    as (res & R1 & R2 & R3 & _).
  - vm_compute. reflexivity.
  - discriminate.
  - reflexivity.
  - apply Forall_cons. split; [vm_compute; discriminate|].
    apply Forall_cons. split; [vm_compute; discriminate|]. constructor.
  - exists res. exact (conj H (conj R1 (conj R2 R3))).
Defined.

(** The keys of a table of two usage messages. *)
Lemma Contains_StringMapKeys_witness :
  let m : gmap string string :=
    <["merge"%string := "merge one CSF file into another"%string]>
      (<["new"%string := "create empty CSF file"%string]> ∅) in
  ranges m (map_to_list m)
  /\ (utils.Contains (utils.StringMapKeys (map_to_list m)) "merge" = true
      <-> is_Some (m !! "merge"%string))
  /\ NoDup (utils.StringMapKeys (map_to_list m))
  /\ length (utils.StringMapKeys (map_to_list m)) = size m.
Proof.
  cbn zeta. split; [unfold ranges; reflexivity|].
  apply Contains_StringMapKeys. unfold ranges. reflexivity.
Defined.

(** The language of a new table with the code 6. *)
Lemma LanguageName_in_Languages_witness :
  LanguageName (New "jp.csf" 3 0 6) ∈ Languages
  /\ (LanguageName (New "jp.csf" 3 0 6) = "Unknown"%string
      <-> 9 < Language (New "jp.csf" 3 0 6)).
Proof.
  apply (LanguageName_in_Languages (New "jp.csf" 3 0 6)).
  vm_compute. discriminate.
Defined.

(** An entry given two extra strings. *)
Lemma new_entry_prints_as_given_witness :
  utf8.ValidString "Bye!"
  /\ LabelValue_String (NewLabelValue "TXT:Bye" "Bye!" ["bye01"; "more"]%string)
     = "TXT:Bye -> Bye! , bye01"%string.
Proof.
  assert (Hv : utf8.ValidString "Bye!") by (vm_compute; reflexivity).
  split; [exact Hv|].
  exact (new_entry_prints_as_given "TXT:Bye" "Bye!" ["bye01"; "more"]%string Hv).
Defined.

(** The categories of a stream with three names of the category "TXT". *)
Lemma categories_hold_all_but_first_witness :
  exists r,
    Open no_unicode double_cap "three.csf"
         (Wire.stream header3 [rec_greeting; rec_bye; rec_foo_1])
    = Some (r, None)
    /\ Categories r !! "TXT"%string = Some ["TXT:Bye"; "TXT:Foo"]%string.
Proof.
  destruct (categories_hold_all_but_first no_unicode double_cap "three.csf"
              header3 [rec_greeting; rec_bye; rec_foo_1])
    as (r & Hr & Hc).
  - reflexivity.
  - reflexivity.
  - unfold len. simpl. lia.
  - exists r. split; [exact Hr|]. rewrite Hc. vm_compute. reflexivity.
Defined.

(** The offsets of the entries of a stream of two records. *)
Lemma offsets_point_at_the_entry_witness :
  exists r,
    Open no_unicode double_cap "two.csf"
         (Wire.stream header3 [rec_greeting; rec_bye]) = Some (r, None)
    /\ forall k lv,
         Values r !! k = Some lv ->
         let o := Label_Offset (LV_Label lv) in
         24 <= o
         /\ (exists rest,
               drop (Z.to_nat o) (Wire.stream header3 [rec_greeting; rec_bye])
               = LabelValue_Bytes lv ++ rest)
         /\ Value_Offset (LV_Value lv)
            = o + 12 + len (Label_Value (LV_Label lv)).
Proof.
  apply (offsets_point_at_the_entry no_unicode double_cap "two.csf" header3
           [rec_greeting; rec_bye]).
  - reflexivity.
  - reflexivity.
  - unfold len. simpl. lia.
Defined.

(** The record "TXT:Bye" cut two bytes into the length of its extra value. *)
Lemma missing_extra_length_reads_as_empty_witness :
  let r0 := Wire.mkRecord (Wire.name rec_bye) (Wire.text rec_bye) (Some []) in
  Wire.extra rec_bye = Some (bytes_of_string "bye01")
  /\ Open no_unicode double_cap "bye.csf"
          (Wire.stream header3 [rec_greeting]
           ++ Wire.cut rec_bye 7 (take 2 (Wire.uint32_le 5)))
     = Some (table_of "bye.csf" header3
               (decode_records no_unicode double_cap ([rec_greeting] ++ [r0])),
             None)
  /\ Open no_unicode double_cap "bye.csf"
          (Wire.stream header3 ([rec_greeting] ++ [r0]))
     = Some (table_of "bye.csf" header3
               (decode_records no_unicode double_cap ([rec_greeting] ++ [r0])),
             None).
Proof.
  cbn zeta. split; [reflexivity|].
  apply (missing_extra_length_reads_as_empty no_unicode double_cap "bye.csf"
           header3 [rec_greeting] rec_bye (bytes_of_string "bye01")
           (take 2 (Wire.uint32_le 5))).
  - reflexivity.
  - reflexivity.
  - unfold len. simpl. lia.
  - reflexivity.
  - reflexivity.
  - simpl. lia.
Defined.

(** The label of the record "TXT:Bye", read at offset 24. *)
Lemma readLabel_returns_what_is_there_witness :
  exists l f',
    readLabel (mkFile (Wire.record_bytes rec_bye) 24) = (Ok l, f')
    /\ Label_Offset l = 24
    /\ 0 <= StringPairs l < 2 ^ 32
    /\ Wire.record_bytes rec_bye
       = bytes_of_string LabelIdentifier
         ++ Wire.uint32_le (StringPairs l)
         ++ Wire.uint32_le (len (Label_Value l))
         ++ Label_Value l ++ unread f'
    /\ offset f' = 24 + 12 + len (Label_Value l).
Proof.
  do 2 eexists. split; [vm_compute; reflexivity|].
  apply (readLabel_returns_what_is_there (mkFile (Wire.record_bytes rec_bye) 24)).
  vm_compute. reflexivity.
Defined.

(** The value of the record "TXT:Bye", read at offset 43. *)
Lemma readValue_returns_what_is_there_witness :
  exists v f',
    readValue (mkFile (value_section rec_bye) 43) = (Ok v, f')
    /\ Value_Offset v = 43
    /\ len (Value_Value v) mod 2 = 0.
Proof.
  do 2 eexists. split; [vm_compute; reflexivity|].
  destruct (readValue_returns_what_is_there (mkFile (value_section rec_bye) 43)
              _ _ ltac:(vm_compute; reflexivity)) as (H1 & H2 & _).
  split; [exact H1 | exact H2].
Defined.

(** A new table for the language 9. *)
Lemma new_table_saved_opens_empty_witness :
  length (Save_bytes (New "new.csf" 3 0 9)) = 24%nat
  /\ Open no_unicode double_cap "new.csf" (Save_bytes (New "new.csf" 3 0 9))
     = Some (New "new.csf" 3 0 9, None).
Proof.
  apply (new_table_saved_opens_empty no_unicode double_cap "new.csf" 3 0 9); lia.
Defined.

(** * The same label in two spellings *)

Section DuplicateLabel.

Variable MapUnicodeToUpper : string -> string.
Variable growslice_cap : nat -> nat -> nat.

Local Abbreviation ToUpper := (ToUpper MapUnicodeToUpper).
Local Abbreviation key := (key MapUnicodeToUpper).
Local Abbreviation decode_records :=
  (decode_records MapUnicodeToUpper growslice_cap).
Local Abbreviation last_wins := (last_wins MapUnicodeToUpper).
Local Abbreviation Open := (Open MapUnicodeToUpper growslice_cap).

(** The byte loop leaves a string without lower-case letters as it is. *)
Lemma upper_byte_no_lower (b : bytes) :
  existsb is_lower b = false -> map upper_byte b = b.
Proof.
  induction b as [|c b IH]; [done|]. cbn [existsb map].
  intros [Hc Hb]%orb_false_iff. unfold upper_byte at 1. rewrite Hc.
  by rewrite IH.
Qed.

Lemma upper_byte_not_lower (c : byte) : is_lower (upper_byte c) = false.
Proof.
  unfold upper_byte. destruct (is_lower c) eqn:Hc; [|done].
  revert Hc. destruct c as [[] [] [] [] [] [] [] []]; vm_compute; congruence.
Qed.

Lemma upper_byte_idem (b : bytes) :
  map upper_byte (map upper_byte b) = map upper_byte b.
Proof.
  apply upper_byte_no_lower. induction b as [|c b IH]; [done|].
  cbn [map existsb]. by rewrite upper_byte_not_lower, IH.
Qed.

(** [strings.ToUpper] on a string of ASCII bytes: the letters a to z are
    replaced by A to Z, byte by byte. *)
Lemma ToUpper_ascii (s : string) :
  forallb is_ascii (bytes_of_string s) = true ->
  ToUpper s = string_of_bytes (map upper_byte (bytes_of_string s)).
Proof.
  intros Ha. unfold ToUpper. cbv zeta. rewrite Ha.
  destruct (existsb is_lower (bytes_of_string s)) eqn:Hl; cbn [negb]; [done|].
  by rewrite upper_byte_no_lower, string_bytes_string.
Qed.

(** The key of a record with an ASCII name is the name in upper case. *)
Lemma key_ascii (r : Wire.record) :
  forallb is_ascii (Wire.name r) = true ->
  key r = string_of_bytes (map upper_byte (Wire.name r)).
Proof.
  intros Ha. unfold key.
  rewrite ToUpper_ascii; by rewrite bytes_string_bytes.
Qed.

(** Every name of a decoded table is the key of a record of the stream. *)
Lemma decoded_key_from_record (rs : list Wire.record) (k : string) :
  is_Some (mapLabelValue (decode_records rs) !! k) ->
  exists rec, rec ∈ rs /\ key rec = k.
Proof.
  destruct (decode_records_spec MapUnicodeToUpper growslice_cap rs)
    as (_ & Hm & _ & _).
  rewrite Hm. intros [lv Hlv].
  apply last_wins_from in Hlv as [Hlv|(o & rec & Hin & Hk & _)].
  - by rewrite lookup_empty in Hlv.
  - apply placed_elem_of in Hin as (pre & post & -> & _).
    exists rec. split; [|done].
    apply elem_of_app. right. apply list_elem_of_here.
Qed.

(** C5 (the same label twice in the stream, in any spelling). Take a
    well-formed stream with two records [r1] and [r2] whose names are
    ASCII and equal up to the case of the letters, such as "TXT:Foo" and
    "txt:FOO"; [r1] is the first and [r2] the last record of that name.
    The decoded table has the entry of [r2] under the name in upper case
    ("TXT:FOO"), and that name stands in [Order] once, right after the
    names that the records before [r1] put there, that is at the place of
    its first occurrence. When all names of the stream are ASCII, the
    table has no entry under another spelling of the name. *)
Theorem duplicate_label_first_place_last_value (name : string)
    (h : Wire.header) (rs1 rs2 rs3 : list Wire.record) (r1 r2 : Wire.record) :
  let NAME := string_of_bytes (map upper_byte (Wire.name r1)) in
  Wire.wf_header h = true ->
  forallb Wire.wf_record (rs1 ++ r1 :: rs2 ++ r2 :: rs3) = true ->
  len (rs1 ++ r1 :: rs2 ++ r2 :: rs3) <= 20000 ->
  forallb is_ascii (Wire.name r1) = true ->
  forallb is_ascii (Wire.name r2) = true ->
  map upper_byte (Wire.name r1) = map upper_byte (Wire.name r2) ->
  NAME ∉ map key rs1 ->
  NAME ∉ map key rs3 ->
  exists r r_before o2 after,
    Open name (Wire.stream h (rs1 ++ r1 :: rs2 ++ r2 :: rs3)) = Some (r, None)
    /\ Open name (Wire.stream h rs1) = Some (r_before, None)
    /\ Values r !! NAME = Some (Wire.decoded o2 r2)
    /\ OrderList r = OrderList r_before ++ NAME :: after
    /\ (NAME ∉ OrderList r_before)
    /\ (NAME ∉ after)
    /\ (forallb (fun rec => forallb is_ascii (Wire.name rec))
                (rs1 ++ r1 :: rs2 ++ r2 :: rs3) = true ->
        forall k : string,
        is_Some (Values r !! k) ->
        map upper_byte (bytes_of_string k) = map upper_byte (Wire.name r1) ->
        k = NAME).
Proof.
  intros NAME Hh Hwf Hn Ha1 Ha2 Hup Hk1 Hk3.
  assert (K1 : key r1 = NAME) by (by apply key_ascii).
  assert (K2 : key r2 = NAME).
  { rewrite key_ascii by done. unfold NAME. by rewrite Hup. }
  destruct (duplicate_key_first_place_last_value MapUnicodeToUpper growslice_cap
              name h rs1 rs2 rs3 r1 r2 Hh Hwf Hn)
    as (r & rb & o2 & after & Ho & Hb & Hv & Hord & Hnb & Hna).
  { by rewrite K1, K2. }
  { by rewrite K1. }
  { by rewrite K2. }
  rewrite K1 in Hv, Hord, Hnb, Hna.
  exists r, rb, o2, after.
  refine (conj Ho (conj Hb (conj Hv (conj Hord (conj Hnb (conj Hna _)))))).
  intros Hall k Hk Hkup.
  pose proof (Open_stream MapUnicodeToUpper growslice_cap name h _ Hh Hwf Hn)
    as Ho'.
  rewrite Ho in Ho'. injection Ho' as ->.
  apply decoded_key_from_record in Hk as (rec & Hin & <-).
  rewrite forallb_forall in Hall.
  assert (Har : forallb is_ascii (Wire.name rec) = true).
  { apply Hall. by apply list_elem_of_In. }
  rewrite key_ascii in Hkup |- * by done.
  rewrite bytes_string_bytes, upper_byte_idem in Hkup.
  unfold NAME. by rewrite Hkup.
Qed.

End DuplicateLabel.

(** C5 on a stream with "TXT:Bye", then the label "TXT:Foo" three times,
    the last time spelled "txt:FOO": the table has the entries "TXT:BYE" and
    "TXT:FOO", the latter with the value of the last record, and no entry
    under the names as they are spelled in the stream. *)
Lemma duplicate_label_first_place_last_value_witness :
  (exists r r_before o2 after,
     Open no_unicode double_cap "a.csf"
       (Wire.stream header3 ([rec_bye] ++ rec_foo_1 :: [rec_foo_2]
                             ++ rec_foo_3 :: []))
     = Some (r, None)
     /\ Open no_unicode double_cap "a.csf" (Wire.stream header3 [rec_bye])
        = Some (r_before, None)
     /\ Values r !! "TXT:FOO"%string = Some (Wire.decoded o2 rec_foo_3)
     /\ OrderList r = OrderList r_before ++ "TXT:FOO"%string :: after
     /\ ("TXT:FOO"%string ∉ OrderList r_before)
     /\ ("TXT:FOO"%string ∉ after)
     /\ Values r !! "TXT:Foo"%string = None
     /\ Values r !! "txt:FOO"%string = None)
  /\ match Open no_unicode double_cap "a.csf"
             (Wire.stream header3 [rec_bye; rec_foo_1; rec_foo_2; rec_foo_3])
     with
     | Some (r, None) =>
         OrderList r = ["TXT:BYE"; "TXT:FOO"]%string
         /\ (LabelValue_String <$> Values r !! "TXT:FOO"%string)
            = Some "txt:FOO -> three"%string
         /\ size (Values r) = 2%nat
     | _ => False
     end.
Proof.
  split.
  - destruct (duplicate_label_first_place_last_value no_unicode double_cap
                "a.csf" header3 [rec_bye] [rec_foo_2] [] rec_foo_1 rec_foo_3)
      as (r & rb & o2 & after & Ho & Hb & Hv & Hord & Hnb & Hna & Hone);
      try (vm_compute; reflexivity).
    + vm_compute. discriminate.
    + vm_compute. intros H. repeat (apply elem_of_cons in H as [H|H]; [discriminate|]).
      by apply elem_of_nil in H.
    + vm_compute. intros H. by apply elem_of_nil in H.
    + exists r, rb, o2, after.
      refine (conj Ho (conj Hb (conj Hv (conj Hord (conj Hnb (conj Hna _)))))).
      split.
      * destruct (Values r !! "TXT:Foo"%string) eqn:E; [|reflexivity].
        discriminate (Hone ltac:(vm_compute; reflexivity) "TXT:Foo"%string
                        ltac:(by rewrite E) ltac:(vm_compute; reflexivity)).
      * destruct (Values r !! "txt:FOO"%string) eqn:E; [|reflexivity].
        discriminate (Hone ltac:(vm_compute; reflexivity) "txt:FOO"%string
                        ltac:(by rewrite E) ltac:(vm_compute; reflexivity)).
  - vm_compute. repeat split.
Defined.
